(** * ssl-pinning: a shallow embedding of the pin store, signer, metrics,
      probe worker and manifest handler, with the properties of the
      specification stated and proved over it.

    Conventions of the embedding.
    - A Go [string] and a Go [[]byte] are both a Rocq [string]; a nil slice
      is told apart from an empty one with [option] where the code tests
      [!= nil].
    - [int64] is [Z]; [time.Time] is an instant in nanoseconds, a [Z];
      [*time.Time] is [option Z].
    - A Go [(T, error)] result is [result T]; an error is its message.
    - A Go map ranged over with [for ... range] is visited in an order the
      language leaves open: the functions below take that order as an
      explicit list of entries, and the theorems hold for every order. *)

From stdpp Require Import gmap strings list sorting.
From Stdlib Require Import ZArith Lia Ascii DecimalString DecimalPos.

Set Warnings "-register-all,-clear-no-such-hyp".

Local Open Scope string_scope.
Local Open Scope Z_scope.

(** ** Results of fallible calls *)

Inductive result (A : Type) : Type :=
  | Ok (a : A)
  | Err (msg : string).
Arguments Ok {A} a.
Arguments Err {A} msg.

(** The built-in [append(l, x)]. *)
Definition append {A} (l : list A) (x : A) : list A := (l ++ [x])%list.

(** ** internal/storage/types *)

Module types.

Record DomainKey : Type := mkDomainKey {
  AppID : string;
  Date : option Z;
  DomainName : string;
  Expire : Z;
  File : string;
  Fqdn : string;
  Key : string;
  LastError : string;
}.

#[global] Instance DomainKey_eq_dec : EqDecision DomainKey.
Proof. solve_decision. Defined.

(** The zero value [types.DomainKey{}]. *)
Definition zeroDomainKey : DomainKey :=
  mkDomainKey "" None "" 0 "" "" "" "".

Definition with_File (f : string) (k : DomainKey) : DomainKey :=
  mkDomainKey (AppID k) (Date k) (DomainName k) (Expire k) f (Fqdn k) (Key k) (LastError k).

Record FileKeys : Type := mkFileKeys { Keys : list DomainKey }.

Record FileStructure : Type := mkFileStructure {
  Payload : FileKeys;
  Signature : string;
}.

(** [sort.Slice] of the Go standard library is an unstable comparison sort
    (insertion sort up to twelve elements, pattern-defeating quicksort
    above).  The code relies on its contract only: the slice is permuted
    so that it is ordered by the comparison.  The contract is stated for
    the comparisons the repository uses, [key a < key b] on an integer
    key. *)
Class SliceSort : Type := {
  sort_Slice : ∀ A : Type, (A → A → bool) → list A → list A;
  sort_Slice_perm : ∀ A (less : A → A → bool) (l : list A),
    sort_Slice A less l ≡ₚ l;
  sort_Slice_sorted : ∀ A (key : A → Z) (l : list A),
    StronglySorted (λ a b, key a ≤ key b)
      (sort_Slice A (λ a b, bool_decide (key a < key b)) l);
}.
Arguments sort_Slice {_ _} less l.

(** [insertionSortLessFunc] of package sort, on the reversed sorted
    prefix: the new element moves left while it is less than its
    predecessor. *)
Fixpoint sink {A} (less : A → A → bool) (x : A) (r : list A) : list A :=
  match r with
  | [] => [x]
  | e :: r' => if less x e then e :: sink less x r' else x :: r
  end.

Definition insertionSortLessFunc {A} (less : A → A → bool) (l : list A) : list A :=
  reverse (foldl (λ r x, sink less x r) [] l).

Section SignedKeys.
Context `{SliceSort}.
(** [json.MarshalIndent(v, "", "  ")] at the two types it is called with. *)
Variable MarshalIndent_FileKeys : FileKeys → result string.
Variable MarshalIndent_FileStructure : FileStructure → result string.

Definition less_Expire (a b : DomainKey) : bool :=
  bool_decide (Expire a < Expire b).

(** [SignedKeys(file, keys, signer)]; [signer] is the signer's [Sign]. *)
Definition SignedKeys (file : string) (keys : list DomainKey)
    (signer : string → result string) : result (option string) :=
  if decide (length keys < 1)%nat then Ok None
  else
    let keys := sort_Slice less_Expire keys in
    let payload := mkFileKeys keys in
    match MarshalIndent_FileKeys payload with
    | Err e => Err ("SignedKeys - failed to marshal keys to JSON: " ++ e)
    | Ok out =>
        match signer out with
        | Err e => Err ("SignedKeys - failed to sign data: " ++ e)
        | Ok sig =>
            match MarshalIndent_FileStructure (mkFileStructure payload sig) with
            | Ok res => Ok (Some res)
            | Err e =>
                Err ("SignedKeys - failed to marshal signed payload to JSON: " ++ e)
            end
        end
    end.
End SignedKeys.

End types.

(** ** internal/signer *)

Module signer.

(** *** The canonicalizer, [jsoncanonicalizer.Transform]

    Modelled from the spec: [Transform] belongs to a third-party package
    that is not part of the repository; section 4.1 of the specification
    fixes it as RFC 8785 (object members sorted by key, no insignificant
    whitespace, minimal string escapes, shortest numbers).  The model
    covers the JSON texts made of objects, arrays, the three literals,
    integers of at most fifteen digits (exact as IEEE doubles, printed by
    RFC 8785 as they are read, [-0] as [0]) and strings of ASCII
    characters that need no escape; any other text is outside the model
    and yields [None].  A duplicated member name is an error, as in the
    package. *)

Inductive value : Type :=
  | JNull
  | JBool (b : bool)
  | JNum (lexeme : string)
  | JStr (s : string)
  | JArr (items : list value)
  | JObj (members : list (string * value)).

Definition quote : ascii := "034"%char.
Definition backslash : ascii := "092"%char.

Definition isWhiteSpace (c : ascii) : bool :=
  bool_decide (c = "032"%char ∨ c = "010"%char ∨ c = "013"%char ∨ c = "009"%char).

Definition isDigit (c : ascii) : bool :=
  bool_decide (48 ≤ nat_of_ascii c ≤ 57)%nat.

(** [scan] skips white space in front of the next character. *)
Fixpoint skip_ws (s : string) : string :=
  match s with
  | String c r => if isWhiteSpace c then skip_ws r else s
  | EmptyString => EmptyString
  end.

(** The characters of a string literal up to its closing quote. *)
Fixpoint parseQuotedString (s : string) : option (string * string) :=
  match s with
  | EmptyString => None
  | String c r =>
      if decide (c = quote) then Some (EmptyString, r)
      else if decide (nat_of_ascii c < 32 ∨ 128 ≤ nat_of_ascii c ∨ c = backslash)%nat
      then None
      else '(t, r') ← parseQuotedString r; Some (String c t, r')
  end.

Definition isDelimiter (c : ascii) : bool :=
  bool_decide (c = ","%char ∨ c = "]"%char ∨ c = "}"%char) || isWhiteSpace c.

(** The token of a literal or a number: up to a delimiter or white space. *)
Fixpoint takeToken (s : string) : string * string :=
  match s with
  | EmptyString => (EmptyString, EmptyString)
  | String c r =>
      if isDelimiter c then (EmptyString, s)
      else let '(t, r') := takeToken r in (String c t, r')
  end.

Fixpoint allDigits (s : string) : bool :=
  match s with
  | EmptyString => true
  | String c r => isDigit c && allDigits r
  end.

(** [0], or a non-zero digit followed by digits; fifteen digits at most. *)
Definition isNatLexeme (s : string) : bool :=
  match s with
  | EmptyString => false
  | String c r =>
      allDigits s && bool_decide (String.length s ≤ 15)%nat
      && (negb (bool_decide (c = "0"%char)) || bool_decide (r = EmptyString))
  end.

Definition parseSimpleType (s : string) : option (value * string) :=
  let '(t, r) := takeToken s in
  if decide (t = "null") then Some (JNull, r)
  else if decide (t = "true") then Some (JBool true, r)
  else if decide (t = "false") then Some (JBool false, r)
  else match t with
       | String c d =>
           if decide (c = "-"%char) then
             if isNatLexeme d
             then Some (JNum (if decide (d = "0") then "0" else t), r)
             else None
           else if isNatLexeme t then Some (JNum t, r) else None
       | EmptyString => None
       end.

(** [scanFor(expected)]. *)
Definition scanFor (expected : ascii) (s : string) : option string :=
  match skip_ws s with
  | String c r => if decide (c = expected) then Some r else None
  | EmptyString => None
  end.

(** Recursive descent; [n] bounds the number of nested calls and is taken
    from the length of the text by [parse]. *)
Fixpoint parseElement (n : nat) (s : string) : option (value * string) :=
  match n with
  | O => None
  | S n =>
      match skip_ws s with
      | String c r =>
          if decide (c = "{"%char) then
            '(ms, r') ← parseObject n false r; Some (JObj ms, r')
          else if decide (c = quote) then
            '(t, r') ← parseQuotedString r; Some (JStr t, r')
          else if decide (c = "["%char) then
            '(vs, r') ← parseArray n false r; Some (JArr vs, r')
          else parseSimpleType (String c r)
      | EmptyString => None
      end
  end
with parseArray (n : nat) (next : bool) (s : string) : option (list value * string) :=
  match n with
  | O => None
  | S n =>
      match skip_ws s with
      | String c r =>
          if decide (c = "]"%char) then Some ([], r)
          else
            s1 ← (if next then scanFor ","%char s else Some s);
            '(v, s2) ← parseElement n s1;
            '(vs, s3) ← parseArray n true s2;
            Some (v :: vs, s3)
      | EmptyString => None
      end
  end
with parseObject (n : nat) (next : bool) (s : string)
    : option (list (string * value) * string) :=
  match n with
  | O => None
  | S n =>
      match skip_ws s with
      | String c r =>
          if decide (c = "}"%char) then Some ([], r)
          else
            s1 ← (if next then scanFor ","%char s else Some s);
            s2 ← scanFor quote s1;
            '(k, s3) ← parseQuotedString s2;
            s4 ← scanFor ":"%char s3;
            '(v, s5) ← parseElement n s4;
            '(ms, s6) ← parseObject n true s5;
            Some ((k, v) :: ms, s6)
      | EmptyString => None
      end
  end.

(** The whole text: one array or object, then white space only. *)
Definition parse (data : string) : option value :=
  let n := (2 * String.length data + 2)%nat in
  match skip_ws data with
  | String c r =>
      if decide (c = "["%char ∨ c = "{"%char) then
        '(v, rest) ← parseElement n data;
        if decide (skip_ws rest = EmptyString) then Some v else None
      else None
  | EmptyString => None
  end.

(** [decorateString]: the characters of the model need no escape. *)
Definition decorateString (raw : string) : string :=
  String quote (raw ++ String quote EmptyString).

(** A member goes in front of the first member whose name it precedes;
    names are compared code unit by code unit, a shorter name first; an
    equal name is the error [Duplicate key]. *)
Fixpoint insertMember (nv : string * string) (l : list (string * string))
    : option (list (string * string)) :=
  match l with
  | [] => Some [nv]
  | e :: l' =>
      match String.compare nv.1 e.1 with
      | Lt => Some (nv :: l)
      | Eq => None
      | Gt => l'' ← insertMember nv l'; Some (e :: l'')
      end
  end.

Fixpoint joinComma (l : list string) : string :=
  match l with
  | [] => EmptyString
  | [x] => x
  | x :: l' => x ++ String ","%char (joinComma l')
  end.

Definition serializeMember (nv : string * string) : string :=
  decorateString nv.1 ++ String ":"%char nv.2.

(** The canonical text of a parsed value. *)
Fixpoint canon (v : value) : option string :=
  match v with
  | JNull => Some "null"
  | JBool true => Some "true"
  | JBool false => Some "false"
  | JNum lexeme => Some lexeme
  | JStr s => Some (decorateString s)
  | JArr items =>
      cs ← foldr (λ v acc, c ← canon v; cs ← acc; Some (c :: cs)) (Some []) items;
      Some (String "["%char (joinComma cs ++ "]"))
  | JObj members =>
      sorted ← foldl (λ acc kv, l ← acc; c ← canon kv.2; insertMember (kv.1, c) l)
                 (Some []) members;
      Some (String "{"%char (joinComma (serializeMember <$> sorted) ++ "}"))
  end.

(** The two loops of [canon], named. *)
Definition canon_items (items : list value) : option (list string) :=
  foldr (λ v acc, c ← canon v; cs ← acc; Some (c :: cs)) (Some []) items.

Definition canon_member (acc : option (list (string * string))) (kv : string * value)
    : option (list (string * string)) :=
  l ← acc; c ← canon kv.2; insertMember (kv.1, c) l.

Definition Transform (data : string) : result string :=
  match parse data ≫= canon with
  | Some canonical => Ok canonical
  | None => Err "invalid JSON"
  end.

(** *** The signer *)

Section Signer.
(** An RSA private key, and the three functions of the Go standard
    library that [Sign] calls: [sha512.Sum512], [rsa.SignPKCS1v15] (a
    function of the key and the digest: the scheme has no salt, and its
    random source is used for blinding only) and
    [base64.StdEncoding.EncodeToString]. *)
Context {PrivateKey : Type}.
Variable sha512_Sum512 : string → string.
Variable rsa_SignPKCS1v15 : PrivateKey → string → result string.
Variable base64_EncodeToString : string → string.

Record Signer : Type := mkSigner { privateKey : PrivateKey }.

Definition Sign (s : Signer) (data : string) : result string :=
  match Transform data with
  | Err e => Err ("failed to canonicalize JSON: " ++ e)
  | Ok canonical =>
      let hashed := sha512_Sum512 canonical in
      match rsa_SignPKCS1v15 (privateKey s) hashed with
      | Err e => Err ("failed to sign JSON: " ++ e)
      | Ok signature => Ok (base64_EncodeToString signature)
      end
  end.
End Signer.

(** *** The texts of a value *)

Fixpoint all_ws (w : string) : bool :=
  match w with
  | EmptyString => true
  | String c r => isWhiteSpace c && all_ws r
  end.

Definition isPlain (c : ascii) : bool :=
  bool_decide (32 ≤ nat_of_ascii c < 128)%nat
  && negb (bool_decide (c = quote)) && negb (bool_decide (c = backslash)).

Fixpoint plain (s : string) : bool :=
  match s with
  | EmptyString => true
  | String c r => isPlain c && plain r
  end.

Definition quoted (s : string) : string := String quote (s ++ String quote EmptyString).

(** The texts of a value: JSON with white space wherever RFC 8259 allows
    it.  [arr_text next l s]: [s] is what follows the opening bracket
    ([next = false]) or an element ([next = true]) of an array whose
    remaining elements are [l], up to the closing bracket; [obj_text]
    likewise for the members of an object. *)
Inductive text : value → string → Prop :=
  | text_ws w v s : all_ws w = true → text v s → text v (w ++ s)
  | text_null : text JNull "null"
  | text_true : text (JBool true) "true"
  | text_false : text (JBool false) "false"
  | text_nat t : isNatLexeme t = true → text (JNum t) t
  | text_neg t : isNatLexeme t = true → t ≠ "0" → text (JNum (String "-" t)) (String "-" t)
  | text_neg_zero : text (JNum "0") "-0"
  | text_str s : plain s = true → text (JStr s) (quoted s)
  | text_arr l s : arr_text false l s → text (JArr l) (String "[" s)
  | text_obj ms s : obj_text false ms s → text (JObj ms) (String "{" s)
with arr_text : bool → list value → string → Prop :=
  | arr_close next w : all_ws w = true → arr_text next [] (w ++ "]")
  | arr_first v s l s' :
      text v s → arr_text true l s' → arr_text false (v :: l) (s ++ s')
  | arr_more w v s l s' :
      all_ws w = true → text v s → arr_text true l s' →
      arr_text true (v :: l) (w ++ String "," (s ++ s'))
with obj_text : bool → list (string * value) → string → Prop :=
  | obj_close next w : all_ws w = true → obj_text next [] (w ++ "}")
  | obj_first w1 k w2 v s ms s' :
      all_ws w1 = true → plain k = true → all_ws w2 = true →
      text v s → obj_text true ms s' →
      obj_text false ((k, v) :: ms) (w1 ++ quoted k ++ w2 ++ String ":" (s ++ s'))
  | obj_more w0 w1 k w2 v s ms s' :
      all_ws w0 = true → all_ws w1 = true → plain k = true → all_ws w2 = true →
      text v s → obj_text true ms s' →
      obj_text true ((k, v) :: ms)
        (w0 ++ String "," (w1 ++ quoted k ++ w2 ++ String ":" (s ++ s'))).

Scheme text_mut := Minimality for text Sort Prop
  with arr_text_mut := Minimality for arr_text Sort Prop
  with obj_text_mut := Minimality for obj_text Sort Prop.
Combined Scheme text_mutind from text_mut, arr_text_mut, obj_text_mut.

(** A document: the text of an array or an object, then white space. *)
Definition document (v : value) (data : string) : Prop :=
  ∃ s w, data = s ++ w ∧ text v s ∧ all_ws w = true ∧
    match v with JArr _ | JObj _ => True | _ => False end.

(** The nesting of calls that parsing a value takes. *)
Fixpoint need (v : value) : nat :=
  match v with
  | JArr l => S (foldr (λ v acc, S (Nat.max (need v) acc)) 1%nat l)
  | JObj ms => S (foldr (λ kv acc, S (Nat.max (need kv.2) acc)) 1%nat ms)
  | _ => 1%nat
  end.
Definition need_arr (l : list value) : nat :=
  foldr (λ v acc, S (Nat.max (need v) acc)) 1%nat l.
Definition need_obj (ms : list (string * value)) : nat :=
  foldr (λ kv acc, S (Nat.max (need kv.2) acc)) 1%nat ms.

Definition delimits (rest : string) : Prop :=
  match rest with
  | EmptyString => True
  | String c _ => isDelimiter c = true
  end.

Fixpoint no_delim (t : string) : bool :=
  match t with
  | EmptyString => true
  | String c r => negb (isDelimiter c) && no_delim r
  end.

(** The first character of a text after its white space: not a
    delimiter, so not a closing bracket. *)
Definition starts (s : string) : Prop :=
  ∃ c r, skip_ws s = String c r ∧ isDelimiter c = false.

(** Two values are equal up to the order of object members. *)
Inductive json_eq : value → value → Prop :=
  | je_refl v : json_eq v v
  | je_arr l1 l2 : items_eq l1 l2 → json_eq (JArr l1) (JArr l2)
  | je_obj ms1 ms2 : members_eq ms1 ms2 → json_eq (JObj ms1) (JObj ms2)
with items_eq : list value → list value → Prop :=
  | ie_nil : items_eq [] []
  | ie_cons v1 v2 l1 l2 :
      json_eq v1 v2 → items_eq l1 l2 → items_eq (v1 :: l1) (v2 :: l2)
with members_eq : list (string * value) → list (string * value) → Prop :=
  | me_nil : members_eq [] []
  | me_skip k v1 v2 ms1 ms2 :
      json_eq v1 v2 → members_eq ms1 ms2 →
      members_eq ((k, v1) :: ms1) ((k, v2) :: ms2)
  | me_swap m1 m2 ms : members_eq (m1 :: m2 :: ms) (m2 :: m1 :: ms)
  | me_trans ms1 ms2 ms3 :
      members_eq ms1 ms2 → members_eq ms2 ms3 → members_eq ms1 ms3.

Scheme json_eq_mut := Minimality for json_eq Sort Prop
  with items_eq_mut := Minimality for items_eq Sort Prop
  with members_eq_mut := Minimality for members_eq Sort Prop.
Combined Scheme json_eq_mutind from json_eq_mut, items_eq_mut, members_eq_mut.

(** Two payloads are equal up to member order and insignificant white
    space when they are documents of two such values. *)
Definition payload_equiv (p1 p2 : string) : Prop :=
  ∃ v1 v2, document v1 p1 ∧ document v2 p2 ∧ json_eq v1 v2.

End signer.

(** ** net/http: what the handlers write *)

Module http.

Record Response : Type := mkResponse {
  StatusCode : nat;
  ContentType : string;
  Body : string;
}.

Definition StatusOK : nat := 200.
Definition StatusBadRequest : nat := 400.
Definition StatusNotFound : nat := 404.
Definition StatusInternalServerError : nat := 500.
Definition StatusServiceUnavailable : nat := 503.

Definition newline : string := String "010"%char EmptyString.

(** [http.Error(w, msg, code)]: plain text, the message and a line feed. *)
Definition Error (msg : string) (code : nat) : Response :=
  mkResponse code "text/plain; charset=utf-8" (msg ++ newline).

(** [strings.Join(l, sep)]. *)
Fixpoint Join (l : list string) (sep : string) : string :=
  match l with
  | [] => EmptyString
  | [x] => x
  | x :: l' => x ++ sep ++ Join l' sep
  end.

(** The deferred function of the probes: [WriteHeader(503)] and the joined
    diagnostics when there are any, [WriteHeader(200)] otherwise. *)
Definition probeResponse (errs : list string) : Response :=
  if decide (0 < length errs)%nat
  then mkResponse StatusServiceUnavailable "" (Join errs newline)
  else mkResponse StatusOK "" "".

End http.

(** [time.Time.Sub]: the difference as a [time.Duration], saturated to the
    range of [int64] nanoseconds. *)
Definition maxDuration : Z := 2 ^ 63 - 1.
Definition minDuration : Z := - 2 ^ 63.
Definition time_Sub (t u : Z) : Z := Z.max minDuration (Z.min maxDuration (t - u)).
Definition Second : Z := 1000000000.

(** [fmt.Sprintf("%v", errs)] of a slice of errors. *)
Definition fmt_errors (errs : list string) : string :=
  "[" ++ http.Join errs " " ++ "]".

(** ** internal/storage/memory *)

Module memory.
Import types.

Record Storage : Type := mkStorage {
  appID : string;
  keys : gmap string DomainKey;
}.

Section Memory.
(** [%q] of package fmt, i.e. [strconv.Quote]. *)
Variable Quote : string → string.

Definition errEmptyKey (key : DomainKey) : string :=
  "empty key for fqdn=" ++ Quote (Fqdn key) ++ " domain=" ++ Quote (DomainName key)
    ++ " file=" ++ Quote (File key).

(** One turn of the loop of [SaveKeys] over [(errs, list)]. *)
Definition SaveKeys_step (st : list string * gmap string DomainKey)
    (entry : string * DomainKey) : list string * gmap string DomainKey :=
  let key := entry.2 in
  if decide (Key key = "") then (append st.1 (errEmptyKey key), st.2)
  else (st.1, <[Fqdn key := key]> st.2).

(** [SaveKeys(keys)]; [entries] are the entries of the argument in the
    order the [range] loop visits them. *)
Definition SaveKeys (s : Storage) (entries : list (string * DomainKey))
    : Storage * option string :=
  let '(errs, list) := foldl SaveKeys_step ([], ∅) entries in
  (mkStorage (appID s) list,
   if decide (0 < length errs)%nat
   then Some ("failed to save some keys: " ++ fmt_errors errs)
   else None).

(** [GetByFile(file)]; [entries] are the entries of [s.keys] in the order
    the [range] loop visits them. *)
Definition GetByFile_step (file : string) (out : list DomainKey)
    (entry : string * DomainKey) : list DomainKey :=
  let key := entry.2 in
  if decide (Key key = "") then out
  else if decide (File key = file) then append out (with_File "" key)
  else out.

Definition GetByFile (entries : list (string * DomainKey)) (file : string)
    : result (list DomainKey * option string) :=
  Ok (foldl (GetByFile_step file) [] entries, None).
End Memory.

(** The claim as the specification words it: the stored records are
    exactly the input records that have a key. *)
Definition stores_exactly_valid (input saved : gmap string DomainKey) : Prop :=
  ∀ r, (∃ f, saved !! f = Some r) ↔ (∃ k, input !! k = Some r ∧ Key r ≠ "").

(** *** The probes of the memory backend *)

Definition maxAge : Z := 10 * Second.

Section Probes.
Variable Quote : string → string.
(** [Duration.String], the [%s] of a [time.Duration]. *)
Variable Duration_String : Z → string.

(** One turn of the loop of [ProbeLiveness] over [(errs, freshKeys)]. *)
Definition ProbeLiveness_step (now : Z) (st : list string * nat)
    (entry : string * DomainKey) : list string * nat :=
  let k := entry.2 in
  if decide (Key k = "") then (append st.1 (errEmptyKey Quote k), st.2)
  else
    match Date k with
    | None =>
        (append st.1 ("missing date for key " ++ Fqdn k ++ " (" ++ DomainName k ++ ")"),
         st.2)
    | Some date =>
        let age := time_Sub now date in
        if decide (maxAge ≤ age)
        then (append st.1
                ("key for " ++ Fqdn k ++ " (" ++ DomainName k ++ ") appears stale (age="
                 ++ Duration_String age ++ " >= " ++ Duration_String maxAge ++ ")"),
              st.2)
        else (st.1, S st.2)
    end.

(** The handler of [ProbeLiveness]; [entries] are the entries of [s.keys]
    in the order of the loop and [now] is [time.Now()]. *)
Definition ProbeLiveness (entries : list (string * DomainKey)) (now : Z)
    : http.Response :=
  http.probeResponse
    (if decide (length entries = 0)%nat then ["no keys in memory"]
     else
       let '(errs, freshKeys) := foldl (ProbeLiveness_step now) ([], 0%nat) entries in
       if decide (freshKeys = 0)%nat
       then append errs "no fresh keys found in memory"
       else errs).

(** One turn of the loop of [ProbeReadiness] over [(errs, validKeys)]. *)
Definition ProbeReadiness_step (st : list string * nat) (entry : string * DomainKey)
    : list string * nat :=
  let k := entry.2 in
  if decide (Key k = "") then (append st.1 (errEmptyKey Quote k), st.2)
  else
    match Date k with
    | None =>
        (append st.1
           ("missing date for key fqdn=" ++ Quote (Fqdn k) ++ " domain="
            ++ Quote (DomainName k) ++ " file=" ++ Quote (File k)),
         st.2)
    | Some _ => (st.1, S st.2)
    end.

Definition ProbeReadiness (entries : list (string * DomainKey)) : http.Response :=
  http.probeResponse
    (if decide (length entries = 0)%nat then ["no keys in memory"]
     else
       let '(errs, validKeys) := foldl ProbeReadiness_step ([], 0%nat) entries in
       if decide (validKeys = 0)%nat
       then append errs "no valid keys in memory"
       else errs).
End Probes.

(** A record the readiness probe counts, and one the liveness probe
    counts at the time [now]. *)
Definition valid (k : DomainKey) : Prop := Key k ≠ "" ∧ Date k ≠ None.

Definition alive (now : Z) (k : DomainKey) : Prop :=
  Key k ≠ "" ∧ match Date k with Some date => now - date < maxAge | None => False end.

#[global] Instance valid_dec k : Decision (valid k).
Proof. unfold valid. apply _. Defined.

#[global] Instance alive_dec now k : Decision (alive now k).
Proof. unfold alive. destruct (Date k); apply _. Defined.

End memory.

(** ** internal/storage/filesystem *)

Module filesystem.

(** What [os.ReadDir] and [DirEntry.Info] report: a name and either the
    modification time or the error of [Info]. *)
Record DirEntry : Type := mkDirEntry {
  Name : string;
  Info : result Z;
}.

Section Filesystem.
Variable Quote : string → string.

Definition maxAge : Z := 10 * Second.

Definition ProbeReadiness_step (now : Z) (errs : list string) (e : DirEntry)
    : list string :=
  match Info e with
  | Err err =>
      append errs ("failed to get file info for " ++ Quote (Name e) ++ ": " ++ err)
  | Ok modTime =>
      if decide (maxAge ≤ time_Sub now modTime)
      then append errs "no dump files newer than 10s"
      else errs
  end.

Definition ProbeReadiness_errs (dumpDir : string) (readDir : result (list DirEntry))
    (now : Z) : list string :=
  match readDir with
  | Err err => ["failed to read dump dir " ++ Quote dumpDir ++ ": " ++ err]
  | Ok entries =>
      if decide (length entries = 0)%nat then ["no dump files found"]
      else foldl (ProbeReadiness_step now) [] entries
  end.

(** The handler of [ProbeReadiness]; [readDir] is what [os.ReadDir] of
    the dump directory returns and [now] is [time.Now()]. *)
Definition ProbeReadiness (dumpDir : string) (readDir : result (list DirEntry))
    (now : Z) : http.Response :=
  http.probeResponse (ProbeReadiness_errs dumpDir readDir now).

(** [GetByFile(file)]; [readFile] is what [os.ReadFile] returns. *)
Definition GetByFile (readFile : result string) (file : string)
    : result (list types.DomainKey * option string) :=
  match readFile with
  | Ok data => Ok ([], Some data)
  | Err _ => Err ("file " ++ file ++ " not found")
  end.
End Filesystem.

(** An entry modified less than [maxAge] ago, and one modified [maxAge]
    ago or earlier. *)
Definition fresh (now : Z) (e : DirEntry) : Prop :=
  ∃ modTime, Info e = Ok modTime ∧ now - modTime < maxAge.

Definition stale (now : Z) (e : DirEntry) : Prop :=
  ∃ modTime, Info e = Ok modTime ∧ maxAge ≤ now - modTime.

(** *** The files of the dump directory *)

(** The dump directory is a map from the names of its files to their
    contents.  [os.ReadFile(dumpDir/name)]: *)
Definition ReadFile (dumpDir : string) (dir : gmap string string) (name : string)
    : result string :=
  match dir !! name with
  | Some data => Ok data
  | None => Err ("open " ++ dumpDir ++ "/" ++ name ++ ": no such file or directory")
  end.

(** What can go wrong in one call of [saveFile]: the error of
    [os.CreateTemp], of [Write] (with what reached the file before it), of
    [Sync], of [Close] and of [os.Rename], and whether the deferred
    [os.Remove] fails. *)
Record Faults : Type := mkFaults {
  create_err : option string;
  write_err : option (string * string);
  sync_err : option string;
  close_err : option string;
  rename_err : option string;
  remove_err : bool;
}.

Definition no_faults : Faults := mkFaults None None None None None false.

(** The name [os.CreateTemp(dumpDir, ".file.tmp-*")] gives the file it
    creates: the pattern with the star replaced by a random string. *)
Definition tempName (file rnd : string) : string := "." ++ file ++ ".tmp-" ++ rnd.

(** The deferred [os.Remove(tmpFile.Name())], its error dropped. *)
Definition Remove (faults : Faults) (dir : gmap string string) (name : string)
    : gmap string string :=
  if remove_err faults then dir else delete name dir.

(** [saveFile(file, data)]: the directory afterwards and the error. *)
Definition saveFile (faults : Faults) (rnd : string) (dumpDir : string)
    (dir : gmap string string) (file data : string)
    : gmap string string * option string :=
  match create_err faults with
  | Some err => (dir, Some ("DumpFile: create temp file: " ++ err))
  | None =>
      let tmp := tempName file rnd in
      let dir := <[tmp := ""]> dir in
      match write_err faults with
      | Some (written, err) =>
          (Remove faults (<[tmp := written]> dir) tmp,
           Some ("DumpFile: write temp file: " ++ err))
      | None =>
          let dir := <[tmp := data]> dir in
          match sync_err faults with
          | Some err =>
              (Remove faults dir tmp, Some ("DumpFile: fsync temp file: " ++ err))
          | None =>
              match close_err faults with
              | Some err =>
                  (Remove faults dir tmp, Some ("DumpFile: close temp file: " ++ err))
              | None =>
                  match rename_err faults with
                  | Some err =>
                      (Remove faults dir tmp,
                       Some ("DumpFile: rename " ++ dumpDir ++ "/" ++ tmp ++ " -> "
                             ++ dumpDir ++ "/" ++ file ++ ": " ++ err))
                  | None =>
                      (Remove faults (<[file := data]> (delete tmp dir)) tmp, None)
                  end
              end
          end
      end
  end.

Section SaveKeys.
Context `{types.SliceSort}.
Variable Quote : string → string.
Variable MarshalIndent_FileKeys : types.FileKeys → result string.
Variable MarshalIndent_FileStructure : types.FileStructure → result string.
(** [s.signer.Sign]. *)
Variable Sign : string → result string.

(** One turn of the first loop of [SaveKeys] over [(errs, files)]. *)
Definition group_step (st : list string * gmap string (list types.DomainKey))
    (entry : string * types.DomainKey)
    : list string * gmap string (list types.DomainKey) :=
  let key := entry.2 in
  if decide (types.Key key = "")
  then (append st.1 (memory.errEmptyKey Quote key), st.2)
  else
    let f := types.File key in
    (st.1, <[f := append (default [] (st.2 !! f)) (types.with_File "" key)]> st.2).

(** One turn of the second loop over [(errs, dir)]: the faults and the
    random part of the temporary name are those of the call of
    [saveFile] for the file. *)
Definition save_step (faults : string → Faults) (rnd : string → string)
    (dumpDir : string) (st : list string * gmap string string)
    (group : string * list types.DomainKey) : list string * gmap string string :=
  let file := group.1 in
  match types.SignedKeys MarshalIndent_FileKeys MarshalIndent_FileStructure
          file group.2 Sign with
  | Err err =>
      (append st.1 ("failed signing keys for file " ++ file ++ ": " ++ err), st.2)
  | Ok data =>
      let saved := saveFile (faults file) (rnd file) dumpDir st.2 file (default "" data) in
      match saved.2 with
      | Some err => (append st.1 ("failed to save file " ++ file ++ ": " ++ err), saved.1)
      | None => (st.1, saved.1)
      end
  end.

(** [SaveKeys(keys)]; [entries] are the entries of the argument and
    [visit] the entries of [files], each in the order of its loop. *)
Definition SaveKeys (faults : string → Faults) (rnd : string → string)
    (dumpDir : string) (dir : gmap string string)
    (entries : list (string * types.DomainKey))
    (visit : gmap string (list types.DomainKey) → list (string * list types.DomainKey))
    : gmap string string * option string :=
  let grouped := foldl group_step ([], ∅) entries in
  let saved := foldl (save_step faults rnd dumpDir) (grouped.1, dir) (visit grouped.2) in
  (saved.2,
   if decide (0 < length saved.1)%nat
   then Some ("failed to save some files: " ++ fmt_errors saved.1)
   else None).
End SaveKeys.

(** The records [SaveKeys] puts in the file [f], in the order of the
    entries. *)
Definition group_of (f : string) (entries : list (string * types.DomainKey))
    : list types.DomainKey :=
  types.with_File "" <$>
    filter (λ r, types.File r = f ∧ types.Key r ≠ "") entries.*2.

(** *** The liveness probe *)

Section ProbeLiveness.
Variable Quote : string → string.
Variable Duration_String : Z → string.
(** [DirEntry.IsDir], [filepath.Join(dumpDir, name)], [os.ReadFile] of a
    path and [json.Unmarshal] into a [types.FileStructure]. *)
Variable IsDir : DirEntry → bool.
Variable filepath_Join : string → string → string.
Variable os_ReadFile : string → result string.
Variable Unmarshal : string → result types.FileStructure.

(** One turn of the loop over the keys of a file. *)
Definition ProbeLiveness_key (now : Z) (st : list string * nat) (k : types.DomainKey)
    : list string * nat :=
  if decide (types.LastError k ≠ "")
  then (append st.1
          ("key for " ++ types.Fqdn k ++ " (" ++ types.DomainName k
           ++ ") has last_error: " ++ types.LastError k),
        st.2)
  else
    match types.Date k with
    | None =>
        (append st.1
           ("missing date for key " ++ types.Fqdn k ++ " (" ++ types.DomainName k ++ ")"),
         st.2)
    | Some date =>
        let age := time_Sub now date in
        if decide (maxAge ≤ age)
        then (append st.1
                ("key for " ++ types.Fqdn k ++ " (" ++ types.DomainName k
                 ++ ") appears stale (age=" ++ Duration_String age ++ " >= "
                 ++ Duration_String maxAge ++ ")"),
              st.2)
        else (st.1, S st.2)
    end.

(** One turn of the loop over the entries of the directory. *)
Definition ProbeLiveness_entry (dumpDir : string) (now : Z) (st : list string * nat)
    (e : DirEntry) : list string * nat :=
  if IsDir e then st
  else
    let path := filepath_Join dumpDir (Name e) in
    match os_ReadFile path with
    | Err err => (append st.1 ("failed to read file " ++ Quote path ++ ": " ++ err), st.2)
    | Ok raw =>
        match Unmarshal raw with
        | Err err =>
            (append st.1 ("failed to unmarshal file " ++ Quote path ++ ": " ++ err), st.2)
        | Ok data =>
            let keys := types.Keys (types.Payload data) in
            if decide (length keys = 0)%nat
            then (append st.1 ("no keys in file (" ++ Name e ++ ")"), st.2)
            else foldl (ProbeLiveness_key now) st keys
        end
    end.

(** The handler of [ProbeLiveness]. *)
Definition ProbeLiveness (dumpDir : string) (readDir : result (list DirEntry))
    (now : Z) : http.Response :=
  http.probeResponse
    match readDir with
    | Err err => ["failed to read dump dir " ++ Quote dumpDir ++ ": " ++ err]
    | Ok entries =>
        if decide (length entries = 0)%nat then ["no dump files found"]
        else
          let '(errs, freshKeys) :=
            foldl (ProbeLiveness_entry dumpDir now) ([], 0%nat) entries in
          if decide (freshKeys = 0)%nat then append errs "no fresh keys found" else errs
    end.

(** A key the probe counts, and a file all of whose keys it counts. *)
Definition fresh_key (now : Z) (k : types.DomainKey) : Prop :=
  types.LastError k = "" ∧
  match types.Date k with Some date => now - date < maxAge | None => False end.

Definition sound_file (dumpDir : string) (now : Z) (e : DirEntry) : Prop :=
  match os_ReadFile (filepath_Join dumpDir (Name e)) with
  | Err _ => False
  | Ok raw =>
      match Unmarshal raw with
      | Err _ => False
      | Ok data =>
          types.Keys (types.Payload data) ≠ [] ∧
          Forall (fresh_key now) (types.Keys (types.Payload data))
      end
  end.
End ProbeLiveness.

#[global] Instance fresh_key_dec now k : Decision (fresh_key now k).
Proof. unfold fresh_key. destruct (types.Date k); apply _. Defined.

End filesystem.

(** ** internal/storage/redis *)

Module redis.
Import types.

(** What the connection does to the commands of one call: the error of an
    [HSET] on a key, of [KEYS], of the pipeline, and of one [HGETALL]. *)
Record Conn : Type := mkConn {
  hset_err : string → option string;
  keys_err : bool;
  exec_err : bool;
  hgetall_err : string → bool;
}.

Definition healthy : Conn := mkConn (λ _, None) false false (λ _, false).

(** [data[name]] of a Go [map[string]string]: empty when absent. *)
Definition field (data : gmap string string) (name : string) : string :=
  default "" (data !! name).

(** [HGETALL]: the hash at the key, empty when there is none. *)
Definition HGetAll (db : gmap string (gmap string string)) (k : string)
    : gmap string string :=
  default ∅ (db !! k).

(** [HSET]: the fields are set in the hash at the key. *)
Definition HSet (db : gmap string (gmap string string)) (k : string)
    (fields : list (string * string)) : gmap string (gmap string string) :=
  <[k := list_to_map fields ∪ HGetAll db k]> db.

Fixpoint digitsVal (acc : Z) (s : string) : option Z :=
  match s with
  | EmptyString => Some acc
  | String c r =>
      if signer.isDigit c
      then digitsVal (10 * acc + (Z.of_nat (nat_of_ascii c) - 48)) r
      else None
  end.

(** [strconv.ParseInt(s, 10, 64)] with its error dropped: zero on a
    syntax error, the nearest bound of [int64] when out of range. *)
Definition ParseInt (s : string) : Z :=
  let '(neg, ds) :=
    match s with
    | String "+" r => (false, r)
    | String "-" r => (true, r)
    | _ => (false, s)
    end in
  if decide (ds = "") then 0
  else match digitsVal 0 ds with
       | None => 0
       | Some un => if neg then Z.max (- 2 ^ 63) (- un) else Z.min (2 ^ 63 - 1) un
       end.

(** The choice between the best record so far and a new one. *)
Definition pick (best : option DomainKey) (k : DomainKey) : option DomainKey :=
  match best with
  | Some prev => if decide (Expire k < Expire prev) then Some k else Some prev
  | None => Some k
  end.

Definition replies (cmds : list (result (gmap string string)))
    : list (gmap string string) :=
  omap (λ cmd, match cmd with Ok data => Some data | Err _ => None end) cmds.

Section Redis.
(** How the client writes a [*time.Time] and an [int64] argument, and
    [time.Parse(time.RFC3339Nano, s)] with its error dropped. *)
Variable formatDate : option Z → string.
Variable formatInt : Z → string.
Variable time_Parse : string → Z.
(** The glob match of the server's [KEYS pattern]. *)
Variable stringmatch : string → string → bool.

Definition hashKey (appID : string) (key : DomainKey) : string :=
  File key ++ ":" ++ Fqdn key ++ ":" ++ appID.

Definition hashFields (key : DomainKey) : list (string * string) :=
  [("date", formatDate (Date key));
   ("domainName", DomainName key);
   ("expire", formatInt (Expire key));
   ("file", File key);
   ("fqdn", Fqdn key);
   ("key", Key key);
   ("last_error", LastError key)].

(** One turn of the loop of [SaveKeys] over [(errs, db)]. *)
Definition SaveKeys_step (appID : string) (conn : Conn)
    (st : list string * gmap string (gmap string string))
    (entry : string * DomainKey) : list string * gmap string (gmap string string) :=
  let key := entry.2 in
  if decide (Key key = "") then st
  else
    let hash := hashKey appID key in
    match hset_err conn hash with
    | Some err => (append st.1 err, st.2)
    | None => (st.1, HSet st.2 hash (hashFields key))
    end.

(** [SaveKeys(keys)]: the keyspace afterwards and the error. *)
Definition SaveKeys (appID : string) (conn : Conn)
    (db : gmap string (gmap string string)) (entries : list (string * DomainKey))
    : gmap string (gmap string string) * option string :=
  let '(errs, db') := foldl (SaveKeys_step appID conn) ([], db) entries in
  (db',
   if decide (0 < length errs)%nat
   then Some ("failed to save some keys: " ++ fmt_errors errs)
   else None).

Definition parseHash (data : gmap string string) : DomainKey :=
  mkDomainKey "" (Some (time_Parse (field data "date"))) (field data "domainName")
    (ParseInt (field data "expire")) "" (field data "fqdn") (field data "key")
    (field data "last_error").

(** One turn of the loop over the replies of the pipeline. *)
Definition best_step (best : gmap string DomainKey)
    (cmd : result (gmap string string)) : gmap string DomainKey :=
  match cmd with
  | Err _ => best
  | Ok data =>
      if decide (size data = 0)%nat then best
      else if decide (field data "key" = "") then best
      else
        let k := parseHash data in
        let fqdn := field data "fqdn" in
        match best !! fqdn with
        | Some prev => if decide (Expire k < Expire prev) then <[fqdn := k]> best else best
        | None => <[fqdn := k]> best
        end
  end.

Definition pipeline (conn : Conn) (db : gmap string (gmap string string))
    (reply : list string) : list (result (gmap string string)) :=
  (λ k, if hgetall_err conn k then Err "hgetall" else Ok (HGetAll db k)) <$> reply.

(** [GetByFile(file)]; [reply] is the reply of [KEYS file:*] and [visit]
    the order in which the last loop ranges over [best]. *)
Definition GetByFile (conn : Conn) (db : gmap string (gmap string string))
    (reply : list string) (visit : gmap string DomainKey → list (string * DomainKey))
    (file : string) : result (list DomainKey * option string) :=
  if keys_err conn then Err "failed to get keys from redis"
  else if decide (length reply = 0)%nat then Ok ([], None)
  else if exec_err conn then Err "failed to execute pipeline"
  else
    let best := foldl best_step ∅ (pipeline conn db reply) in
    Ok (foldl (λ keys kv, append keys kv.2) [] (visit best), None).

(** The reply of [KEYS pattern]: the matching keys, in some order. *)
Definition keys_reply (db : gmap string (gmap string string)) (pattern : string)
    (reply : list string) : Prop :=
  reply ≡ₚ filter (λ k, stringmatch pattern k = true) (elements (dom db)).

(** The hashes of the replies that count for a name. *)
Definition eligible (g : string) (data : gmap string string) : Prop :=
  field data "key" ≠ "" ∧ field data "fqdn" = g.

(** The hashes stored for a file and a name: at a key that matches
    [file:*], with a key field, and with that name. *)
Definition stored (db : gmap string (gmap string string)) (file g : string)
    (data : gmap string string) : Prop :=
  ∃ k, db !! k = Some data ∧ stringmatch (file ++ ":*") k = true ∧ eligible g data.

(** The hash of a record as the seven fields of [HSET] leave it. *)
Definition written (r : DomainKey) (data : gmap string string) : Prop :=
  ∀ name value, (name, value) ∈ hashFields r → field data name = value.

End Redis.

(** The entries [SaveKeys] writes, and those whose write fails. *)
Definition has_key (entry : string * DomainKey) : Prop := Key entry.2 ≠ "".

Definition hset_fails (appID : string) (conn : Conn) (entry : string * DomainKey)
    : Prop :=
  Key entry.2 ≠ "" ∧ hset_err conn (hashKey appID entry.2) ≠ None.

(** [strconv.FormatInt(n, 10)], the way the client writes an [int64]
    argument of a command: the decimal digits, after a minus sign when
    the number is negative. *)
Definition FormatInt (n : Z) : string := NilZero.string_of_int (Z.to_int n).

(** The value of a list of decimal digits read from the left after [acc]. *)
Fixpoint uint_val (acc : Z) (d : Decimal.uint) : Z :=
  match d with
  | Decimal.Nil => acc
  | Decimal.D0 d => uint_val (10 * acc) d
  | Decimal.D1 d => uint_val (10 * acc + 1) d
  | Decimal.D2 d => uint_val (10 * acc + 2) d
  | Decimal.D3 d => uint_val (10 * acc + 3) d
  | Decimal.D4 d => uint_val (10 * acc + 4) d
  | Decimal.D5 d => uint_val (10 * acc + 5) d
  | Decimal.D6 d => uint_val (10 * acc + 6) d
  | Decimal.D7 d => uint_val (10 * acc + 7) d
  | Decimal.D8 d => uint_val (10 * acc + 8) d
  | Decimal.D9 d => uint_val (10 * acc + 9) d
  end.

(** *** The probes of the Redis backend *)

Definition maxAge : Z := 10 * Second.

Section Probes.
Variable Quote : string → string.
Variable Duration_String : Z → string.
(** [time.Parse(time.RFC3339Nano, s)]. *)
Variable time_Parse : string → result Z.
(** The reply of each [HGETALL] of the pipeline, by key. *)
Variable hgetall : string → result (gmap string string).

(** One turn of the loop of [ProbeLiveness] over [(errs, freshKeys)]. *)
Definition ProbeLiveness_step (now : Z) (st : list string * nat)
    (cmd : result (gmap string string)) : list string * nat :=
  match cmd with
  | Err err => (append st.1 ("HGetAll failed: " ++ err), st.2)
  | Ok data =>
      if decide (size data = 0)%nat then (append st.1 "empty redis hash", st.2)
      else if decide (field data "key" = "")
      then (append st.1
              ("empty key for fqdn=" ++ Quote (field data "fqdn") ++ " domain="
               ++ Quote (field data "domainName") ++ " file="
               ++ Quote (field data "file")),
            st.2)
      else if decide (field data "last_error" ≠ "")
      then (append st.1
              ("key for " ++ field data "fqdn" ++ " (" ++ field data "domainName"
               ++ ") has last_error: " ++ field data "last_error"),
            st.2)
      else if decide (field data "date" = "")
      then (append st.1
              ("missing date for key " ++ field data "fqdn" ++ " ("
               ++ field data "domainName" ++ ")"),
            st.2)
      else
        match time_Parse (field data "date") with
        | Err err =>
            (append st.1
               ("invalid date " ++ Quote (field data "date") ++ " for fqdn="
                ++ field data "fqdn" ++ ": " ++ err),
             st.2)
        | Ok t =>
            let age := time_Sub now t in
            if decide (maxAge ≤ age)
            then (append st.1
                    ("key for " ++ field data "fqdn" ++ " (" ++ field data "domainName"
                     ++ ") appears stale (age=" ++ Duration_String age ++ " >= "
                     ++ Duration_String maxAge ++ ")"),
                  st.2)
            else (st.1, S st.2)
        end
  end.

(** The handler of [ProbeLiveness]; [keys] is the reply of
    [KEYS *:*:appID] and [exec] the error of the pipeline, if any. *)
Definition ProbeLiveness (keys : result (list string)) (exec : option string)
    (now : Z) : http.Response :=
  http.probeResponse
    match keys with
    | Err err => ["failed to query redis: " ++ err]
    | Ok reply =>
        if decide (length reply = 0)%nat then ["no redis keys found for app"]
        else
          match exec with
          | Some err => ["redis pipeline error: " ++ err]
          | None =>
              let '(errs, freshKeys) :=
                foldl (ProbeLiveness_step now) ([], 0%nat) (hgetall <$> reply) in
              if decide (freshKeys = 0)%nat
              then append errs "no fresh keys in redis"
              else errs
          end
    end.

(** One turn of the loop of [ProbeReadiness] over [(errs, validKeys)]. *)
Definition ProbeReadiness_step (st : list string * nat)
    (cmd : result (gmap string string)) : list string * nat :=
  match cmd with
  | Err err => (append st.1 ("HGetAll failed: " ++ err), st.2)
  | Ok data =>
      if decide (size data = 0)%nat then (append st.1 "empty redis hash", st.2)
      else if decide (field data "key" = "")
      then (append st.1 "redis key missing 'key' field", st.2)
      else if decide (field data "fqdn" = "")
      then (append st.1 "redis key missing 'fqdn'", st.2)
      else if decide (field data "date" = "")
      then (append st.1 "redis key missing 'date'", st.2)
      else (st.1, S st.2)
  end.

Definition ProbeReadiness (keys : result (list string)) (exec : option string)
    : http.Response :=
  http.probeResponse
    match keys with
    | Err err => ["failed to query redis: " ++ err]
    | Ok reply =>
        if decide (length reply = 0)%nat then ["no redis keys found for app"]
        else
          match exec with
          | Some err => ["redis pipeline error: " ++ err]
          | None =>
              let '(errs, validKeys) :=
                foldl ProbeReadiness_step ([], 0%nat) (hgetall <$> reply) in
              if decide (validKeys = 0)%nat
              then append errs "no valid keys in redis"
              else errs
          end
    end.

(** A reply the readiness probe counts, and one the liveness probe
    counts at the time [now]. *)
Definition valid_hash (cmd : result (gmap string string)) : Prop :=
  match cmd with
  | Err _ => False
  | Ok data =>
      field data "key" ≠ "" ∧ field data "fqdn" ≠ "" ∧ field data "date" ≠ ""
  end.

Definition fresh_hash (now : Z) (cmd : result (gmap string string)) : Prop :=
  match cmd with
  | Err _ => False
  | Ok data =>
      field data "key" ≠ "" ∧ field data "last_error" = "" ∧
      field data "date" ≠ "" ∧
      match time_Parse (field data "date") with
      | Ok t => now - t < maxAge
      | Err _ => False
      end
  end.
End Probes.

#[global] Instance valid_hash_dec cmd : Decision (valid_hash cmd).
Proof. destruct cmd; simpl; apply _. Defined.

#[global] Instance fresh_hash_dec time_Parse now cmd :
  Decision (fresh_hash time_Parse now cmd).
Proof.
  destruct cmd as [data|]; simpl; [|apply _].
  destruct (time_Parse (field data "date")); apply _.
Defined.

End redis.

(** ** internal/storage/postgres *)

Module postgres.
Import types.

(** A row of [domain_keys] (the columns the two statements touch). *)
Record Row : Type := mkRow {
  app_id : string;
  date : option Z;
  domain_name : string;
  expire : Z;
  file : string;
  fqdn : string;
  key : string;
  last_error : option string;
}.

#[global] Instance Row_eq_dec : EqDecision Row.
Proof. solve_decision. Defined.

(** What the connection does to one call of [GetByFile]. *)
Record Conn : Type := mkConn {
  query_err : bool;
  scan_err : Row → bool;
  rows_err : bool;
}.

Definition healthy : Conn := mkConn false (λ _, false) false.

(** [ORDER BY fqdn, expire ASC]; the order of the names stands for the
    collation of the column. *)
Definition row_le (r1 r2 : Row) : Prop :=
  String.compare (fqdn r1) (fqdn r2) = Lt ∨ (fqdn r1 = fqdn r2 ∧ expire r1 ≤ expire r2).

#[global] Instance row_le_dec : RelDecision row_le.
Proof. intros r1 r2. unfold row_le. apply _. Defined.

(** [DISTINCT ON (fqdn)]: the first row of each set of rows of one name. *)
Fixpoint distinct_on_fqdn (seen : list string) (rows : list Row) : list Row :=
  match rows with
  | [] => []
  | r :: rows' =>
      if decide (fqdn r ∈ seen) then distinct_on_fqdn seen rows'
      else r :: distinct_on_fqdn (fqdn r :: seen) rows'
  end.

(** Modelled from the spec: the statement runs in the database server,
    which is not part of the repository; this is the meaning PostgreSQL
    gives to
    [SELECT DISTINCT ON (fqdn) ... WHERE file = $1 AND key <> ''
     ORDER BY fqdn, expire ASC]. *)
Definition query (table : list Row) (f : string) : list Row :=
  distinct_on_fqdn []
    (merge_sort row_le (filter (λ r, file r = f ∧ key r ≠ "") table)).

(** [rows.Scan] into a [DomainKey], with the two nullable columns. *)
Definition scanRow (r : Row) : DomainKey :=
  mkDomainKey "" (date r) (domain_name r) (expire r) "" (fqdn r) (key r)
    (default "" (last_error r)).

Fixpoint scanRows (conn : Conn) (rows : list Row) (res : list DomainKey)
    : result (list DomainKey) :=
  match rows with
  | [] => Ok res
  | r :: rows' =>
      if scan_err conn r then Err "failed to scan row"
      else if decide (key r = "") then scanRows conn rows' res
      else scanRows conn rows' (append res (scanRow r))
  end.

Definition GetByFile (conn : Conn) (table : list Row) (f : string)
    : result (list DomainKey * option string) :=
  if query_err conn then Err "failed to query keys from postgres"
  else match scanRows conn (query table f) [] with
       | Err e => Err e
       | Ok res =>
           if rows_err conn then Err "failed to read rows" else Ok (res, None)
       end.

(** The rows that count for a file and a name. *)
Definition stored (table : list Row) (f g : string) (row : Row) : Prop :=
  row ∈ table ∧ file row = f ∧ key row ≠ "" ∧ fqdn row = g.

(** *** SaveKeys *)

(** What the connection does to the statements of one call of
    [SaveKeys]: the error of [BeginTx], of [PrepareContext], of the
    [ExecContext] of a key and of [Commit]. *)
Record SaveConn : Type := mkSaveConn {
  begin_err : option string;
  prepare_err : option string;
  exec_err : DomainKey → option string;
  commit_err : option string;
}.

Definition working : SaveConn := mkSaveConn None None (λ _, None) None.

(** The columns of the unique index [domain_keys_app_file_fqdn_uq]. *)
Definition index (r : Row) : string * string * string := (app_id r, file r, fqdn r).

Section SaveKeys.
(** The instant a [TIMESTAMPTZ] column keeps of a [time.Time]: the
    column has a resolution of one microsecond. *)
Variable timestamptz : Z → Z.

(** The row the eight arguments of the statement make. *)
Definition toRow (appID : string) (k : DomainKey) : Row :=
  mkRow appID (timestamptz <$> Date k) (DomainName k) (Expire k) (File k) (Fqdn k)
    (Key k) (Some (LastError k)).

(** The statement of [SaveKeys] runs in the database server; this is the
    meaning PostgreSQL gives to
    [INSERT ... ON CONFLICT (app_id, file, fqdn) DO UPDATE SET ...] with
    every other column taken from the new row. *)
Fixpoint upsert (new : Row) (table : list Row) : list Row :=
  match table with
  | [] => [new]
  | r :: table' =>
      if decide (index r = index new) then new :: table' else r :: upsert new table'
  end.

(** The loop of [SaveKeys] inside the transaction: the table as the
    transaction sees it, or the error of the first statement that fails. *)
Fixpoint exec_all (appID : string) (conn : SaveConn)
    (entries : list (string * DomainKey)) (tx : list Row) : result (list Row) :=
  match entries with
  | [] => Ok tx
  | e :: entries' =>
      match exec_err conn e.2 with
      | Some err => Err err
      | None => exec_all appID conn entries' (upsert (toRow appID e.2) tx)
      end
  end.

(** [SaveKeys(keys)]: the table afterwards and the error.  A
    transaction that is rolled back, or whose [Commit] fails, leaves the
    table as it was. *)
Definition SaveKeys (appID : string) (conn : SaveConn) (table : list Row)
    (entries : list (string * DomainKey)) : list Row * option string :=
  match begin_err conn with
  | Some err => (table, Some err)
  | None =>
      match prepare_err conn with
      | Some err => (table, Some err)
      | None =>
          match exec_all appID conn entries table with
          | Err err => (table, Some err)
          | Ok tx =>
              match commit_err conn with
              | Some err => (table, Some err)
              | None => (tx, None)
              end
          end
      end
  end.
End SaveKeys.

(** *** The probes of the PostgreSQL backend *)

Definition maxAge : Z := 10 * Second.

(** The query of both probes runs in the database server; these are the
    rows of [SELECT ... FROM domain_keys WHERE app_id = $1 AND key <> ''],
    which the server returns in an order of its choice. *)
Definition probe_rows (table : list Row) (appID : string) : list Row :=
  filter (λ r, app_id r = appID ∧ key r ≠ "") table.

Section Probes.
Variable Quote : string → string.
Variable Duration_String : Z → string.
(** The error of [rows.Scan] on a row, if any. *)
Variable scan : Row → option string.

(** One turn of the loop of [ProbeLiveness] over [(errs, freshKeys)]. *)
Definition ProbeLiveness_step (now : Z) (st : list string * nat) (r : Row)
    : list string * nat :=
  match scan r with
  | Some err => (append st.1 ("failed to scan row: " ++ err), st.2)
  | None =>
      if decide (key r = "")
      then (append st.1
              ("empty key for fqdn=" ++ Quote (fqdn r) ++ " domain="
               ++ Quote (domain_name r) ++ " file=" ++ Quote (file r)),
            st.2)
      else if decide (default "" (last_error r) ≠ "")
      then (append st.1
              ("key for " ++ fqdn r ++ " (" ++ domain_name r ++ ") has last_error: "
               ++ default "" (last_error r)),
            st.2)
      else
        match date r with
        | None =>
            (append st.1
               ("missing date for key " ++ fqdn r ++ " (" ++ domain_name r ++ ")"),
             st.2)
        | Some d =>
            let age := time_Sub now d in
            if decide (maxAge ≤ age)
            then (append st.1
                    ("key for " ++ fqdn r ++ " (" ++ domain_name r
                     ++ ") appears stale (age=" ++ Duration_String age ++ " >= "
                     ++ Duration_String maxAge ++ ")"),
                  st.2)
            else (st.1, S st.2)
        end
  end.

(** The handler of [ProbeLiveness]; [rows] is what [QueryContext]
    returns and [rows_err] what [rows.Err()] returns after the loop. *)
Definition ProbeLiveness (rows : result (list Row)) (rows_err : option string)
    (now : Z) : http.Response :=
  http.probeResponse
    match rows with
    | Err err => ["failed to query postgres: " ++ err]
    | Ok rs =>
        let '(errs, freshKeys) := foldl (ProbeLiveness_step now) ([], 0%nat) rs in
        match rows_err with
        | Some err => append errs ("rows error: " ++ err)
        | None =>
            if decide (freshKeys = 0)%nat
            then append errs "no fresh keys found in postgres"
            else errs
        end
    end.

(** One turn of the loop of [ProbeReadiness] over [(errs, validKeys)]. *)
Definition ProbeReadiness_step (st : list string * nat) (r : Row) : list string * nat :=
  match scan r with
  | Some err => (append st.1 ("failed to scan row: " ++ err), st.2)
  | None =>
      if decide (key r = "")
      then (append st.1
              ("empty key for fqdn=" ++ Quote (fqdn r) ++ " domain="
               ++ Quote (domain_name r) ++ " file=" ++ Quote (file r)),
            st.2)
      else
        match date r with
        | None =>
            (append st.1 ("missing date for fqdn=" ++ fqdn r ++ " file=" ++ file r),
             st.2)
        | Some _ => (st.1, S st.2)
        end
  end.

Definition ProbeReadiness (rows : result (list Row)) (rows_err : option string)
    : http.Response :=
  http.probeResponse
    match rows with
    | Err err => ["failed to query postgres: " ++ err]
    | Ok rs =>
        let '(errs, validKeys) := foldl ProbeReadiness_step ([], 0%nat) rs in
        match rows_err with
        | Some err => append errs ("rows error: " ++ err)
        | None =>
            if decide (validKeys = 0)%nat
            then append errs "no valid keys found in postgres"
            else errs
        end
    end.

(** A row the readiness probe counts, and one the liveness probe counts
    at the time [now]. *)
Definition valid_row (r : Row) : Prop :=
  scan r = None ∧ key r ≠ "" ∧ date r ≠ None.

Definition fresh_row (now : Z) (r : Row) : Prop :=
  scan r = None ∧ key r ≠ "" ∧ default "" (last_error r) = "" ∧
  match date r with Some d => now - d < maxAge | None => False end.
End Probes.

#[global] Instance valid_row_dec scan r : Decision (valid_row scan r).
Proof. unfold valid_row. apply _. Defined.

#[global] Instance fresh_row_dec scan now r : Decision (fresh_row scan now r).
Proof. unfold fresh_row. destruct (date r); apply _. Defined.

End postgres.

(** ** internal/metrics *)

Module metrics.

(** The two [sync.Map]s.  A count is a [float64] that holds an integer:
    adding [1.0] is exact below [2^53] and leaves [2^53] as it is. *)
Record Collector : Type := mkCollector {
  errors : gmap string Z;
  expires : gmap (string * string) Z;
}.

Definition NewCollector : Collector := mkCollector ∅ ∅.

Definition float64_add1 (v : Z) : Z := if decide (v < 2 ^ 53) then v + 1 else v.

(** [float64(x)] of an [int64]: the nearest double, ties to even. *)
Definition float64_of_int64 (x : Z) : Z :=
  let a := Z.abs x in
  let e := Z.log2 a in
  if decide (e ≤ 52) then x
  else
    let q := 2 ^ (e - 52) in
    let d := a / q in
    let r := a mod q in
    let d' := if decide (2 * r < q) then d
              else if decide (q < 2 * r) then d + 1
              else if Z.even d then d else d + 1 in
    Z.sgn x * (d' * q).

Inductive Metric : Type :=
  | ssl_pinning_errors (file : string) (val : Z)
  | ssl_pinning_expire (key fqdn : string) (expire : Z).

#[global] Instance Metric_eq_dec : EqDecision Metric.
Proof. solve_decision. Defined.

Definition IncError (c : Collector) (file : string) : Collector :=
  let stored := match errors c !! file with
                | Some _ => errors c
                | None => <[file := 0]> (errors c)
                end in
  let val := default 0 (stored !! file) in
  mkCollector (<[file := float64_add1 val]> stored) (expires c).

Definition ClearError (c : Collector) (file : string) : Collector :=
  mkCollector (<[file := 0]> (errors c)) (expires c).

Definition SetExpire (c : Collector) (key fqdn : string) (expire : Z) : Collector :=
  mkCollector (errors c) (<[(key, fqdn) := expire]> (expires c)).

Definition ClearExpire (c : Collector) (key fqdn : string) : Collector :=
  mkCollector (errors c) (delete (key, fqdn) (expires c)).

Definition Collect_errors (st : list Metric * Collector) (kv : string * Z)
    : list Metric * Collector :=
  (append st.1 (ssl_pinning_errors kv.1 kv.2), ClearError st.2 kv.1).

Definition Collect_expires (ch : list Metric) (kv : string * string * Z) : list Metric :=
  append ch (ssl_pinning_expire kv.1.1 kv.1.2 kv.2).

(** [Collect(ch)]: what is sent on [ch] and the collector afterwards;
    the two lists are the entries of the maps in the order [Range] visits
    them. *)
Definition Collect (c : Collector) (errs : list (string * Z))
    (exps : list (string * string * Z)) : list Metric * Collector :=
  let '(ch, c') := foldl Collect_errors ([], c) errs in
  (foldl Collect_expires ch exps, c').

(** The calls on a collector, one after the other. *)
Inductive Call : Type :=
  | CallIncError (file : string)
  | CallClearError (file : string)
  | CallSetExpire (key fqdn : string) (expire : Z)
  | CallClearExpire (key fqdn : string)
  | CallCollect (sent : list Metric).

#[global] Instance Call_eq_dec : EqDecision Call.
Proof. solve_decision. Defined.

Inductive step : Collector → Call → Collector → Prop :=
  | step_IncError c file : step c (CallIncError file) (IncError c file)
  | step_ClearError c file : step c (CallClearError file) (ClearError c file)
  | step_SetExpire c key fqdn expire :
      step c (CallSetExpire key fqdn expire) (SetExpire c key fqdn expire)
  | step_ClearExpire c key fqdn :
      step c (CallClearExpire key fqdn) (ClearExpire c key fqdn)
  | step_Collect c errs exps :
      errs ≡ₚ map_to_list (errors c) →
      exps ≡ₚ map_to_list (expires c) →
      step c (CallCollect (Collect c errs exps).1) (Collect c errs exps).2.

Inductive steps : Collector → list Call → Collector → Prop :=
  | steps_nil c : steps c [] c
  | steps_cons c1 call c2 calls c3 :
      step c1 call c2 → steps c2 calls c3 → steps c1 (call :: calls) c3.

(** The number of [IncError(file)] among the calls. *)
Definition increments (file : string) (calls : list Call) : nat :=
  length (filter (λ call, call = CallIncError file) calls).

Definition is_Collect (call : Call) : bool :=
  match call with CallCollect _ => true | _ => false end.

(** What the calls leave of the gauge of one series, from what it was:
    the value of the last [SetExpire] of the series, nothing after a
    [ClearExpire] of it. *)
Definition gauge_after (item : string * string) (calls : list Call) (was : option Z)
    : option Z :=
  foldl (λ gauge call,
           match call with
           | CallSetExpire key fqdn expire =>
               if decide ((key, fqdn) = item) then Some expire else gauge
           | CallClearExpire key fqdn =>
               if decide ((key, fqdn) = item) then None else gauge
           | _ => gauge
           end) was calls.

End metrics.

(** ** internal/config *)

Module config.
Import types.

(** The loop of [New] over [config.Keys]: a key without a file gets
    [fqdn.json], a key without a domain name gets [*.fqdn]. *)
Definition defaults (k : DomainKey) : DomainKey :=
  let k := if decide (File k = "") then with_File (Fqdn k ++ ".json") k else k in
  if decide (DomainName k = "")
  then mkDomainKey (AppID k) (Date k) ("*." ++ Fqdn k) (Expire k) (File k) (Fqdn k)
         (Key k) (LastError k)
  else k.

(** [New()] on the keys of the configuration; [unmarshal] is what
    [viper.Unmarshal] leaves in [config.Keys], or its error. *)
Definition New (unmarshal : result (list DomainKey)) : result (list DomainKey) :=
  match unmarshal with
  | Err err => Err ("failed to unmarshal storage config: " ++ err)
  | Ok keys => Ok (defaults <$> keys)
  end.

End config.

(** ** internal/keys *)

Module keys.
Import types.

Record Keys : Type := mkKeys {
  store : gmap string DomainKey;
  collector : metrics.Collector;
}.

(** [Set(key, v)] (named [SetKey]: [Set] is reserved). *)
Definition SetKey (k : Keys) (key : string) (v : DomainKey) : Keys :=
  mkKeys (<[key := v]> (store k)) (collector k).

Definition Get (k : Keys) (key : string) : DomainKey * bool :=
  match store k !! key with
  | Some v => (v, true)
  | None => (zeroDomainKey, false)
  end.

(** One tick of [worker(ctx, key)]: [cur] is [time.Now()] and [fetch]
    what [fetchDomainKey(key.Fqdn)] returns. *)
Definition worker_tick (k : Keys) (key : DomainKey) (cur : Z) (fetch : result DomainKey)
    : Keys :=
  let val := (Get k (Fqdn key)).1 in
  let val := mkDomainKey (AppID val) (Some cur) (DomainName val) (Expire val) (File val)
               (Fqdn val) (Key val) (LastError val) in
  match fetch with
  | Ok res =>
      let val := mkDomainKey (AppID val) (Date val) (DomainName val) (Expire res)
                   (File val) (Fqdn val) (Key res) "" in
      let c := metrics.SetExpire (collector k) (Key res) (Fqdn key)
                 (metrics.float64_of_int64 (Expire res)) in
      SetKey (mkKeys (store k) c) (Fqdn key) val
  | Err err =>
      let val := mkDomainKey (AppID val) (Date val) (DomainName val) (Expire val)
                   (File val) (Fqdn val) (Key val) err in
      let c := metrics.IncError (collector k) (File key) in
      SetKey (mkKeys (store k) c) (Fqdn key) val
  end.

(** [Snapshot()]: a copy of the store, one record per name. *)
Definition Snapshot (k : Keys) : gmap string DomainKey := store k.

(** [AddKey(fqdn, key)] on the registry and on the names that have a
    worker: the record is set, and a worker is started for the name when
    it has none. *)
Definition AddKey (st : Keys * gset string) (fqdn : string) (key : DomainKey)
    : Keys * gset string :=
  let k := SetKey st.1 fqdn key in
  if decide (fqdn ∈ st.2) then (k, st.2) else (k, {[fqdn]} ∪ st.2).

(** The key of the worker that [AddKey(fqdn, key)] starts
    ([go k.worker(ctx, key)]), if it starts one: a name that has a worker
    keeps the worker it has, with the key that worker was started with. *)
Definition AddKey_worker (st : Keys * gset string) (fqdn : string) (key : DomainKey)
    : option DomainKey :=
  if decide (fqdn ∈ st.2) then None else Some key.

(** [NewKeys(ctx, keys, opts...)] with the collector of the options: the
    loop calls [AddKey(key.Fqdn, &key)] on every configured key. *)
Definition NewKeys (keys : list DomainKey) (c : metrics.Collector) : Keys * gset string :=
  foldl (λ st key, AddKey st (Fqdn key) key) (mkKeys ∅ c, ∅) keys.

(** What one worker does at one tick: its key, the time and the result of
    the probe. *)
Record Tick : Type := mkTick {
  tick_key : DomainKey;
  tick_cur : Z;
  tick_fetch : result DomainKey;
}.

(** The ticks of the workers, one after the other.  Every access to the
    store is under the lock of the registry, and between its [Get] and
    its [Set] a worker is alone on the entry of its name: there is one
    worker for each name. *)
Definition run (k : Keys) (ticks : list Tick) : Keys :=
  foldl (λ k t, worker_tick k (tick_key t) (tick_cur t) (tick_fetch t)) k ticks.

(** Every record is stored under its own name. *)
Definition own_fqdn (m : gmap string DomainKey) : Prop :=
  ∀ f r, m !! f = Some r → Fqdn r = f.

(** The fields a tick never touches. *)
Definition same_identity (r r' : DomainKey) : Prop :=
  AppID r' = AppID r ∧ DomainName r' = DomainName r ∧ File r' = File r ∧
  Fqdn r' = Fqdn r.

End keys.

(** ** internal/application *)

Module application.
Import types.

Section App.
Context `{SliceSort}.
Variable MarshalIndent_FileKeys : FileKeys → result string.
Variable MarshalIndent_FileStructure : FileStructure → result string.

(** The two collaborators of the handler: [a.storage.GetByFile] and
    [a.signer.Sign]. *)
Record App : Type := mkApp {
  storage_GetByFile : string → result (list DomainKey * option string);
  signer_Sign : string → result string;
}.

(** [handleFileJSON]; [file] is [r.PathValue("file")].  The response only:
    the three-second [time.Sleep] at the top of the handler and its log
    lines are left out. *)
Definition handleFileJSON (a : App) (file : string) : http.Response :=
  if decide (file = "") then http.Error "file required" http.StatusBadRequest
  else
    match storage_GetByFile a file with
    | Err err => http.Error err http.StatusInternalServerError
    | Ok (keys, data) =>
        let signed :=
          if decide (1 < length keys)%nat then
            SignedKeys MarshalIndent_FileKeys MarshalIndent_FileStructure
              file keys (signer_Sign a)
          else Ok data in
        match signed with
        | Err err => http.Error err http.StatusInternalServerError
        | Ok (Some data) => http.mkResponse http.StatusOK "application/json" data
        | Ok None =>
            http.Error ("file " ++ file ++ " not found") http.StatusNotFound
        end
    end.
End App.

(** The flush function [New] gives to the registry: [store.SaveKeys(keys)],
    whose error is dropped. *)
Definition flushFunc {S : Type}
    (SaveKeys : S → list (string * DomainKey) → S * option string)
    (s : S) (entries : list (string * DomainKey)) : S * option string :=
  ((SaveKeys s entries).1, None).

End application.

(** ** Scenarios: the concrete data the statements below are tried on *)

Module scenarios.
Import types.

(** Three records out of order, with a marshalling that lists the names
    in order. *)
Definition demo_marshal_keys (p : FileKeys) : result string :=
  Ok (http.Join (Fqdn <$> Keys p) ",").

Definition demo_marshal_file (f : FileStructure) : result string :=
  Ok (http.Join (Fqdn <$> Keys (Payload f)) "," ++ "|" ++ Signature f).

Definition demo_records : list DomainKey :=
  [mkDomainKey "" None "" 30 "" "c.test" "k3" "";
   mkDomainKey "" None "" 10 "" "a.test" "k1" "";
   mkDomainKey "" None "" 20 "" "b.test" "k2" ""].

(** The two payloads of scenario 8 of the specification. *)
Definition q : string := String signer.quote EmptyString.

Definition payload_ba : string := "{" ++ q ++ "b" ++ q ++ ":2," ++ q ++ "a" ++ q ++ ":1}".

Definition payload_ab : string :=
  "{" ++ q ++ "a" ++ q ++ ": 1, " ++ q ++ "b" ++ q ++ ": 2}".

(** [%q] on a name that needs no escape. *)
Definition demo_Quote (s : string) : string :=
  String signer.quote (s ++ String signer.quote EmptyString).

(** One record in the memory backend, none elsewhere. *)
Definition one_record : DomainKey :=
  mkDomainKey "" (Some 0) "*.a.test" 1000 "f.json" "a.test" "K1" "".

Definition memory_app : application.App :=
  application.mkApp (memory.GetByFile [("a.test", one_record)]) Ok.

(** The filesystem backend over an empty file, and two records with a
    signer that fails. *)
Definition empty_file_app : application.App :=
  application.mkApp (filesystem.GetByFile (Ok "")) Ok.

Definition failing_signer_app : application.App :=
  application.mkApp (λ _, Ok (demo_records, None)) (λ _, Err "crypto/rsa: message too long").

Definition colliding_a : DomainKey :=
  mkDomainKey "" (Some 0) "*.x.test" 1000 "f.json" "x.test" "K1" "".

Definition colliding_b : DomainKey :=
  mkDomainKey "" (Some 0) "*.x.test" 2000 "f.json" "x.test" "K2" "".

Definition colliding_input : gmap string DomainKey :=
  {[ "a" := colliding_a; "b" := colliding_b ]}.

(** Two failures, then two collections: the first sends 2, the second 0. *)
Definition after_two_errors : metrics.Collector :=
  metrics.IncError (metrics.IncError metrics.NewCollector "f.json") "f.json".

(** A registry with one record, and a tick whose probe times out. *)
Definition registry : keys.Keys :=
  keys.mkKeys {[ "a.test" := mkDomainKey "" (Some 5) "*.a.test" 1000 "f.json" "a.test" "K1" "" ]}
    metrics.NewCollector.

Definition target : DomainKey :=
  mkDomainKey "" None "*.a.test" 0 "f.json" "a.test" "" "".

(** One name added twice, with two files: its worker is started with the
    first record, the registry holds the second. *)
Definition added_first : DomainKey :=
  mkDomainKey "" None "*.a.test" 0 "f.json" "a.test" "" "".

Definition added_second : DomainKey :=
  mkDomainKey "" None "*.a.test" 0 "g.json" "a.test" "" "".

Definition no_keys : keys.Keys * gset string := (keys.mkKeys ∅ metrics.NewCollector, ∅).

Definition added_twice : keys.Keys * gset string :=
  keys.AddKey (keys.AddKey no_keys "a.test" added_first) "a.test" added_second.

(** Scenario 4 of the specification: two rows of one file and one name,
    left by two processes, at expiries 1000 and 2000. *)
Definition rotation_table : list postgres.Row :=
  [postgres.mkRow "app-2" (Some 0) "*.a.test" 2000 "f.json" "a.test" "K2" None;
   postgres.mkRow "app-1" (Some 0) "*.a.test" 1000 "f.json" "a.test" "K1" None;
   postgres.mkRow "app-1" (Some 0) "*.b.test" 500 "f.json" "b.test" "" None].

(** The same in Redis: two hashes of one file and one name. *)
Definition rotation_hash (expire key : string) : gmap string string :=
  list_to_map [("expire", expire); ("fqdn", "a.test"); ("key", key)].

Definition rotation_db : gmap string (gmap string string) :=
  {[ "f.json:a.test:app-1" := rotation_hash "1000" "K1";
     "f.json:a.test:app-2" := rotation_hash "2000" "K2" ]}.

End scenarios.

(** * Properties *)

(** ** [sort.Slice] and [SignedKeys] *)

Module types_facts.
Import types scenarios.

Lemma sink_perm {A} (less : A → A → bool) x r : sink less x r ≡ₚ x :: r.
Proof.
  induction r as [|e r IH]; simpl; [done|].
  destruct (less x e); [|done].
  rewrite IH. apply Permutation_swap.
Qed.

Lemma foldl_sink_perm {A} (less : A → A → bool) l r :
  foldl (λ r x, sink less x r) r l ≡ₚ (l ++ r)%list.
Proof.
  revert r. induction l as [|x l IH]; intros r; simpl; [done|].
  rewrite IH, sink_perm. by rewrite Permutation_middle.
Qed.

Lemma insertionSortLessFunc_perm {A} (less : A → A → bool) l :
  insertionSortLessFunc less l ≡ₚ l.
Proof.
  unfold insertionSortLessFunc.
  rewrite reverse_Permutation, foldl_sink_perm. by rewrite app_nil_r.
Qed.

Section by_key.
Context {A : Type} (key : A → Z).
Let less (a b : A) : bool := bool_decide (key a < key b).
Let desc (a b : A) : Prop := key b ≤ key a.

Lemma sink_desc x r : Sorted desc r → Sorted desc (sink less x r).
Proof.
  induction 1 as [|e r Hr IH Hhd]; simpl.
  - repeat constructor.
  - unfold less at 1. case_bool_decide as Hlt.
    + constructor; [done|].
      destruct Hhd as [|e' r' He']; simpl.
      * constructor. unfold desc. lia.
      * unfold less. case_bool_decide; constructor; unfold desc in *; lia.
    + constructor; [by constructor|]. constructor. unfold desc. lia.
Qed.

Lemma foldl_sink_desc l r :
  Sorted desc r → Sorted desc (foldl (λ r x, sink less x r) r l).
Proof.
  revert r. induction l as [|x l IH]; intros r Hr; simpl; [done|].
  apply IH, sink_desc, Hr.
Qed.

Lemma insertionSortLessFunc_sorted l :
  StronglySorted (λ a b, key a ≤ key b) (insertionSortLessFunc less l).
Proof.
  apply Sorted_StronglySorted.
  - intros a b c; lia.
  - unfold insertionSortLessFunc.
    apply (Sorted_reverse desc), foldl_sink_desc. constructor.
Qed.
End by_key.

(** The insertion sort of package sort meets the contract of [sort.Slice]. *)
#[export] Instance insertion_SliceSort : SliceSort := {|
  sort_Slice := @insertionSortLessFunc;
  sort_Slice_perm := @insertionSortLessFunc_perm;
  sort_Slice_sorted := @insertionSortLessFunc_sorted;
|}.

Section SignedKeys_facts.
Context `{SliceSort}.
Variable MarshalIndent_FileKeys : FileKeys → result string.
Variable MarshalIndent_FileStructure : FileStructure → result string.

#[local] Abbreviation SignedKeys :=
  (SignedKeys MarshalIndent_FileKeys MarshalIndent_FileStructure).

(** C2.  [SignedKeys] of no record returns no payload and no error.  Of
    a non-empty list it never returns "no payload": the list put in the
    payload is a permutation of the records in ascending order of
    [expire], and the bytes returned are exactly the indented JSON of
    the [FileStructure] with that payload and the signature of the
    indented JSON of the payload, whenever the two marshallings and the
    signature succeed. *)
Theorem SignedKeys_payload_sorted_by_expire (file : string)
    (records : list DomainKey) (signer : string → result string) :
  (records = [] → SignedKeys file records signer = Ok None) ∧
  (records ≠ [] →
     let sorted := sort_Slice less_Expire records in
     sorted ≡ₚ records ∧
     StronglySorted (λ a b, Expire a ≤ Expire b) sorted ∧
     SignedKeys file records signer ≠ Ok None ∧
     ∀ out, SignedKeys file records signer = Ok (Some out) ↔
       ∃ payload sig,
         MarshalIndent_FileKeys (mkFileKeys sorted) = Ok payload ∧
         signer payload = Ok sig ∧
         MarshalIndent_FileStructure (mkFileStructure (mkFileKeys sorted) sig)
           = Ok out).
Proof.
  split.
  - intros ->. reflexivity.
  - intros Hne sorted.
    split; [apply sort_Slice_perm|].
    split; [apply (sort_Slice_sorted _ Expire)|].
    unfold types.SignedKeys. fold sorted.
    destruct (decide (length records < 1)%nat) as [Hlen|_].
    { destruct records; [done|simpl in Hlen; lia]. }
    destruct (MarshalIndent_FileKeys (mkFileKeys sorted)) as [payload|e] eqn:Hp.
    2: { split; [done|]. intros out; split; [done|].
         intros (? & ? & ? & _); done. }
    destruct (signer payload) as [sig|e] eqn:Hs.
    2: { split; [done|]. intros out; split; [done|].
         intros (p & s & Hp' & Hs' & _). congruence. }
    destruct (MarshalIndent_FileStructure _) as [res|e] eqn:Hf.
    + split; [done|]. intros out; split.
      * intros [= <-]. eauto.
      * intros (p & s & Hp' & Hs' & Hf'). congruence.
    + split; [done|]. intros out; split; [done|].
      intros (p & s & Hp' & Hs' & Hf'). congruence.
Qed.
End SignedKeys_facts.

Lemma SignedKeys_payload_sorted_by_expire_witness :
  SignedKeys demo_marshal_keys demo_marshal_file "f.json" demo_records Ok
    = Ok (Some "a.test,b.test,c.test|a.test,b.test,c.test")
  ∧ SignedKeys demo_marshal_keys demo_marshal_file "f.json" [] Ok = Ok None.
Proof.
  pose proof (SignedKeys_payload_sorted_by_expire demo_marshal_keys demo_marshal_file
                "f.json" demo_records Ok) as [_ Hsome].
  pose proof (SignedKeys_payload_sorted_by_expire demo_marshal_keys demo_marshal_file
                "f.json" [] Ok) as [Hnone _].
  split; [|exact (Hnone eq_refl)].
  destruct (Hsome ltac:(discriminate)) as (_ & _ & _ & Hout).
  apply Hout. eexists _, _. repeat split; reflexivity.
Defined.

End types_facts.

(** ** The order of member names *)

Module string_order.

Lemma ascii_compare_refl c : Ascii.compare c c = Eq.
Proof. apply N.compare_refl. Qed.

Lemma ascii_compare_lt_trans a b c :
  Ascii.compare a b = Lt → Ascii.compare b c = Lt → Ascii.compare a c = Lt.
Proof. unfold Ascii.compare. rewrite !N.compare_lt_iff. lia. Qed.

Lemma compare_refl s : String.compare s s = Eq.
Proof. induction s as [|c s IH]; simpl; [done|]. by rewrite ascii_compare_refl. Qed.

Lemma compare_eq s1 s2 : String.compare s1 s2 = Eq ↔ s1 = s2.
Proof.
  split; [apply String.compare_eq_iff|]. intros ->. apply compare_refl.
Qed.

Lemma compare_gt_lt s1 s2 : String.compare s1 s2 = Gt ↔ String.compare s2 s1 = Lt.
Proof.
  rewrite (String.compare_antisym s2 s1).
  destruct (String.compare s1 s2); simpl; split; congruence.
Qed.

Lemma compare_lt_trans s1 s2 s3 :
  String.compare s1 s2 = Lt → String.compare s2 s3 = Lt → String.compare s1 s3 = Lt.
Proof.
  revert s2 s3. induction s1 as [|a s1 IH]; intros [|b s2] [|c s3]; simpl; try done.
  destruct (Ascii.compare a b) eqn:Hab; try done;
    destruct (Ascii.compare b c) eqn:Hbc; try done.
  - apply Ascii.compare_eq_iff in Hab as ->. apply Ascii.compare_eq_iff in Hbc as ->.
    rewrite ascii_compare_refl. apply IH.
  - apply Ascii.compare_eq_iff in Hab as ->. by rewrite Hbc.
  - apply Ascii.compare_eq_iff in Hbc as <-. by rewrite Hab.
  - by rewrite (ascii_compare_lt_trans _ _ _ Hab Hbc).
Qed.

Lemma compare_lt_irrefl s : String.compare s s ≠ Lt.
Proof. by rewrite compare_refl. Qed.

(** Every fact the comparisons in the context give about two names. *)
Ltac order_saturate :=
  repeat match goal with
  | H : String.compare ?x ?y = Eq |- _ => apply String.compare_eq_iff in H; subst
  | H : String.compare ?x ?y = Gt |- _ => apply compare_gt_lt in H
  | H : String.compare ?x ?x = Lt |- _ => by destruct (compare_lt_irrefl x)
  | H1 : String.compare ?x ?y = Lt, H2 : String.compare ?y ?z = Lt |- _ =>
      lazymatch goal with
      | _ : String.compare x z = Lt |- _ => fail
      | _ => pose proof (compare_lt_trans _ _ _ H1 H2)
      end
  end.

End string_order.

(** ** The signer *)

Module signer_facts.
Import signer string_order scenarios.

(** Two members can be inserted in either order: the sorted list, or the
    error of a duplicated name, is the same. *)
Lemma insertMember_comm a b l :
  (insertMember a l ≫= insertMember b) = (insertMember b l ≫= insertMember a).
Proof.
  destruct a as [ka ca], b as [kb cb].
  induction l as [|[ke ce] l IH]; simpl.
  - destruct (String.compare kb ka) eqn:Hba, (String.compare ka kb) eqn:Hab;
      try done; order_saturate; try done.
  - destruct (String.compare ka ke) eqn:Hae, (String.compare kb ke) eqn:Hbe; simpl.
    all: try rewrite Hae; try rewrite Hbe; simpl.
    all: try done.
    all: destruct (insertMember (ka, ca) l) as [la|] eqn:Ha,
           (insertMember (kb, cb) l) as [lb|] eqn:Hb; simpl in *;
           rewrite ?Hae, ?Hbe; simpl;
           try lazymatch type of IH with
               | None = _ => rewrite <- IH
               | _ => rewrite IH
               end; simpl.
    all: try done.
    all: destruct (String.compare ka kb) eqn:Hab, (String.compare kb ka) eqn:Hba;
           order_saturate; try done.
Qed.

Lemma canon_JArr items :
  canon (JArr items)
  = cs ← canon_items items; Some (String "["%char (joinComma cs ++ "]")).
Proof. reflexivity. Qed.

Lemma canon_JObj members :
  canon (JObj members)
  = sorted ← foldl canon_member (Some []) members;
    Some (String "{"%char (joinComma (serializeMember <$> sorted) ++ "}")).
Proof. reflexivity. Qed.

Lemma canon_member_comm acc m1 m2 :
  canon_member (canon_member acc m1) m2 = canon_member (canon_member acc m2) m1.
Proof.
  unfold canon_member. destruct acc as [l|]; simpl; [|done].
  destruct (canon m1.2) as [c1|] eqn:H1, (canon m2.2) as [c2|] eqn:H2; simpl.
  - pose proof (insertMember_comm (m1.1, c1) (m2.1, c2) l) as Hc.
    destruct (insertMember (m1.1, c1) l), (insertMember (m2.1, c2) l);
      simpl in *; rewrite ?H1, ?H2; simpl; done.
  - destruct (insertMember (m1.1, c1) l); simpl; by rewrite ?H2.
  - destruct (insertMember (m2.1, c2) l); simpl; by rewrite ?H1.
  - done.
Qed.

Lemma canon_respects_json_eq :
  (∀ v1 v2, json_eq v1 v2 → canon v1 = canon v2) ∧
  (∀ l1 l2, items_eq l1 l2 → canon_items l1 = canon_items l2) ∧
  (∀ ms1 ms2, members_eq ms1 ms2 →
     ∀ acc, foldl canon_member acc ms1 = foldl canon_member acc ms2).
Proof.
  apply json_eq_mutind.
  - done.
  - intros l1 l2 _ IH. by rewrite !canon_JArr, IH.
  - intros ms1 ms2 _ IH. by rewrite !canon_JObj, IH.
  - done.
  - intros v1 v2 l1 l2 _ IHv _ IHl. unfold canon_items in *. simpl.
    by rewrite IHv, IHl.
  - done.
  - intros k v1 v2 ms1 ms2 _ IHv _ IHms acc. simpl.
    rewrite IHms. f_equal. unfold canon_member. simpl. by rewrite IHv.
  - intros m1 m2 ms acc. simpl. by rewrite canon_member_comm.
  - intros ms1 ms2 ms3 _ IH1 _ IH2 acc. by rewrite IH1, IH2.
Qed.

Lemma app_String c (a b : string) : String c a ++ b = String c (a ++ b).
Proof. reflexivity. Qed.

Lemma app_Empty (b : string) : "" ++ b = b.
Proof. reflexivity. Qed.

Lemma skip_ws_app w s : all_ws w = true → skip_ws (w ++ s) = skip_ws s.
Proof.
  induction w as [|c w IH]; simpl; [done|].
  intros [Hc Hw]%andb_prop. rewrite Hc. by apply IH.
Qed.

Lemma skip_ws_all w : all_ws w = true → skip_ws w = "".
Proof.
  induction w as [|c w IH]; simpl; [done|].
  intros [Hc Hw]%andb_prop. rewrite Hc. by apply IH.
Qed.

Lemma skip_ws_char c s : isWhiteSpace c = false → skip_ws (String c s) = String c s.
Proof. intros Hc. simpl. by rewrite Hc. Qed.

Lemma string_app_assoc (a b c : string) : (a ++ b) ++ c = a ++ (b ++ c).
Proof. induction a as [|x a IH]; [done|]. rewrite !app_String. by f_equal. Qed.

Lemma string_app_length (a b : string) :
  String.length (a ++ b) = (String.length a + String.length b)%nat.
Proof. induction a as [|x a IH]; [done|]. rewrite app_String. simpl. by f_equal. Qed.

Lemma isPlain_spec c :
  isPlain c = true →
  (32 ≤ nat_of_ascii c < 128)%nat ∧ c ≠ quote ∧ c ≠ backslash.
Proof.
  unfold isPlain. intros [[Hr Hq]%andb_prop Hb]%andb_prop.
  apply bool_decide_eq_true in Hr.
  apply negb_true_iff, bool_decide_eq_false in Hq.
  apply negb_true_iff, bool_decide_eq_false in Hb. done.
Qed.

Lemma parseQuotedString_plain s rest :
  plain s = true → parseQuotedString (s ++ String quote rest) = Some (s, rest).
Proof.
  induction s as [|c s IH]; simpl.
  - done.
  - intros [Hc Hs]%andb_prop. apply isPlain_spec in Hc as (Hr & Hq & Hb).
    destruct (decide (c = quote)) as [?|_]; [done|].
    destruct (decide _) as [[?|[?|?]]|_]; [lia|lia|done|].
    by rewrite IH.
Qed.

Lemma takeToken_app t rest :
  no_delim t = true → delimits rest → takeToken (t ++ rest) = (t, rest).
Proof.
  induction t as [|c t IH]; simpl.
  - intros _ Hd. destruct rest as [|c r]; [done|]. simpl in *. by rewrite Hd.
  - intros [Hc Ht]%andb_prop Hd. apply negb_true_iff in Hc. rewrite Hc.
    by rewrite IH.
Qed.

Lemma isDelimiter_spec c :
  isDelimiter c = true →
  c = ","%char ∨ c = "]"%char ∨ c = "}"%char ∨
  c = "032"%char ∨ c = "010"%char ∨ c = "013"%char ∨ c = "009"%char.
Proof.
  unfold isDelimiter, isWhiteSpace.
  intros [H|H]%orb_prop; apply bool_decide_eq_true in H; tauto.
Qed.

Lemma isDigit_no_delim c : isDigit c = true → isDelimiter c = false.
Proof.
  intros Hd. apply bool_decide_eq_true in Hd.
  destruct (isDelimiter c) eqn:Hc; [|done].
  apply isDelimiter_spec in Hc as [->|[->|[->|[->|[->|[->| ->]]]]]];
    vm_compute in Hd; lia.
Qed.

Lemma allDigits_no_delim t : allDigits t = true → no_delim t = true.
Proof.
  induction t as [|c t IH]; simpl; [done|].
  intros [Hc Ht]%andb_prop. by rewrite (isDigit_no_delim _ Hc), IH.
Qed.

Lemma isNatLexeme_inv t :
  isNatLexeme t = true →
  ∃ c r, t = String c r ∧ isDigit c = true ∧ allDigits t = true.
Proof.
  destruct t as [|c r]; [done|]. unfold isNatLexeme.
  intros [[Hd _]%andb_prop _]%andb_prop. exists c, r.
  split; [done|]. split; [|done]. simpl in Hd. by apply andb_prop in Hd as [? _].
Qed.

Lemma isDigit_code c : isDigit c = true → (48 ≤ nat_of_ascii c ≤ 57)%nat.
Proof. intros H. by apply bool_decide_eq_true in H. Qed.

Lemma parseSimpleType_nat t rest :
  isNatLexeme t = true → delimits rest →
  parseSimpleType (t ++ rest) = Some (JNum t, rest).
Proof.
  intros Ht Hd. destruct (isNatLexeme_inv t Ht) as (c & r & -> & Hc & Hall).
  unfold parseSimpleType. rewrite takeToken_app by (by apply allDigits_no_delim || done).
  apply isDigit_code in Hc.
  destruct (decide (String c r = "null")) as [[= -> _]|_]; [vm_compute in Hc; lia|].
  destruct (decide (String c r = "true")) as [[= -> _]|_]; [vm_compute in Hc; lia|].
  destruct (decide (String c r = "false")) as [[= -> _]|_]; [vm_compute in Hc; lia|].
  destruct (decide (c = "-"%char)) as [->|_]; [vm_compute in Hc; lia|].
  by rewrite Ht.
Qed.

Lemma parseSimpleType_neg t rest :
  isNatLexeme t = true → delimits rest →
  parseSimpleType (String "-" t ++ rest)
  = Some (JNum (if decide (t = "0") then "0" else String "-" t), rest).
Proof.
  intros Ht Hd. destruct (isNatLexeme_inv t Ht) as (c & r & -> & Hc & Hall).
  unfold parseSimpleType.
  rewrite (takeToken_app (String "-" (String c r))); [|simpl|done].
  2: { apply allDigits_no_delim in Hall. simpl in Hall. by rewrite Hall. }
  destruct (decide (String "-" (String c r) = "null")) as [?|_]; [done|].
  destruct (decide (String "-" (String c r) = "true")) as [?|_]; [done|].
  destruct (decide (String "-" (String c r) = "false")) as [?|_]; [done|].
  rewrite decide_True by done. by rewrite Ht.
Qed.

Lemma parseSimpleType_literal t v rest :
  (t = "null" ∧ v = JNull) ∨ (t = "true" ∧ v = JBool true)
    ∨ (t = "false" ∧ v = JBool false) →
  delimits rest →
  parseSimpleType (t ++ rest) = Some (v, rest).
Proof.
  intros Ht Hd. unfold parseSimpleType.
  destruct Ht as [[-> ->]|[[-> ->]|[-> ->]]];
    rewrite takeToken_app by done; done.
Qed.

Lemma quoted_app k rest : quoted k ++ rest = String quote (k ++ String quote rest).
Proof. unfold quoted. by rewrite app_String, string_app_assoc. Qed.

Lemma isWhiteSpace_delimiter c : isWhiteSpace c = true → isDelimiter c = true.
Proof. intros H. unfold isDelimiter. rewrite H. apply orb_true_r. Qed.

Lemma skip_ws_first c r : isDelimiter c = false → skip_ws (String c r) = String c r.
Proof.
  intros Hc. simpl. destruct (isWhiteSpace c) eqn:Hw; [|done].
  by rewrite (isWhiteSpace_delimiter _ Hw) in Hc.
Qed.

Lemma starts_app s rest : starts s → starts (s ++ rest).
Proof.
  induction s as [|c s IH]; intros (c0 & r & Hs & Hc); [done|].
  rewrite app_String. unfold starts in *. simpl in *.
  destruct (isWhiteSpace c).
  - apply IH. by exists c0, r.
  - injection Hs as <- <-. by exists c, (s ++ rest).
Qed.

Lemma text_starts :
  (∀ v s, text v s → starts s) ∧
  (∀ next l s, arr_text next l s → True) ∧
  (∀ next ms s, obj_text next ms s → True).
Proof.
  apply text_mutind; try done.
  - intros w v s Hw _ (c & r & Hs & Hc). exists c, r. by rewrite skip_ws_app.
  - by eexists _, _.
  - by eexists _, _.
  - by eexists _, _.
  - intros t (c & r & -> & Hc & _)%isNatLexeme_inv. exists c, r.
    split; [|by apply isDigit_no_delim]. by apply skip_ws_first, isDigit_no_delim.
  - intros. by eexists _, _.
  - by eexists _, _.
  - intros. by eexists _, _.
  - intros. by eexists _, _.
  - intros. by eexists _, _.
Qed.

Lemma delimits_ws_app w (c : ascii) rest :
  all_ws w = true → isDelimiter c = true → delimits (w ++ String c rest).
Proof.
  destruct w as [|c0 w]; simpl; [done|].
  intros [H _]%andb_prop _. by apply isWhiteSpace_delimiter.
Qed.

Lemma arr_text_true_delimits l s rest : arr_text true l s → delimits (s ++ rest).
Proof.
  inversion 1; subst; rewrite string_app_assoc, ?app_String;
    by apply delimits_ws_app.
Qed.

Lemma obj_text_true_delimits ms s rest : obj_text true ms s → delimits (s ++ rest).
Proof.
  inversion 1; subst; rewrite string_app_assoc, ?app_String;
    by apply delimits_ws_app.
Qed.

Lemma parseElement_ws n w s :
  all_ws w = true → parseElement n (w ++ s) = parseElement n s.
Proof. intros Hw. destruct n; simpl; [done|]. by rewrite skip_ws_app. Qed.

Lemma parseElement_simple n c r :
  isDelimiter c = false → c ≠ "{"%char → c ≠ quote → c ≠ "["%char →
  parseElement (S n) (String c r) = parseSimpleType (String c r).
Proof.
  intros Hd H1 H2 H3. simpl.
  destruct (isWhiteSpace c) eqn:Hw.
  { by rewrite (isWhiteSpace_delimiter _ Hw) in Hd. }
  rewrite !decide_False by done. done.
Qed.

Lemma scanFor_ws w c rest :
  all_ws w = true → isWhiteSpace c = false → scanFor c (w ++ String c rest) = Some rest.
Proof.
  intros Hw Hc. unfold scanFor. rewrite skip_ws_app by done. simpl. rewrite Hc.
  by rewrite decide_True.
Qed.

Lemma parseArray_close n next w rest :
  all_ws w = true → parseArray (S n) next (w ++ String "]" rest) = Some ([], rest).
Proof. intros Hw. simpl. rewrite skip_ws_app by done. done. Qed.

Lemma parseArray_first n s :
  starts s →
  parseArray (S n) false s
  = '(v, s2) ← parseElement n s; '(vs, s3) ← parseArray n true s2; Some (v :: vs, s3).
Proof.
  intros (c & r & Hs & Hc). simpl. rewrite Hs.
  destruct (decide (c = "]"%char)) as [->|_]; [done|]. done.
Qed.

Lemma parseArray_more n w s :
  all_ws w = true →
  parseArray (S n) true (w ++ String "," s)
  = '(v, s2) ← parseElement n s; '(vs, s3) ← parseArray n true s2; Some (v :: vs, s3).
Proof.
  intros Hw. simpl. rewrite skip_ws_app by done. simpl.
  by rewrite scanFor_ws.
Qed.

Lemma parseObject_close n next w rest :
  all_ws w = true → parseObject (S n) next (w ++ String "}" rest) = Some ([], rest).
Proof. intros Hw. simpl. rewrite skip_ws_app by done. done. Qed.

Lemma parseObject_first n w1 k w2 s :
  all_ws w1 = true → plain k = true → all_ws w2 = true →
  parseObject (S n) false (w1 ++ quoted k ++ w2 ++ String ":" s)
  = '(v, s5) ← parseElement n s; '(ms, s6) ← parseObject n true s5;
    Some ((k, v) :: ms, s6).
Proof.
  intros H1 Hk H2. rewrite quoted_app. simpl. rewrite skip_ws_app by done. simpl.
  rewrite scanFor_ws by done. simpl.
  rewrite parseQuotedString_plain by done. simpl.
  by rewrite scanFor_ws.
Qed.

Lemma parseObject_more n w0 w1 k w2 s :
  all_ws w0 = true → all_ws w1 = true → plain k = true → all_ws w2 = true →
  parseObject (S n) true (w0 ++ String "," (w1 ++ quoted k ++ w2 ++ String ":" s))
  = '(v, s5) ← parseElement n s; '(ms, s6) ← parseObject n true s5;
    Some ((k, v) :: ms, s6).
Proof.
  intros H0 H1 Hk H2. rewrite quoted_app. simpl. rewrite skip_ws_app by done. simpl.
  rewrite scanFor_ws by done. simpl. rewrite scanFor_ws by done. simpl.
  rewrite parseQuotedString_plain by done. simpl.
  by rewrite scanFor_ws.
Qed.

Lemma need_JArr l : need (JArr l) = S (need_arr l).
Proof. reflexivity. Qed.
Lemma need_JObj ms : need (JObj ms) = S (need_obj ms).
Proof. reflexivity. Qed.
Lemma need_arr_cons v l : need_arr (v :: l) = S (Nat.max (need v) (need_arr l)).
Proof. reflexivity. Qed.
Lemma need_obj_cons k v ms :
  need_obj ((k, v) :: ms) = S (Nat.max (need v) (need_obj ms)).
Proof. reflexivity. Qed.

(** The parser reads back every text, given the calls it needs. *)
Lemma parse_text_steps :
  (∀ v s, text v s → ∀ rest n, delimits rest → (need v ≤ n)%nat →
     parseElement n (s ++ rest) = Some (v, rest)) ∧
  (∀ next l s, arr_text next l s → ∀ rest n, (need_arr l ≤ n)%nat →
     parseArray n next (s ++ rest) = Some (l, rest)) ∧
  (∀ next ms s, obj_text next ms s → ∀ rest n, (need_obj ms ≤ n)%nat →
     parseObject n next (s ++ rest) = Some (ms, rest)).
Proof.
  apply text_mutind.
  - intros w v s Hw _ IH rest n Hd Hn.
    rewrite string_app_assoc, parseElement_ws by done. by apply IH.
  - intros rest [|n] Hd Hn; [simpl in Hn; lia|].
    rewrite app_String, parseElement_simple by done.
    apply (parseSimpleType_literal "null"); auto.
  - intros rest [|n] Hd Hn; [simpl in Hn; lia|].
    rewrite app_String, parseElement_simple by done.
    apply (parseSimpleType_literal "true"); auto.
  - intros rest [|n] Hd Hn; [simpl in Hn; lia|].
    rewrite app_String, parseElement_simple by done.
    apply (parseSimpleType_literal "false"); auto.
  - intros t Ht rest [|n] Hd Hn; [simpl in Hn; lia|].
    destruct (isNatLexeme_inv t Ht) as (c & r & -> & Hc & _).
    pose proof (isDigit_code _ Hc) as Hcode.
    rewrite app_String, parseElement_simple.
    + rewrite <- app_String. by apply parseSimpleType_nat.
    + by apply isDigit_no_delim.
    + intros ->. vm_compute in Hcode. lia.
    + intros ->. vm_compute in Hcode. lia.
    + intros ->. vm_compute in Hcode. lia.
  - intros t Ht Hz rest [|n] Hd Hn; [simpl in Hn; lia|].
    rewrite app_String, parseElement_simple by done.
    rewrite <- app_String, parseSimpleType_neg by done.
    by rewrite decide_False.
  - intros rest [|n] Hd Hn; [simpl in Hn; lia|].
    rewrite app_String, parseElement_simple by done.
    rewrite <- app_String. by rewrite (parseSimpleType_neg "0").
  - intros k Hk rest [|n] Hd Hn; [simpl in Hn; lia|].
    rewrite quoted_app. simpl. by rewrite parseQuotedString_plain.
  - intros l s _ IH rest [|n] Hd Hn; [simpl in Hn; lia|].
    rewrite need_JArr in Hn. rewrite app_String. simpl.
    rewrite IH by lia. done.
  - intros ms s _ IH rest [|n] Hd Hn; [simpl in Hn; lia|].
    rewrite need_JObj in Hn. rewrite app_String. simpl.
    rewrite IH by lia. done.
  - intros next w Hw rest [|n] Hn; [simpl in Hn; lia|].
    rewrite string_app_assoc. by apply parseArray_close.
  - intros v s l s' Hv IHv Hl IHl rest [|n] Hn; [simpl in Hn; lia|].
    rewrite need_arr_cons in Hn. rewrite string_app_assoc.
    rewrite parseArray_first
      by (apply starts_app, (proj1 text_starts _ _ Hv)).
    rewrite IHv; [|by eapply arr_text_true_delimits|lia]. simpl.
    rewrite IHl by lia. done.
  - intros w v s l s' Hw Hv IHv Hl IHl rest [|n] Hn; [simpl in Hn; lia|].
    rewrite need_arr_cons in Hn. rewrite string_app_assoc, app_String, string_app_assoc.
    rewrite parseArray_more by done.
    rewrite IHv; [|by eapply arr_text_true_delimits|lia]. simpl.
    rewrite IHl by lia. done.
  - intros next w Hw rest [|n] Hn; [simpl in Hn; lia|].
    rewrite string_app_assoc. by apply parseObject_close.
  - intros w1 k w2 v s ms s' H1 Hk H2 Hv IHv Hms IHms rest [|n] Hn;
      [simpl in Hn; lia|].
    rewrite need_obj_cons in Hn.
    rewrite !string_app_assoc, app_String, string_app_assoc.
    rewrite parseObject_first by done.
    rewrite IHv; [|by eapply obj_text_true_delimits|lia]. simpl.
    rewrite IHms by lia. done.
  - intros w0 w1 k w2 v s ms s' H0 H1 Hk H2 Hv IHv Hms IHms rest [|n] Hn;
      [simpl in Hn; lia|].
    rewrite need_obj_cons in Hn.
    rewrite string_app_assoc, app_String, !string_app_assoc, app_String,
      string_app_assoc.
    rewrite parseObject_more by done.
    rewrite IHv; [|by eapply obj_text_true_delimits|lia]. simpl.
    rewrite IHms by lia. done.
Qed.

Lemma need_pos v : (1 ≤ need v)%nat.
Proof. destruct v; simpl; lia. Qed.

Lemma quoted_length k : String.length (quoted k) = S (S (String.length k)).
Proof. unfold quoted. simpl. rewrite string_app_length. simpl. lia. Qed.

(** The calls needed are bounded by the length of the text. *)
Lemma text_need :
  (∀ v s, text v s → (need v ≤ 2 * String.length s)%nat) ∧
  (∀ next l s, arr_text next l s → (need_arr l ≤ 2 * String.length s + 1)%nat) ∧
  (∀ next ms s, obj_text next ms s → (need_obj ms ≤ 2 * String.length s + 1)%nat).
Proof.
  apply text_mutind.
  - intros w v s _ _ IH. rewrite string_app_length. lia.
  - simpl. lia.
  - simpl. lia.
  - simpl. lia.
  - intros t (c & r & -> & _)%isNatLexeme_inv. simpl. lia.
  - intros t _ _. simpl. lia.
  - simpl. lia.
  - intros k _. rewrite quoted_length. simpl. lia.
  - intros l s _ IH. rewrite need_JArr. simpl. lia.
  - intros ms s _ IH. rewrite need_JObj. simpl. lia.
  - intros next w _. simpl. lia.
  - intros v s l s' _ IHv _ IHl. rewrite need_arr_cons, string_app_length.
    pose proof (need_pos v). lia.
  - intros w v s l s' _ _ IHv _ IHl.
    rewrite need_arr_cons, !string_app_length. simpl. rewrite string_app_length.
    pose proof (need_pos v). lia.
  - intros next w _. simpl. lia.
  - intros w1 k w2 v s ms s' _ _ _ _ IHv _ IHms.
    rewrite need_obj_cons. repeat (rewrite ?string_app_length; simpl).
    pose proof (need_pos v). lia.
  - intros w0 w1 k w2 v s ms s' _ _ _ _ _ IHv _ IHms.
    rewrite need_obj_cons. repeat (rewrite ?string_app_length; simpl).
    pose proof (need_pos v). lia.
Qed.

Lemma text_bracket :
  (∀ v s, text v s → ∀ rest,
     match v with
     | JArr _ => ∃ r, skip_ws (s ++ rest) = String "[" r
     | JObj _ => ∃ r, skip_ws (s ++ rest) = String "{" r
     | _ => True
     end) ∧
  (∀ next l s, arr_text next l s → True) ∧
  (∀ next ms s, obj_text next ms s → True).
Proof.
  apply text_mutind; try done.
  - intros w v s Hw _ IH rest. specialize (IH rest).
    rewrite string_app_assoc, skip_ws_app by done. done.
  - intros l s _ _ rest. by eexists.
  - intros ms s _ _ rest. by eexists.
Qed.

Lemma delimits_ws w : all_ws w = true → delimits w.
Proof.
  destruct w as [|c w]; simpl; [done|].
  intros [H _]%andb_prop. by apply isWhiteSpace_delimiter.
Qed.

(** The parser accepts every document and returns its value: the
    bound on nested calls that [parse] takes from the length is enough,
    and white space between the tokens changes nothing. *)
Theorem parse_document v data : document v data → parse data = Some v.
Proof.
  intros (s & w & -> & Htext & Hw & Hv). unfold parse.
  assert (∃ c r, skip_ws (s ++ w) = String c r ∧ (c = "["%char ∨ c = "{"%char))
    as (c & r & -> & Hc).
  { pose proof (proj1 text_bracket _ _ Htext w) as Hb.
    destruct v; try done; destruct Hb as [r ->]; eauto. }
  rewrite decide_True by done.
  rewrite (proj1 parse_text_steps _ _ Htext).
  - simpl. by rewrite skip_ws_all, decide_True.
  - by apply delimits_ws.
  - pose proof (proj1 text_need _ _ Htext). rewrite string_app_length. lia.
Qed.

Lemma Transform_payload_equiv p1 p2 :
  payload_equiv p1 p2 → Transform p1 = Transform p2.
Proof.
  intros (v1 & v2 & H1 & H2 & Heq). unfold Transform.
  rewrite (parse_document _ _ H1), (parse_document _ _ H2). simpl.
  by rewrite (proj1 canon_respects_json_eq _ _ Heq).
Qed.

Section Sign_facts.
Context {PrivateKey : Type}.
Variable sha512_Sum512 : string → string.
Variable rsa_SignPKCS1v15 : PrivateKey → string → result string.
Variable base64_EncodeToString : string → string.

#[local] Abbreviation Sign :=
  (Sign sha512_Sum512 rsa_SignPKCS1v15 base64_EncodeToString).

End Sign_facts.

Lemma document_payload_ba :
  document (JObj [("b", JNum "2"); ("a", JNum "1")]) payload_ba.
Proof.
  exists payload_ba, "". repeat split; try done.
  apply text_obj.
  apply (obj_first "" "b" "" (JNum "2") "2" _ ("," ++ q ++ "a" ++ q ++ ":1}")); try done.
  { by apply text_nat. }
  apply (obj_more "" "" "a" "" (JNum "1") "1" _ "}"); try done.
  { by apply text_nat. }
  by apply (obj_close true "").
Qed.

Lemma document_payload_ab :
  document (JObj [("a", JNum "1"); ("b", JNum "2")]) payload_ab.
Proof.
  exists payload_ab, "". repeat split; try done.
  apply text_obj.
  apply (obj_first "" "a" "" (JNum "1") " 1" _ (", " ++ q ++ "b" ++ q ++ ": 2}"));
    try done.
  { apply (text_ws " "); [done|]. by apply text_nat. }
  apply (obj_more "" " " "b" "" (JNum "2") " 2" _ "}"); try done.
  { apply (text_ws " "); [done|]. by apply text_nat. }
  by apply (obj_close true "").
Qed.

Lemma payloads_equiv : payload_equiv payload_ba payload_ab.
Proof.
  exists (JObj [("b", JNum "2"); ("a", JNum "1")]), (JObj [("a", JNum "1"); ("b", JNum "2")]).
  split; [apply document_payload_ba|]. split; [apply document_payload_ab|].
  apply je_obj, me_swap.
Qed.


Example Transform_payload_ba :
  Transform payload_ba = Ok ("{" ++ q ++ "a" ++ q ++ ":1," ++ q ++ "b" ++ q ++ ":2}").
Proof. vm_compute. reflexivity. Qed.

End signer_facts.

(** ** The manifest handler *)

Module application_facts.
Import types application types_facts scenarios.

Section handler_facts.
Context `{SliceSort}.
Variable MarshalIndent_FileKeys : FileKeys → result string.
Variable MarshalIndent_FileStructure : FileStructure → result string.

#[local] Abbreviation handleFileJSON :=
  (handleFileJSON MarshalIndent_FileKeys MarshalIndent_FileStructure).
#[local] Abbreviation SignedKeys :=
  (SignedKeys MarshalIndent_FileKeys MarshalIndent_FileStructure).

(** C3, as amended.  When [GetByFile] returns exactly one record, the
    handler answers 200 with the raw bytes of the backend when there
    are any, and 404 "file {file} not found" when there are none: one
    record is never signed. *)
Theorem handleFileJSON_single_record (a : App) (file : string)
    (record : DomainKey) (rawBytes : option string) :
  file ≠ "" →
  storage_GetByFile a file = Ok ([record], rawBytes) →
  handleFileJSON a file =
    match rawBytes with
    | Some raw => http.mkResponse http.StatusOK "application/json" raw
    | None => http.Error ("file " ++ file ++ " not found") http.StatusNotFound
    end.
Proof.
  intros Hfile Hget. unfold application.handleFileJSON.
  destruct (decide (file = "")); [done|]. rewrite Hget. simpl.
  by destruct rawBytes.
Qed.

(** C6, as amended.  The answer of the handler is 400 "file required"
    for an empty name; 500 with the message for an error of the
    backend; 500 with the message when more than one record is returned
    and signing them fails; 200 [application/json] with the assembled
    data when it is not nil, be it empty; and 404
    "file {file} not found" when it is nil. *)
Theorem handleFileJSON_responses (a : App) (file : string) :
  (file = "" →
     handleFileJSON a file = http.Error "file required" http.StatusBadRequest) ∧
  (file ≠ "" → ∀ err, storage_GetByFile a file = Err err →
     handleFileJSON a file = http.Error err http.StatusInternalServerError) ∧
  (file ≠ "" → ∀ keys data, storage_GetByFile a file = Ok (keys, data) →
     let assembled :=
       if decide (1 < length keys)%nat
       then SignedKeys file keys (signer_Sign a) else Ok data in
     (∀ err, assembled = Err err →
        handleFileJSON a file = http.Error err http.StatusInternalServerError) ∧
     (∀ bytes, assembled = Ok (Some bytes) →
        handleFileJSON a file
        = http.mkResponse http.StatusOK "application/json" bytes) ∧
     (assembled = Ok None →
        handleFileJSON a file
        = http.Error ("file " ++ file ++ " not found") http.StatusNotFound)).
Proof.
  split; [|split].
  - intros ->. done.
  - intros Hfile err Hget. unfold application.handleFileJSON.
    destruct (decide (file = "")); [done|]. by rewrite Hget.
  - intros Hfile keys data Hget assembled. unfold application.handleFileJSON.
    destruct (decide (file = "")); [done|]. rewrite Hget. simpl. fold assembled.
    split; [|split].
    + by intros err ->.
    + by intros bytes ->.
    + by intros ->.
Qed.
End handler_facts.

(** C3, counterexample.  The memory backend holds one record of
    [f.json] and supplies no raw bytes: the answer is 404, not the signed
    manifest of one record. *)
Lemma handleFileJSON_single_record_not_signed :
  storage_GetByFile memory_app "f.json" = Ok ([with_File "" one_record], None) ∧
  handleFileJSON demo_marshal_keys demo_marshal_file memory_app "f.json"
    = http.Error "file f.json not found" http.StatusNotFound ∧
  http.StatusCode (handleFileJSON demo_marshal_keys demo_marshal_file memory_app "f.json")
    ≠ http.StatusOK.
Proof. repeat split; vm_compute; congruence. Qed.

Lemma handleFileJSON_single_record_witness :
  handleFileJSON demo_marshal_keys demo_marshal_file memory_app "f.json"
    = http.Error "file f.json not found" http.StatusNotFound.
Proof.
  apply (handleFileJSON_single_record demo_marshal_keys demo_marshal_file memory_app
           "f.json" (with_File "" one_record) None); [discriminate|reflexivity].
Defined.

(** C6, counterexample.  The file exists and is empty: the assembled
    data is empty and the answer is 200 with an empty body, not 404.
    Two records whose signature fails: the backend returned no error and
    there is no data, and the answer is 500, not 404. *)
Lemma handleFileJSON_not_found_only_when_nil :
  storage_GetByFile empty_file_app "empty.json" = Ok ([], Some "") ∧
  handleFileJSON demo_marshal_keys demo_marshal_file empty_file_app "empty.json"
    = http.mkResponse http.StatusOK "application/json" "" ∧
  handleFileJSON demo_marshal_keys demo_marshal_file empty_file_app "empty.json"
    ≠ http.Error "file empty.json not found" http.StatusNotFound ∧
  http.StatusCode
    (handleFileJSON demo_marshal_keys demo_marshal_file failing_signer_app "f.json")
    = http.StatusInternalServerError.
Proof. repeat split; vm_compute; congruence. Qed.

Lemma handleFileJSON_responses_witness :
  handleFileJSON demo_marshal_keys demo_marshal_file empty_file_app ""
    = http.Error "file required" http.StatusBadRequest.
Proof.
  apply (handleFileJSON_responses demo_marshal_keys demo_marshal_file empty_file_app "").
  reflexivity.
Defined.

End application_facts.

(** ** The readiness probe of the filesystem backend *)

Module filesystem_facts.
Import filesystem scenarios.

Lemma time_Sub_maxAge now modTime :
  maxAge ≤ time_Sub now modTime ↔ maxAge ≤ now - modTime.
Proof. unfold time_Sub, maxAge, maxDuration, minDuration, Second. lia. Qed.

Section probe_facts.
Variable Quote : string → string.

Lemma ProbeReadiness_step_fresh now errs e :
  fresh now e → ProbeReadiness_step Quote now errs e = errs.
Proof.
  intros (modTime & Hinfo & Hage). unfold ProbeReadiness_step. rewrite Hinfo.
  destruct (decide _) as [Hold|]; [|done].
  apply time_Sub_maxAge in Hold. lia.
Qed.

Lemma ProbeReadiness_all_fresh now entries errs :
  Forall (fresh now) entries →
  foldl (ProbeReadiness_step Quote now) errs entries = errs.
Proof.
  intros Hall. revert errs.
  induction Hall as [|e entries He _ IH]; intros errs; simpl; [done|].
  by rewrite ProbeReadiness_step_fresh, IH.
Qed.

Lemma ProbeReadiness_step_prefix now errs e :
  ∃ more, ProbeReadiness_step Quote now errs e = (errs ++ more)%list.
Proof.
  unfold ProbeReadiness_step, append.
  destruct (Info e); [destruct (decide _)|]; eauto.
  exists []. by rewrite app_nil_r.
Qed.

Lemma ProbeReadiness_foldl_prefix now entries errs :
  ∃ more, foldl (ProbeReadiness_step Quote now) errs entries = (errs ++ more)%list.
Proof.
  revert errs. induction entries as [|e entries IH]; intros errs; simpl.
  - exists []. by rewrite app_nil_r.
  - destruct (ProbeReadiness_step_prefix now errs e) as [m1 ->].
    destruct (IH (errs ++ m1)%list) as [m2 ->].
    exists (m1 ++ m2)%list. by rewrite app_assoc.
Qed.

Lemma Join_cons_nonempty x l sep : x ≠ "" → http.Join (x :: l) sep ≠ "".
Proof. destruct x; [done|]. intros _. destruct l; simpl; done. Qed.

Lemma probeResponse_errs errs :
  errs ≠ [] →
  http.probeResponse errs
  = http.mkResponse http.StatusServiceUnavailable "" (http.Join errs http.newline).
Proof.
  intros Hne. unfold http.probeResponse.
  destruct (decide _) as [|Hlen]; [done|]. destruct errs; [done|simpl in Hlen; lia].
Qed.

(** C4, as amended.  The readiness probe of the filesystem backend
    answers 200 when the dump directory can be read, has at least one
    entry and every entry was modified less than ten seconds ago.  It
    answers 503 with a diagnostic body when the directory cannot be
    read, when it has no entry, and when it has entries that were all
    modified ten seconds ago or earlier. *)
Theorem ProbeReadiness_filesystem (dumpDir : string)
    (readDir : result (list DirEntry)) (now : Z) :
  (∀ entries, readDir = Ok entries → entries ≠ [] →
     Forall (fresh now) entries →
     ProbeReadiness Quote dumpDir readDir now = http.mkResponse http.StatusOK "" "") ∧
  (∀ err, readDir = Err err →
     ProbeReadiness Quote dumpDir readDir now
     = http.mkResponse http.StatusServiceUnavailable ""
         ("failed to read dump dir " ++ Quote dumpDir ++ ": " ++ err)) ∧
  (readDir = Ok [] →
     ProbeReadiness Quote dumpDir readDir now
     = http.mkResponse http.StatusServiceUnavailable "" "no dump files found") ∧
  (∀ entries, readDir = Ok entries → entries ≠ [] →
     Forall (stale now) entries →
     http.StatusCode (ProbeReadiness Quote dumpDir readDir now)
       = http.StatusServiceUnavailable ∧
     http.Body (ProbeReadiness Quote dumpDir readDir now) ≠ "").
Proof.
  unfold ProbeReadiness, ProbeReadiness_errs. split; [|split; [|split]].
  - intros entries -> Hne Hfresh.
    destruct (decide (length entries = 0)%nat) as [Hlen|_].
    { by destruct entries. }
    by rewrite ProbeReadiness_all_fresh.
  - intros err ->. done.
  - intros ->. done.
  - intros entries -> Hne Hstale.
    destruct (decide (length entries = 0)%nat) as [Hlen|_]; [by destruct entries|].
    destruct entries as [|e entries]; [done|]. simpl.
    apply Forall_cons_1 in Hstale as [(modTime & Hinfo & Hage) _].
    assert (ProbeReadiness_step Quote now [] e = ["no dump files newer than 10s"])
      as ->.
    { unfold ProbeReadiness_step. rewrite Hinfo.
      destruct (decide _) as [_|Hyoung]; [done|].
      rewrite time_Sub_maxAge in Hyoung. lia. }
    destruct (ProbeReadiness_foldl_prefix now entries
                ["no dump files newer than 10s"]) as [more ->].
    rewrite probeResponse_errs by done. simpl. split; [done|].
    by apply Join_cons_nonempty.
Qed.
End probe_facts.

(** C4, counterexample.  One manifest file, modified ten seconds before
    the probe: the answer is 503, not 200. *)
Lemma ProbeReadiness_stale_file_unavailable :
  ProbeReadiness demo_Quote "/dump" (Ok [mkDirEntry "a.json" (Ok 0)]) (10 * Second)
    = http.mkResponse http.StatusServiceUnavailable "" "no dump files newer than 10s"
  ∧ http.StatusCode
      (ProbeReadiness demo_Quote "/dump" (Ok [mkDirEntry "a.json" (Ok 0)]) (10 * Second))
    ≠ http.StatusOK.
Proof. split; vm_compute; congruence. Qed.

Lemma ProbeReadiness_filesystem_witness :
  ProbeReadiness demo_Quote "/dump" (Ok [mkDirEntry "a.json" (Ok 0)]) (3 * Second)
    = http.mkResponse http.StatusOK "" "".
Proof.
  apply (ProbeReadiness_filesystem demo_Quote "/dump" (Ok [mkDirEntry "a.json" (Ok 0)])
           (3 * Second)) with (entries := [mkDirEntry "a.json" (Ok 0)]);
    [reflexivity|discriminate|].
  repeat constructor. exists 0. split; [reflexivity|]. vm_compute. reflexivity.
Defined.

End filesystem_facts.

(** ** The memory backend *)

Module memory_facts.
Import types memory scenarios.

Section memory_lemmas.
Variable Quote : string → string.

#[local] Abbreviation step := (SaveKeys_step Quote).

(** What the loop of [SaveKeys] leaves in the map. *)
Lemma SaveKeys_foldl_lookup entries st f r :
  (foldl step st entries).2 !! f = Some r →
  (st.2 !! f = Some r) ∨
  (Fqdn r = f ∧ Key r ≠ "" ∧ ∃ k, (k, r) ∈ entries).
Proof.
  revert st. induction entries as [|[k key] entries IH]; intros st; simpl.
  - auto.
  - intros Hl.
    destruct (IH _ Hl) as [Hst|(? & ? & k' & ?)].
    + unfold SaveKeys_step in Hst. simpl in Hst.
      destruct (decide (Key key = "")) as [He|Hne]; [by left|]. simpl in Hst.
      destruct (decide (Fqdn key = f)) as [<-|Hf].
      * rewrite lookup_insert_eq in Hst. injection Hst as <-.
        right. repeat split; try done. exists k. by left.
      * rewrite lookup_insert_ne in Hst by done. by left.
    + right. repeat split; try done. exists k'. by right.
Qed.

(** A valid record stays under its name when no later valid record
    has that name. *)
Lemma SaveKeys_foldl_keeps entries st r :
  st.2 !! Fqdn r = Some r →
  (∀ k' r', (k', r') ∈ entries → Key r' ≠ "" → Fqdn r' = Fqdn r → r' = r) →
  (foldl step st entries).2 !! Fqdn r = Some r.
Proof.
  revert st. induction entries as [|[k key] entries IH];
    intros st Hl Huniq; simpl; [done|].
  apply IH.
  - unfold SaveKeys_step. simpl.
    destruct (decide (Key key = "")) as [He|Hne]; [done|]. simpl.
    destruct (decide (Fqdn key = Fqdn r)) as [Hf|Hf].
    + rewrite Hf, lookup_insert_eq. f_equal. apply (Huniq k); [by left|done..].
    + by rewrite lookup_insert_ne.
  - intros k' r' Hin. apply (Huniq k'). by right.
Qed.

Lemma SaveKeys_foldl_stores entries st k r :
  (k, r) ∈ entries → Key r ≠ "" →
  (∀ k' r', (k', r') ∈ entries → Key r' ≠ "" → Fqdn r' = Fqdn r → r' = r) →
  (foldl step st entries).2 !! Fqdn r = Some r.
Proof.
  revert st. induction entries as [|[k0 key] entries IH];
    intros st Hin Hkey Huniq; simpl.
  - by apply elem_of_nil in Hin.
  - apply elem_of_cons in Hin as [[= <- <-]|Hin].
    + apply SaveKeys_foldl_keeps.
      * unfold SaveKeys_step. simpl. destruct (decide (Key r = "")); [done|].
        apply lookup_insert_eq.
      * intros k' r' Hin'. apply (Huniq k'). by right.
    + apply IH; [done..|]. intros k' r' Hin'. apply (Huniq k'). by right.
Qed.

(** The errors of the loop: one more for each record without a key. *)
Lemma SaveKeys_foldl_errs entries st :
  length (foldl step st entries).1
  = (length st.1 + length (filter (λ e, Key e.2 = "") entries))%nat.
Proof.
  revert st. induction entries as [|[k key] entries IH]; intros st; simpl.
  - lia.
  - rewrite IH, filter_cons. unfold SaveKeys_step. simpl.
    destruct (decide (Key key = "")); simpl; [|done].
    unfold append. rewrite length_app. simpl. lia.
Qed.

Lemma GetByFile_foldl entries file out :
  foldl (GetByFile_step file) out entries
  = (out ++ (with_File "" <$>
               filter (λ r, File r = file ∧ Key r ≠ "") entries.*2))%list.
Proof.
  revert out. induction entries as [|[k key] entries IH]; intros out; simpl.
  - by rewrite app_nil_r.
  - rewrite IH. unfold GetByFile_step. simpl. rewrite filter_cons.
    destruct (decide (Key key = "")) as [He|Hne].
    + destruct (decide (File key = file ∧ Key key ≠ "")) as [[_ ?]|_]; done.
    + destruct (decide (File key = file)) as [Hf|Hf].
      * destruct (decide (File key = file ∧ Key key ≠ "")) as [_|Hn].
        -- unfold append. by rewrite <- app_assoc.
        -- destruct Hn. done.
      * destruct (decide (File key = file ∧ Key key ≠ "")) as [[? _]|_]; done.
Qed.

Lemma SaveKeys_foldl_is_Some entries st f :
  is_Some (st.2 !! f) → is_Some ((foldl step st entries).2 !! f).
Proof.
  revert st. induction entries as [|[k key] entries IH]; intros st Hs; simpl; [done|].
  apply IH. unfold SaveKeys_step. simpl.
  destruct (decide (Key key = "")); [done|]. simpl.
  rewrite lookup_insert. case_decide; [by eexists|done].
Qed.

Lemma SaveKeys_foldl_present entries st k r :
  (k, r) ∈ entries → Key r ≠ "" →
  is_Some ((foldl step st entries).2 !! Fqdn r).
Proof.
  revert st. induction entries as [|[k0 key] entries IH]; intros st Hin Hkey; simpl.
  - by apply elem_of_nil in Hin.
  - apply elem_of_cons in Hin as [[= <- <-]|Hin]; [|by apply (IH _ Hin)].
    apply SaveKeys_foldl_is_Some. unfold SaveKeys_step. simpl.
    destruct (decide (Key r = "")); [done|]. simpl.
    rewrite lookup_insert_eq. by eexists.
Qed.

Lemma SaveKeys_keys s entries :
  keys (SaveKeys Quote s entries).1 = (foldl step ([], ∅) entries).2.
Proof. unfold SaveKeys. by destruct (foldl step ([], ∅) entries). Qed.

Lemma SaveKeys_err s entries :
  (SaveKeys Quote s entries).2 ≠ None ↔ ∃ e, e ∈ entries ∧ Key e.2 = "".
Proof.
  unfold SaveKeys.
  pose proof (SaveKeys_foldl_errs entries ([], ∅)) as Hlen.
  destruct (foldl step ([], ∅) entries) as [errs list]. simpl in *.
  destruct (decide (0 < length errs)%nat) as [Hpos|Hzero]; split; try done.
  - intros _. destruct (filter (λ e, Key e.2 = "") entries) as [|e l] eqn:Hf.
    { simpl in Hlen. lia. }
    exists e.
    assert (e ∈ filter (λ e, Key e.2 = "") entries) as Hin by (rewrite Hf; by left).
    apply list_elem_of_filter in Hin as [? ?]. done.
  - intros (e & Hin & He).
    assert (e ∈ filter (λ e, Key e.2 = "") entries) as Hin'
      by (by apply list_elem_of_filter).
    destruct (filter (λ e, Key e.2 = "") entries); [by apply elem_of_nil in Hin'|].
    simpl in Hlen. lia.
Qed.

(** C7, as amended.  [SaveKeys] of the memory backend replaces the
    stored map, whatever it was, by a map built from the input alone:
    every stored entry is an input record with a non-empty key, stored
    under its own [fqdn]; every input record with a non-empty key has
    its [fqdn] in the map, and is itself the record stored there when
    no other such record of the input carries the same [fqdn].  An
    error is returned if and only if some input record has an empty
    key, and the valid records are stored all the same.  Afterwards
    [GetByFile(f)] returns, in some order, the stored records whose
    [file] is [f] and whose key is not empty, with [file] cleared, no
    raw bytes and no error. *)
Theorem memory_SaveKeys_GetByFile (s : Storage) (input : gmap string DomainKey)
    (entries : list (string * DomainKey)) :
  entries ≡ₚ map_to_list input →
  let saved := (SaveKeys Quote s entries).1 in
  let err := (SaveKeys Quote s entries).2 in
  (∀ s0, keys (SaveKeys Quote s0 entries).1 = keys saved) ∧
  (∀ f r, keys saved !! f = Some r →
     Fqdn r = f ∧ Key r ≠ "" ∧ ∃ k, input !! k = Some r) ∧
  (∀ k r, input !! k = Some r → Key r ≠ "" →
     is_Some (keys saved !! Fqdn r) ∧
     ((∀ k' r', input !! k' = Some r' → Key r' ≠ "" → Fqdn r' = Fqdn r → r' = r) →
      keys saved !! Fqdn r = Some r)) ∧
  (err ≠ None ↔ ∃ k r, input !! k = Some r ∧ Key r = "") ∧
  (∀ f visit, visit ≡ₚ map_to_list (keys saved) →
     ∃ out, GetByFile visit f = Ok (out, None) ∧
       out ≡ₚ with_File "" <$>
                filter (λ r, File r = f ∧ Key r ≠ "") (map_to_list (keys saved)).*2).
Proof.
  intros Hperm saved err.
  assert (∀ k r, (k, r) ∈ entries ↔ input !! k = Some r) as Hin.
  { intros k r. rewrite Hperm. apply elem_of_map_to_list. }
  subst saved err. split; [|split; [|split; [|split]]].
  - intros s0. by rewrite !SaveKeys_keys.
  - intros f r. rewrite SaveKeys_keys. intros Hl.
    apply SaveKeys_foldl_lookup in Hl as [Hl|(? & ? & k & Hk)]; [done|].
    repeat split; try done. exists k. by apply Hin.
  - intros k r Hk Hkey. apply Hin in Hk. rewrite SaveKeys_keys. split.
    + by apply (SaveKeys_foldl_present _ _ k).
    + intros Huniq. apply (SaveKeys_foldl_stores _ _ k); [done..|].
      intros k' r' Hin'. apply (Huniq k'). by apply Hin.
  - rewrite SaveKeys_err. split.
    + intros ([k r] & Hk & He). exists k, r. split; [by apply Hin|done].
    + intros (k & r & Hk & He). exists (k, r). split; [by apply Hin|done].
  - intros f visit Hvisit. eexists. split; [reflexivity|].
    rewrite GetByFile_foldl. simpl. by rewrite Hvisit.
Qed.
End memory_lemmas.

(** C7, counterexample.  Two records with a key, under two names of the
    input map, carry the same [fqdn]: whichever the loop visits last is
    the only one stored, so the stored records are not exactly the input
    records that have a key, and no error tells. *)
Lemma memory_SaveKeys_fqdn_collision :
  let saved_ab := SaveKeys scenarios.demo_Quote (mkStorage "" ∅)
                    [("a", colliding_a); ("b", colliding_b)] in
  let saved_ba := SaveKeys scenarios.demo_Quote (mkStorage "" ∅)
                    [("b", colliding_b); ("a", colliding_a)] in
  keys saved_ab.1 = {[ "x.test" := colliding_b ]} ∧
  keys saved_ba.1 = {[ "x.test" := colliding_a ]} ∧
  saved_ab.2 = None ∧ saved_ba.2 = None ∧
  ¬ stores_exactly_valid colliding_input (keys saved_ab.1) ∧
  ¬ stores_exactly_valid colliding_input (keys saved_ba.1).
Proof.
  assert (keys (SaveKeys scenarios.demo_Quote (mkStorage "" ∅)
                  [("a", colliding_a); ("b", colliding_b)]).1
          = {[ "x.test" := colliding_b ]}) as Hab by done.
  assert (keys (SaveKeys scenarios.demo_Quote (mkStorage "" ∅)
                  [("b", colliding_b); ("a", colliding_a)]).1
          = {[ "x.test" := colliding_a ]}) as Hba by done.
  intros saved_ab saved_ba. subst saved_ab saved_ba.
  split; [exact Hab|]. split; [exact Hba|]. split; [done|]. split; [done|].
  split.
  - intros Hexact. rewrite Hab in Hexact.
    destruct (proj2 (Hexact colliding_a)) as [f Hf].
    { exists "a". done. }
    apply lookup_singleton_Some in Hf as [_ Hf]. discriminate.
  - intros Hexact. rewrite Hba in Hexact.
    destruct (proj2 (Hexact colliding_b)) as [f Hf].
    { exists "b". done. }
    apply lookup_singleton_Some in Hf as [_ Hf]. discriminate.
Qed.

Lemma memory_SaveKeys_GetByFile_witness :
  keys (SaveKeys scenarios.demo_Quote (mkStorage "" ∅)
          (map_to_list colliding_input)).1 !! "x.test" ≠ None.
Proof.
  pose proof (memory_SaveKeys_GetByFile scenarios.demo_Quote (mkStorage "" ∅)
                colliding_input (map_to_list colliding_input)
                (reflexivity _)) as (_ & _ & Hstored & _).
  destruct (Hstored "a" colliding_a eq_refl ltac:(discriminate)) as [[r Hr] _].
  change (Fqdn colliding_a) with "x.test" in Hr. rewrite Hr. discriminate.
Defined.

End memory_facts.

(** ** The metrics collector *)

Module metrics_facts.
Import metrics scenarios.

Lemma Collect_errors_foldl errs st :
  foldl Collect_errors st errs
  = ((st.1 ++ ((λ kv, ssl_pinning_errors kv.1 kv.2) <$> errs))%list,
     mkCollector (foldl (λ m kv, <[kv.1 := 0]> m) (errors st.2) errs) (expires st.2)).
Proof.
  revert st. induction errs as [|[f v] errs IH]; intros [ch c]; simpl.
  - rewrite app_nil_r. by destruct c.
  - rewrite IH. simpl. unfold append. by rewrite <- app_assoc.
Qed.

Lemma Collect_expires_foldl exps ch :
  foldl Collect_expires ch exps
  = (ch ++ ((λ kv, ssl_pinning_expire kv.1.1 kv.1.2 kv.2) <$> exps))%list.
Proof.
  revert ch. induction exps as [|kv exps IH]; intros ch; simpl.
  - by rewrite app_nil_r.
  - rewrite IH. unfold Collect_expires, append. by rewrite <- app_assoc.
Qed.

Lemma Collect_sent c errs exps :
  (Collect c errs exps).1
  = (((λ kv, ssl_pinning_errors kv.1 kv.2) <$> errs)
       ++ ((λ kv, ssl_pinning_expire kv.1.1 kv.1.2 kv.2) <$> exps))%list.
Proof.
  unfold Collect. rewrite Collect_errors_foldl. simpl.
  by rewrite Collect_expires_foldl.
Qed.

Lemma zero_foldl_lookup (errs : list (string * Z)) (m : gmap string Z) f :
  foldl (λ m kv, <[kv.1 := 0]> m) m errs !! f
  = if decide (f ∈ errs.*1) then Some 0 else m !! f.
Proof.
  revert m. induction errs as [|[g v] errs IH]; intros m; simpl.
  - done.
  - rewrite IH. destruct (decide (f ∈ errs.*1)) as [Hin|Hnin].
    + rewrite decide_True; [done|]. by right.
    + destruct (decide (f = g)) as [->|Hne].
      * rewrite lookup_insert_eq. rewrite decide_True; [done|]. by left.
      * rewrite lookup_insert_ne by done. rewrite decide_False; [done|].
        intros [?|?]%elem_of_cons; done.
Qed.

(** After a collection every count that was there is zero, and no entry
    has gone. *)
Lemma Collect_errors_after c errs exps :
  errs ≡ₚ map_to_list (errors c) →
  errors (Collect c errs exps).2 = (λ _, 0) <$> errors c.
Proof.
  intros Hperm. unfold Collect. rewrite Collect_errors_foldl. simpl.
  apply map_eq. intros f. rewrite zero_foldl_lookup, lookup_fmap.
  destruct (errors c !! f) as [v|] eqn:Hf; simpl.
  - rewrite decide_True; [done|].
    apply list_elem_of_fmap. exists (f, v). split; [done|].
    rewrite Hperm. by apply elem_of_map_to_list.
  - rewrite decide_False; [done|].
    intros ([g v] & -> & Hin)%list_elem_of_fmap. rewrite Hperm in Hin.
    apply elem_of_map_to_list in Hin. simpl in *. congruence.
Qed.

Lemma Collect_sent_errors c errs exps f v :
  errs ≡ₚ map_to_list (errors c) →
  ssl_pinning_errors f v ∈ (Collect c errs exps).1 ↔ errors c !! f = Some v.
Proof.
  intros Hperm. rewrite Collect_sent, elem_of_app, !list_elem_of_fmap. split.
  - intros [([g w] & [= -> ->] & Hin)|(kv & Heq & _)]; [|done].
    rewrite Hperm in Hin. by apply elem_of_map_to_list in Hin.
  - intros Hf. left. exists (f, v). split; [done|].
    rewrite Hperm. by apply elem_of_map_to_list.
Qed.

Lemma IncError_lookup c file f :
  errors (IncError c file) !! f
  = if decide (f = file) then Some (float64_add1 (default 0 (errors c !! file)))
    else errors c !! f.
Proof.
  unfold IncError. simpl. destruct (decide (f = file)) as [->|Hne].
  - rewrite lookup_insert_eq. destruct (errors c !! file) as [v|] eqn:Hf.
    + by rewrite Hf.
    + by rewrite lookup_insert_eq.
  - rewrite lookup_insert_ne by done. destruct (errors c !! file); [done|].
    by rewrite lookup_insert_ne.
Qed.

Lemma step_errors_dom c call c' :
  step c call c' → dom (errors c) ⊆ dom (errors c').
Proof.
  intros Hstep f. rewrite !elem_of_dom. destruct Hstep; try done.
  - rewrite IncError_lookup. case_decide; [by eexists|done].
  - simpl. rewrite lookup_insert. case_decide; [by eexists|done].
  - rewrite Collect_errors_after by done. rewrite lookup_fmap.
    intros [v ->]. by eexists.
Qed.

Lemma steps_errors_dom c calls c' :
  steps c calls c' → dom (errors c) ⊆ dom (errors c').
Proof.
  induction 1 as [|c1 call c2 calls c3 Hstep _ IH]; [done|].
  etrans; [by eapply step_errors_dom|done].
Qed.

Lemma float64_add1_iter (n : nat) :
  Nat.iter n float64_add1 0 = Z.min (Z.of_nat n) (2 ^ 53).
Proof.
  induction n as [|n IH]; [done|].
  rewrite Nat.iter_succ, IH. unfold float64_add1. case_decide; lia.
Qed.

(** Between two collections, without a [ClearError] of the file: the
    count of the file is the number of its increments, added one by
    one to what it was. *)
Lemma steps_count c calls c' file :
  steps c calls c' →
  Forall (λ call, is_Collect call = false ∧ call ≠ CallClearError file) calls →
  default 0 (errors c' !! file)
    = Nat.iter (increments file calls) float64_add1 (default 0 (errors c !! file))
  ∧ (file ∈ dom (errors c') ↔
       file ∈ dom (errors c) ∨ (0 < increments file calls)%nat).
Proof.
  induction 1 as [c|c1 call c2 calls c3 Hstep _ IH]; intros Hall.
  - simpl. split; [done|]. unfold increments. simpl. split; [auto|].
    intros [?|?]; [done|lia].
  - apply Forall_cons_1 in Hall as [[Hnc Hncl] Hall].
    destruct (IH Hall) as [IHv IHd]. rewrite IHv, IHd. clear IH IHv IHd.
    unfold increments. rewrite filter_cons. rewrite !elem_of_dom.
    destruct Hstep; try done.
    + rewrite IncError_lookup.
      destruct (decide (CallIncError file0 = CallIncError file)) as [[= ->]|Hne].
      * rewrite decide_True by done. simpl.
        split; [by rewrite <- Nat.iter_succ_r|].
        split; [intros _; right; lia|]. intros _. left. by eexists.
      * rewrite decide_False by congruence. split; [done|]. done.
    + rewrite decide_False by congruence. simpl.
      rewrite lookup_insert_ne by congruence. done.
Qed.

(** C10.  [ClearError] stores a zero and deletes nothing, and no call
    on the collector removes an entry of the error map, so the set of
    files for which a sample is sent never shrinks: once
    [IncError(file)] has been called, every later collection sends an
    [ssl_pinning_errors] sample of that file.  The value sent is the
    number of [IncError(file)] calls since the previous collection (zero
    when there was none), as long as nothing else cleared the count in
    between and the number does not exceed [2^53], the last integer up to
    which a [float64] counts by one. *)
Theorem errors_sample_emitted_forever (file : string) :
  (∀ c, errors (ClearError c file) !! file = Some 0) ∧
  (∀ c calls c', steps c calls c' → dom (errors c) ⊆ dom (errors c')) ∧
  (∀ c0 calls c1 sent c2,
     steps (IncError c0 file) calls c1 →
     step c1 (CallCollect sent) c2 →
     ∃ v, ssl_pinning_errors file v ∈ sent) ∧
  (∀ c sent0 c' calls c1 sent c2,
     step c (CallCollect sent0) c' →
     steps c' calls c1 →
     Forall (λ call, is_Collect call = false ∧ call ≠ CallClearError file) calls →
     file ∈ dom (errors c1) →
     Z.of_nat (increments file calls) ≤ 2 ^ 53 →
     step c1 (CallCollect sent) c2 →
     ∀ v, ssl_pinning_errors file v ∈ sent ↔ v = Z.of_nat (increments file calls)).
Proof.
  split; [|split; [|split]].
  - intros c. simpl. apply lookup_insert_eq.
  - apply steps_errors_dom.
  - intros c0 calls c1 sent c2 Hsteps Hcollect.
    assert (file ∈ dom (errors c1)) as [v Hv]%elem_of_dom.
    { apply (steps_errors_dom _ _ _ Hsteps), elem_of_dom.
      rewrite IncError_lookup, decide_True by done. by eexists. }
    inversion Hcollect as [| | | |? errs exps Herrs Hexps]; subst.
    exists v. by apply Collect_sent_errors.
  - intros c sent0 c' calls c1 sent c2 Hprev Hsteps Hcalls Hdom Hn Hcollect v.
    inversion Hprev as [| | | |? errs0 exps0 Herrs0 Hexps0]; subst.
    destruct (steps_count _ _ _ file Hsteps Hcalls) as [Hval _].
    rewrite Collect_errors_after in Hval by done. rewrite lookup_fmap in Hval.
    assert (default 0 ((λ _ : Z, 0) <$> errors c !! file) = 0) as Hzero
      by by destruct (errors c !! file).
    rewrite Hzero, float64_add1_iter in Hval.
    apply elem_of_dom in Hdom as [w Hw]. rewrite Hw in Hval. simpl in Hval.
    inversion Hcollect as [| | | |? errs exps Herrs Hexps]; subst.
    rewrite Collect_sent_errors by done. rewrite Hw. split.
    + intros [= <-]. lia.
    + intros ->. f_equal. lia.
Qed.

Example Collect_after_two_errors :
  (Collect after_two_errors (map_to_list (errors after_two_errors)) []).1
    = [ssl_pinning_errors "f.json" 2]
  ∧ (let c := (Collect after_two_errors (map_to_list (errors after_two_errors)) []).2 in
     (Collect c (map_to_list (errors c)) []).1 = [ssl_pinning_errors "f.json" 0]).
Proof. split; vm_compute; reflexivity. Qed.

Lemma errors_sample_emitted_forever_witness :
  ∃ v, ssl_pinning_errors "f.json" v
       ∈ (Collect after_two_errors (map_to_list (errors after_two_errors))
            (map_to_list (expires after_two_errors))).1.
Proof.
  destruct (errors_sample_emitted_forever "f.json") as (_ & _ & Hsent & _).
  eapply (Hsent (IncError NewCollector "f.json") []).
  - apply steps_nil.
  - apply step_Collect; reflexivity.
Defined.

End metrics_facts.

(** ** The probe worker *)

Module keys_facts.
Import types keys scenarios.

(** C8, counterexample.  A name is added twice, first with the file
    [f.json], then with [g.json]: the first [AddKey] starts the worker of
    the name with the first record, the second stores the second record
    and starts no worker.  At a tick whose probe fails the record
    written back has the file [g.json], and it is the count of [f.json],
    the file of the worker's own key, that goes up: the count of the
    record's file is not incremented. *)
Lemma worker_tick_counts_worker_file :
  let after := worker_tick added_twice.1 added_first 7 (Err "i/o timeout") in
  AddKey_worker no_keys "a.test" added_first = Some added_first ∧
  AddKey_worker (AddKey no_keys "a.test" added_first) "a.test" added_second = None ∧
  added_twice = NewKeys [added_first; added_second] metrics.NewCollector ∧
  store after !! "a.test"
    = Some (mkDomainKey "" (Some 7) "*.a.test" 0 "g.json" "a.test" "" "i/o timeout") ∧
  metrics.errors (collector after) !! "g.json" = None ∧
  metrics.errors (collector after) !! "g.json"
    ≠ Some (default 0 (metrics.errors (collector added_twice.1) !! "g.json") + 1) ∧
  metrics.errors (collector after) !! "f.json" = Some 1.
Proof. repeat split; try (vm_compute; reflexivity). vm_compute. discriminate. Qed.

(** C8.  One tick of the worker started with [key].  The record written
    back under [key.Fqdn] is the record the store holds under that name
    (the zero record when it holds none) with [date] set to the time of
    the tick and, when the probe fails, [last_error] set to the message
    of the error and [key], [expire] and every other field as they were;
    the error count of [key.File], the file of the worker's own key, goes
    up by the [float64] increment, which is one more below [2^53]; no
    other count, no gauge and no other registry entry changes.  So the
    count of the record's file goes up when that file is the file of the
    worker's key, and stays as it is when it is another.  When the probe
    succeeds, [key] and [expire] are those of the probe and [last_error]
    is the empty string; the error counts are left as they are. *)
Theorem worker_tick_record (k : Keys) (key : DomainKey) (cur : Z)
    (fetch : result DomainKey) :
  let prior := default zeroDomainKey (store k !! Fqdn key) in
  let after := worker_tick k key cur fetch in
  let count := λ f, default 0 (metrics.errors (collector k) !! f) in
  (∀ err, fetch = Err err →
     store after !! Fqdn key
       = Some (mkDomainKey (AppID prior) (Some cur) (DomainName prior) (Expire prior)
                 (File prior) (Fqdn prior) (Key prior) err) ∧
     metrics.errors (collector after) !! File key
       = Some (metrics.float64_add1 (count (File key))) ∧
     (count (File key) < 2 ^ 53 →
      metrics.errors (collector after) !! File key = Some (count (File key) + 1)) ∧
     (File prior = File key → count (File prior) < 2 ^ 53 →
      metrics.errors (collector after) !! File prior = Some (count (File prior) + 1)) ∧
     (File prior ≠ File key →
      metrics.errors (collector after) !! File prior
      = metrics.errors (collector k) !! File prior) ∧
     (∀ f, f ≠ File key →
        metrics.errors (collector after) !! f = metrics.errors (collector k) !! f) ∧
     metrics.expires (collector after) = metrics.expires (collector k)) ∧
  (∀ res, fetch = Ok res →
     store after !! Fqdn key
       = Some (mkDomainKey (AppID prior) (Some cur) (DomainName prior) (Expire res)
                 (File prior) (Fqdn prior) (Key res) "") ∧
     metrics.errors (collector after) = metrics.errors (collector k)) ∧
  (∀ fqdn, fqdn ≠ Fqdn key → store after !! fqdn = store k !! fqdn).
Proof.
  intros prior after count.
  assert ((Get k (Fqdn key)).1 = prior) as Hget.
  { unfold Get, prior. by destruct (store k !! Fqdn key). }
  assert (∀ f, f ≠ File key →
            metrics.errors (metrics.IncError (collector k) (File key)) !! f
            = metrics.errors (collector k) !! f) as Hframe.
  { intros f Hf. by rewrite metrics_facts.IncError_lookup, decide_False. }
  assert (count (File key) < 2 ^ 53 →
          metrics.errors (metrics.IncError (collector k) (File key)) !! File key
          = Some (count (File key) + 1)) as Hone.
  { intros Hlt. rewrite metrics_facts.IncError_lookup, decide_True by done.
    unfold metrics.float64_add1. by rewrite decide_True. }
  subst after. unfold worker_tick. rewrite Hget.
  split; [|split].
  - intros err ->. unfold SetKey. cbn [store collector].
    rewrite lookup_insert_eq. split; [done|].
    split; [by rewrite metrics_facts.IncError_lookup, decide_True|].
    split; [exact Hone|].
    split; [intros ->; exact Hone|].
    split; [apply Hframe|]. split; [exact Hframe|done].
  - intros res ->. simpl. by rewrite lookup_insert_eq.
  - intros fqdn Hne. destruct fetch; simpl; by rewrite lookup_insert_ne.
Qed.

Example worker_tick_failure :
  let after := worker_tick registry target 7 (Err "i/o timeout") in
  store after !! "a.test"
    = Some (mkDomainKey "" (Some 7) "*.a.test" 1000 "f.json" "a.test" "K1" "i/o timeout")
  ∧ metrics.errors (collector after) !! "f.json" = Some 1.
Proof. split; vm_compute; reflexivity. Qed.

Lemma worker_tick_record_witness :
  store (worker_tick registry target 7 (Err "i/o timeout")) !! "a.test"
    = Some (mkDomainKey "" (Some 7) "*.a.test" 1000 "f.json" "a.test" "K1" "i/o timeout")
  ∧ metrics.errors (collector (worker_tick registry target 7 (Err "i/o timeout")))
      !! "f.json" = Some 1.
Proof.
  destruct (worker_tick_record registry target 7 (Err "i/o timeout")) as (Hfail & _).
  destruct (Hfail "i/o timeout" eq_refl) as (Hrec & _ & _ & Hone & _).
  split; [exact Hrec|]. apply Hone; vm_compute; reflexivity.
Defined.

End keys_facts.

(** ** The Redis backend *)

Module redis_facts.
Import types redis scenarios.

Section save_facts.
Variable formatDate : option Z → string.
Variable formatInt : Z → string.

#[local] Abbreviation SaveKeys := (SaveKeys formatDate formatInt).
#[local] Abbreviation step := (SaveKeys_step formatDate formatInt).

Lemma SaveKeys_foldl_filter appID conn entries st :
  foldl (step appID conn) st entries
  = foldl (step appID conn) st (filter has_key entries).
Proof.
  revert st. induction entries as [|[k key] entries IH]; intros st; simpl; [done|].
  rewrite filter_cons. unfold has_key at 1. simpl.
  destruct (decide (Key key ≠ "")) as [Hk|Hk]; simpl.
  - apply IH.
  - rewrite <- IH. f_equal. unfold SaveKeys_step. simpl.
    destruct (decide (Key key = "")); [done|]. by destruct Hk.
Qed.

Lemma SaveKeys_foldl_failures appID conn entries st :
  length (foldl (step appID conn) st entries).1
  = (length st.1 + length (filter (hset_fails appID conn) entries))%nat.
Proof.
  revert st. induction entries as [|[k key] entries IH]; intros st; simpl; [lia|].
  rewrite IH, filter_cons. unfold SaveKeys_step, hset_fails at 2. simpl.
  destruct (decide (Key key ≠ "" ∧ hset_err conn (hashKey appID key) ≠ None))
    as [[Hk Hfail]|Hok].
  - rewrite decide_False by done.
    destruct (hset_err conn (hashKey appID key)) as [err|]; [|done]. simpl.
    unfold append. rewrite length_app. simpl. lia.
  - destruct (decide (Key key = "")) as [He|Hne]; [done|].
    destruct (hset_err conn (hashKey appID key)) as [err|]; [|done].
    destruct Hok. done.
Qed.

Lemma SaveKeys_foldl_untouched appID conn entries st k :
  (∀ e, e ∈ entries → Key e.2 ≠ "" → hashKey appID e.2 ≠ k) →
  (foldl (step appID conn) st entries).2 !! k = st.2 !! k.
Proof.
  revert st. induction entries as [|[k0 key] entries IH]; intros st Hk; simpl; [done|].
  rewrite IH by (intros e He; apply Hk; by right).
  unfold SaveKeys_step. simpl.
  destruct (decide (Key key = "")) as [He|Hne]; [done|].
  destruct (hset_err conn (hashKey appID key)); [done|]. simpl.
  unfold HSet. rewrite lookup_insert_ne; [done|].
  apply (Hk (k0, key)); [by left|done].
Qed.

(** C9.  [SaveKeys] of the Redis backend does to the keyspace, and
    returns, exactly what it would for the input without its records
    of empty key: they are skipped without a write and without an
    error.  It returns nil if and only if no [HSET] of a record that
    has a key failed, so always on a connection that works; a key of
    the keyspace that is the hash key of no such record is left as it
    was.  The memory backend, on the same input, returns an error as
    soon as one record has an empty key. *)
Theorem redis_SaveKeys_skips_empty_keys (Quote : string → string) (appID : string)
    (conn : Conn) (db : gmap string (gmap string string))
    (entries : list (string * DomainKey)) :
  SaveKeys appID conn db entries = SaveKeys appID conn db (filter has_key entries) ∧
  ((SaveKeys appID conn db entries).2 = None ↔
     ∀ e, e ∈ entries → Key e.2 ≠ "" → hset_err conn (hashKey appID e.2) = None) ∧
  (SaveKeys appID healthy db entries).2 = None ∧
  (∀ k, (∀ e, e ∈ entries → Key e.2 ≠ "" → hashKey appID e.2 ≠ k) →
     (SaveKeys appID conn db entries).1 !! k = db !! k) ∧
  (∀ s, (∃ e, e ∈ entries ∧ Key e.2 = "") →
     (memory.SaveKeys Quote s entries).2 ≠ None).
Proof.
  assert (∀ conn', (SaveKeys appID conn' db entries).2 = None ↔
     ∀ e, e ∈ entries → Key e.2 ≠ "" → hset_err conn' (hashKey appID e.2) = None)
    as Herr.
  { intros conn'. unfold redis.SaveKeys.
    pose proof (SaveKeys_foldl_failures appID conn' entries ([], db)) as Hlen.
    destruct (foldl _ _ entries) as [errs db']. simpl in *.
    destruct (decide (0 < length errs)%nat) as [Hpos|Hzero]; split; try done.
    - intros Hall. destruct (filter (hset_fails appID conn') entries) as [|e l] eqn:Hf.
      { simpl in Hlen. lia. }
      assert (e ∈ filter (hset_fails appID conn') entries) as Hin
        by (rewrite Hf; by left).
      apply list_elem_of_filter in Hin as [[Hk Hfail] Hin].
      destruct Hfail. by apply Hall.
    - intros _ e Hin Hk.
      destruct (hset_err conn' (hashKey appID e.2)) as [err|] eqn:He; [|done].
      assert (e ∈ filter (hset_fails appID conn') entries) as Hin'.
      { apply list_elem_of_filter. split; [|done]. split; [done|]. by rewrite He. }
      destruct (filter (hset_fails appID conn') entries);
        [by apply elem_of_nil in Hin'|]. simpl in Hlen. lia. }
  split; [|split; [|split; [|split]]].
  - unfold redis.SaveKeys. by rewrite SaveKeys_foldl_filter.
  - apply Herr.
  - by apply Herr.
  - intros k Hk. unfold redis.SaveKeys.
    pose proof (SaveKeys_foldl_untouched appID conn entries ([], db) k Hk) as Hu.
    by destruct (foldl _ _ entries).
  - intros s. apply memory_facts.SaveKeys_err.
Qed.
End save_facts.

Lemma pick_foldl_min (ks : list DomainKey) (best : option DomainKey) :
  match foldl pick best ks with
  | Some r =>
      (best = Some r ∨ r ∈ ks) ∧
      (∀ prev, best = Some prev → Expire r ≤ Expire prev) ∧
      (∀ k, k ∈ ks → Expire r ≤ Expire k)
  | None => best = None ∧ ks = []
  end.
Proof.
  revert best. induction ks as [|k ks IH]; intros best; simpl.
  - destruct best as [r|]; [|done]. split; [by left|]. split.
    + by intros prev [= ->].
    + by intros k Hk%elem_of_nil.
  - specialize (IH (pick best k)).
    destruct (foldl pick (pick best k) ks) as [r|].
    2: { destruct IH as [Hn _]. destruct best as [prev|]; simpl in Hn; [|done].
         by destruct (decide (Expire k < Expire prev)). }
    destruct IH as (Hin & Hprev & Hall).
    assert (Expire r ≤ Expire k ∧ ∀ prev, best = Some prev → Expire r ≤ Expire prev)
      as [Hk Hb].
    { destruct best as [prev|]; simpl in *.
      - destruct (decide (Expire k < Expire prev)).
        + specialize (Hprev k eq_refl). split; [done|]. intros ? [= <-]. lia.
        + specialize (Hprev prev eq_refl). split; [lia|]. by intros ? [= <-].
      - split; [by apply Hprev|done]. }
    split; [|split; [done|]].
    + destruct Hin as [Hp|Hin]; [|right; by right].
      destruct best as [prev|]; simpl in Hp.
      * destruct (decide (Expire k < Expire prev)); injection Hp as <-;
          [right; by left|by left].
      * injection Hp as <-. right. by left.
    + intros k' [->|Hk']%elem_of_cons; [done|by apply Hall].
Qed.

Section get_facts.
Variable time_Parse : string → Z.
Variable stringmatch : string → string → bool.

#[local] Abbreviation parseHash := (parseHash time_Parse).
#[local] Abbreviation stored := (stored stringmatch).
#[local] Abbreviation best_step := (best_step time_Parse).
#[local] Abbreviation GetByFile := (GetByFile time_Parse).

Lemma field_empty (data : gmap string string) name :
  size data = 0%nat → field data name = "".
Proof. intros ->%map_size_empty_inv. done. Qed.

Lemma best_step_lookup best cmds g :
  foldl best_step best cmds !! g
  = foldl pick (best !! g) (parseHash <$> filter (eligible g) (replies cmds)).
Proof.
  revert best. induction cmds as [|cmd cmds IH]; intros best; simpl; [done|].
  rewrite IH. clear IH. unfold replies. destruct cmd as [data|err]; simpl; [|done].
  fold (replies cmds). rewrite filter_cons. unfold eligible at 2.
  destruct (decide (size data = 0)%nat) as [Hsz|Hsz].
  { rewrite decide_False; [done|]. intros [Hk _]. by rewrite field_empty in Hk. }
  destruct (decide (field data "key" = "")) as [Hk|Hk].
  { rewrite decide_False; [done|]. by intros [? _]. }
  destruct (decide (field data "fqdn" = g)) as [<-|Hg].
  - rewrite decide_True by done. simpl. f_equal.
    destruct (best !! field data "fqdn") as [prev|] eqn:Hprev; simpl.
    + destruct (decide _); [by rewrite lookup_insert_eq|done].
    + by rewrite lookup_insert_eq.
  - rewrite decide_False by (by intros [_ ?]). f_equal.
    destruct (best !! field data "fqdn") as [prev|] eqn:Hprev.
    + destruct (decide _); [by rewrite lookup_insert_ne|done].
    + by rewrite lookup_insert_ne.
Qed.

Lemma foldl_append_values (l : list (string * DomainKey)) (keys : list DomainKey) :
  foldl (λ keys kv, append keys kv.2) keys l = (keys ++ l.*2)%list.
Proof.
  revert keys. induction l as [|kv l IH]; intros keys; simpl.
  - by rewrite app_nil_r.
  - rewrite IH. unfold append. by rewrite <- app_assoc.
Qed.

Lemma filter_none {A} (P : A → Prop) `{∀ x, Decision (P x)} (l : list A) :
  (∀ x, x ∈ l → ¬ P x) → filter P l = [].
Proof.
  intros Hall. destruct (filter P l) as [|x l'] eqn:Hf; [done|].
  assert (x ∈ filter P l) as [Hx Hin]%list_elem_of_filter by (rewrite Hf; by left).
  by destruct (Hall x Hin).
Qed.

(** The values of a map whose records are stored under their own
    name: one record for each name. *)
Lemma values_by_name (best : gmap string DomainKey) (l : list (string * DomainKey))
    g r :
  l ≡ₚ map_to_list best →
  (∀ g' r', best !! g' = Some r' → Fqdn r' = g') →
  best !! g = Some r →
  filter (λ r', Fqdn r' = g) l.*2 ≡ₚ [r].
Proof.
  intros Hl Hname Hg. rewrite Hl. clear l Hl.
  induction best as [|g' r' best Hnone IH] using map_ind.
  { by rewrite lookup_empty in Hg. }
  rewrite map_to_list_insert by done. rewrite fmap_cons, filter_cons. cbn [snd].
  assert (∀ g'' r'', best !! g'' = Some r'' → Fqdn r'' = g'') as Hname'.
  { intros g'' r'' Hl. apply Hname. rewrite lookup_insert_ne; [done|].
    intros <-. congruence. }
  destruct (decide (g' = g)) as [->|Hne].
  - rewrite lookup_insert_eq in Hg. injection Hg as ->.
    rewrite decide_True by (apply Hname, lookup_insert_eq).
    assert (filter (λ r', Fqdn r' = g) (map_to_list best).*2 = []) as ->; [|done].
    apply filter_none. intros x Hx.
    apply list_elem_of_fmap in Hx as ([g'' r''] & -> & Hin).
    apply elem_of_map_to_list in Hin. simpl. intros Heq.
    apply Hname' in Hin as Hn. congruence.
  - rewrite lookup_insert_ne in Hg by done.
    rewrite decide_False; [by apply IH|].
    intros Heq. apply Hne. rewrite <- Heq. symmetry. apply Hname, lookup_insert_eq.
Qed.

Lemma replies_pipeline_healthy db reply :
  replies (pipeline healthy db reply) = HGetAll db <$> reply.
Proof. induction reply as [|k reply IH]; simpl; [done|]. by f_equal. Qed.

Lemma stored_replies db file reply g data :
  keys_reply stringmatch db (file ++ ":*") reply →
  data ∈ filter (eligible g) (HGetAll db <$> reply) ↔ stored db file g data.
Proof.
  intros Hreply. rewrite list_elem_of_filter, list_elem_of_fmap. split.
  - intros (Hel & k & -> & Hk). rewrite Hreply in Hk.
    apply list_elem_of_filter in Hk as [Hm [h Hh]%elem_of_elements%elem_of_dom].
    exists k. unfold HGetAll in *. rewrite Hh in *. done.
  - intros (k & Hk & Hm & Hel). split; [done|]. exists k.
    split; [unfold HGetAll; by rewrite Hk|].
    rewrite Hreply. apply list_elem_of_filter. split; [done|].
    apply elem_of_elements, elem_of_dom. by eexists.
Qed.

(** The Redis half of C5. *)
Lemma redis_GetByFile_min_expire (db : gmap string (gmap string string))
    (reply : list string) (visit : gmap string DomainKey → list (string * DomainKey))
    (file : string) :
  keys_reply stringmatch db (file ++ ":*") reply →
  (∀ m, visit m ≡ₚ map_to_list m) →
  ∃ recs, GetByFile healthy db reply visit file = Ok (recs, None) ∧
    (∀ r, r ∈ recs → Key r ≠ "") ∧
    (∀ g, (∃ data, stored db file g data) →
       ∃ r, filter (λ r', Fqdn r' = g) recs = [r] ∧
         (∃ data, stored db file g data ∧ r = parseHash data) ∧
         (∀ data, stored db file g data →
            Expire r ≤ ParseInt (field data "expire"))).
Proof.
  intros Hreply Hvisit. unfold redis.GetByFile. simpl.
  destruct (decide (length reply = 0)%nat) as [Hlen|_].
  { eexists. split; [done|]. split; [by intros r Hr%elem_of_nil|].
    intros g (data & Hst). apply (stored_replies _ _ _ _ _ Hreply) in Hst.
    destruct reply; [|done]. by apply elem_of_nil in Hst. }
  set (best := foldl best_step ∅ (pipeline healthy db reply)).
  assert (∀ g, best !! g
            = foldl pick None (parseHash <$> filter (eligible g) (HGetAll db <$> reply)))
    as Hbest.
  { intros g. unfold best.
    by rewrite best_step_lookup, lookup_empty, replies_pipeline_healthy. }
  assert (∀ g r, best !! g = Some r →
            (∃ data, stored db file g data ∧ r = parseHash data) ∧
            (∀ data, stored db file g data →
               Expire r ≤ ParseInt (field data "expire"))) as Hsome.
  { intros g r Hr. rewrite Hbest in Hr.
    pose proof (pick_foldl_min
                  (parseHash <$> filter (eligible g) (HGetAll db <$> reply)) None) as Hmin.
    rewrite Hr in Hmin. destruct Hmin as ([?|Hin] & _ & Hall); [done|]. split.
    - apply list_elem_of_fmap in Hin as (data & -> & Hin).
      exists data. split; [|done]. by apply (stored_replies _ _ _ _ _ Hreply).
    - intros data Hst. apply (Hall (parseHash data)).
      apply list_elem_of_fmap. exists data. split; [done|].
      by apply (stored_replies _ _ _ _ _ Hreply). }
  eexists. split; [reflexivity|]. rewrite foldl_append_values. simpl. split.
  - intros r ([g r'] & -> & Hin)%list_elem_of_fmap. rewrite Hvisit in Hin.
    apply elem_of_map_to_list in Hin.
    destruct (Hsome _ _ Hin) as [(data & (k & _ & _ & Hel & _) & ->) _]. done.
  - intros g (data & Hst).
    destruct (best !! g) as [r|] eqn:Hr.
    + exists r. split; [|by apply Hsome].
      apply Permutation_singleton_r.
      apply (values_by_name best); [apply Hvisit| |done].
      intros g' r' Hr'.
      destruct (Hsome _ _ Hr') as [(data' & (k & _ & _ & _ & Hg) & ->) _]. done.
    + rewrite Hbest in Hr.
      pose proof (pick_foldl_min
                    (parseHash <$> filter (eligible g) (HGetAll db <$> reply)) None)
        as Hmin.
      rewrite Hr in Hmin. destruct Hmin as [_ Hnil].
      apply (stored_replies _ _ _ _ _ Hreply) in Hst.
      apply fmap_nil_inv in Hnil. rewrite Hnil in Hst. by apply elem_of_nil in Hst.
Qed.
End get_facts.

End redis_facts.

(** ** The PostgreSQL backend *)

Module postgres_facts.
Import types postgres string_order scenarios.

#[export] Instance row_le_trans : Transitive row_le.
Proof.
  intros r1 r2 r3 [H12|[E12 L12]] [H23|[E23 L23]]; unfold row_le.
  - left. by eapply compare_lt_trans.
  - left. by rewrite <- E23.
  - left. by rewrite E12.
  - right. split; [congruence|lia].
Qed.

#[export] Instance row_le_total : Total row_le.
Proof.
  intros r1 r2. unfold row_le.
  destruct (String.compare (fqdn r1) (fqdn r2)) eqn:Hc.
  - apply compare_eq in Hc. destruct (decide (expire r1 ≤ expire r2)).
    + left. by right.
    + right. right. split; [done|lia].
  - left. by left.
  - right. left. by apply compare_gt_lt.
Qed.

Lemma row_le_same_fqdn r1 r2 :
  row_le r1 r2 → fqdn r1 = fqdn r2 → expire r1 ≤ expire r2.
Proof.
  intros [Hlt|[_ Hle]] Heq; [|done].
  rewrite Heq, compare_refl in Hlt. done.
Qed.

(** [DISTINCT ON] over rows in the order of [ORDER BY]: one row for each
    name not seen before, the one of least [expire]. *)
Lemma distinct_on_fqdn_spec rows seen :
  StronglySorted row_le rows →
  (∀ r, r ∈ distinct_on_fqdn seen rows →
     r ∈ rows ∧ (fqdn r ∉ seen) ∧
     (∀ r', r' ∈ rows → fqdn r' = fqdn r → expire r ≤ expire r')) ∧
  (∀ r', r' ∈ rows → fqdn r' ∉ seen →
     ∃ r, r ∈ distinct_on_fqdn seen rows ∧ fqdn r = fqdn r') ∧
  NoDup (fqdn <$> distinct_on_fqdn seen rows).
Proof.
  intros Hsorted. revert seen.
  induction Hsorted as [|x rows Hs IH Hx]; intros seen; simpl.
  { split; [by intros r Hr%elem_of_nil|]. split; [by intros r Hr%elem_of_nil|].
    constructor. }
  rewrite Forall_forall in Hx.
  destruct (decide (fqdn x ∈ seen)) as [Hseen|Hnew].
  - destruct (IH seen) as (Ha & Hb & Hc). split; [|split; [|done]].
    + intros r Hr. destruct (Ha r Hr) as (Hin & Hns & Hmin).
      split; [by right|]. split; [done|].
      intros r' [->|Hr']%elem_of_cons Heq; [congruence|by apply Hmin].
    + intros r' [->|Hr']%elem_of_cons Hns; [done|by apply Hb].
  - destruct (IH (fqdn x :: seen)) as (Ha & Hb & Hc). split; [|split].
    + intros r [->|Hr]%elem_of_cons.
      * split; [by left|]. split; [done|].
        intros r' [->|Hr']%elem_of_cons Heq; [done|].
        by apply row_le_same_fqdn; [apply Hx|].
      * destruct (Ha r Hr) as (Hin & Hns & Hmin).
        split; [by right|]. split; [by intros ?; apply Hns; right|].
        intros r' [->|Hr']%elem_of_cons Heq; [|by apply Hmin].
        destruct Hns. rewrite Heq. by left.
    + intros r' [->|Hr']%elem_of_cons Hns.
      * exists x. split; [by left|done].
      * destruct (decide (fqdn r' = fqdn x)) as [Heq|Hne].
        -- exists x. split; [by left|done].
        -- destruct (Hb r' Hr') as (r & Hr & Heq).
           { intros [?|?]%elem_of_cons; done. }
           exists r. split; [by right|done].
    + rewrite fmap_cons. constructor; [|done].
      intros (r & Heq & Hr)%list_elem_of_fmap.
      destruct (Ha r Hr) as (_ & Hns & _). apply Hns. rewrite Heq. by left.
Qed.

Lemma scanRows_healthy rows acc :
  scanRows healthy rows acc
  = Ok (acc ++ (scanRow <$> filter (λ r, key r ≠ "") rows))%list.
Proof.
  revert acc. induction rows as [|r rows IH]; intros acc; simpl.
  - by rewrite app_nil_r.
  - rewrite filter_cons. destruct (decide (key r = "")) as [He|Hne].
    + rewrite decide_False by (intros ?; done). apply IH.
    + rewrite decide_True by done. rewrite IH. unfold append.
      by rewrite <- app_assoc.
Qed.

Lemma filter_all {A} (P : A → Prop) `{∀ x, Decision (P x)} (l : list A) :
  (∀ x, x ∈ l → P x) → filter P l = l.
Proof.
  induction l as [|x l IH]; intros Hall; [done|].
  rewrite filter_cons, decide_True by (apply Hall; by left).
  f_equal. apply IH. intros y Hy. apply Hall. by right.
Qed.

Lemma filter_unique {A B} `{EqDecision B} (f : A → B) (l : list A) x :
  NoDup (f <$> l) → x ∈ l → filter (λ y, f y = f x) l = [x].
Proof.
  induction l as [|a l IH]; intros Hnd Hin; [by apply elem_of_nil in Hin|].
  rewrite fmap_cons in Hnd. apply NoDup_cons in Hnd as [Hna Hnd].
  rewrite filter_cons. apply elem_of_cons in Hin as [->|Hin].
  - rewrite decide_True by done. f_equal.
    apply redis_facts.filter_none. intros y Hy Heq. apply Hna.
    apply list_elem_of_fmap. by exists y.
  - rewrite decide_False; [by apply IH|].
    intros Heq. apply Hna. apply list_elem_of_fmap. by exists x.
Qed.

Lemma filter_fmap {A B} (f : A → B) (P : B → Prop) `{∀ y, Decision (P y)}
    (l : list A) :
  filter P (f <$> l) = f <$> filter (λ x, P (f x)) l.
Proof.
  induction l as [|x l IH]; [done|].
  rewrite fmap_cons, !filter_cons, IH. by destruct (decide (P (f x))).
Qed.

(** The PostgreSQL half of C5. *)
Lemma postgres_GetByFile_min_expire (table : list Row) (f : string) :
  ∃ recs, GetByFile healthy table f = Ok (recs, None) ∧
    (∀ r, r ∈ recs → Key r ≠ "") ∧
    (∀ g, (∃ row, stored table f g row) →
       ∃ r, filter (λ r', Fqdn r' = g) recs = [r] ∧
         (∃ row, stored table f g row ∧ r = scanRow row) ∧
         (∀ row, stored table f g row → Expire r ≤ expire row)).
Proof.
  unfold GetByFile. simpl. rewrite scanRows_healthy. simpl.
  eexists. split; [reflexivity|].
  set (selected := filter (λ r, file r = f ∧ key r ≠ "") table).
  assert (∀ row, row ∈ merge_sort row_le selected ↔
            row ∈ table ∧ file row = f ∧ key row ≠ "") as Hsel.
  { intros row. rewrite merge_sort_Permutation. unfold selected.
    rewrite list_elem_of_filter. tauto. }
  destruct (distinct_on_fqdn_spec (merge_sort row_le selected) []
              (StronglySorted_merge_sort _ _)) as (Ha & Hb & Hc).
  fold (query table f) in Ha, Hb, Hc |- *.
  assert (filter (λ r, key r ≠ "") (query table f) = query table f) as ->.
  { apply filter_all. intros row Hrow. destruct (Ha row Hrow) as (Hin & _).
    apply Hsel in Hin. tauto. }
  split.
  - intros r (row & -> & Hrow)%list_elem_of_fmap.
    destruct (Ha row Hrow) as (Hin & _). apply Hsel in Hin. simpl. tauto.
  - intros g (row' & Hin' & Hf' & Hk' & Hg').
    destruct (Hb row') as (row & Hrow & Heq); [by apply Hsel|by intros ?%elem_of_nil|].
    destruct (Ha row Hrow) as (Hin & _ & Hmin). apply Hsel in Hin as (Hin & Hf & Hk).
    exists (scanRow row). split; [|split].
    + rewrite filter_fmap. simpl.
      rewrite <- Hg', <- Heq. by rewrite (filter_unique fqdn).
    + exists row. split; [|done]. unfold stored. split; [done|]. split; [done|].
      split; [done|]. congruence.
    + intros r (Hr1 & Hr2 & Hr3 & Hr4). simpl. apply Hmin; [by apply Hsel|congruence].
Qed.

End postgres_facts.

(** ** The earliest expiry per name *)

Module storage_facts.
Import types scenarios.


Example postgres_rotation_overlap :
  postgres.GetByFile postgres.healthy rotation_table "f.json"
  = Ok ([mkDomainKey "" (Some 0) "*.a.test" 1000 "" "a.test" "K1" ""], None).
Proof. vm_compute. reflexivity. Qed.

Example redis_rotation_overlap :
  redis.GetByFile (λ _, 0) redis.healthy rotation_db
    ["f.json:a.test:app-2"; "f.json:a.test:app-1"] map_to_list "f.json"
  = Ok ([mkDomainKey "" (Some 0) "" 1000 "" "a.test" "K1" ""], None).
Proof. vm_compute. reflexivity. Qed.


End storage_facts.

(** * Further properties of the code *)

Module manifest_facts.
Import types types_facts scenarios.

(** Two lists in ascending order of an integer key that hold the same
    elements, no two with the same key, are the same list. *)
Lemma sorted_by_key_unique {A} (key : A → Z) (l1 l2 : list A) :
  StronglySorted (λ a b, key a ≤ key b) l1 →
  StronglySorted (λ a b, key a ≤ key b) l2 →
  l1 ≡ₚ l2 → NoDup (key <$> l1) → l1 = l2.
Proof.
  intros H1. revert l2. induction H1 as [|a l1 Hs1 IH Ha]; intros l2 H2 Hp Hnd.
  - by apply Permutation_nil_l in Hp.
  - destruct H2 as [|b l2 Hs2 Hb].
    { by apply Permutation_nil_r in Hp. }
    apply NoDup_cons in Hnd as [Hna Hnd].
    assert (a = b) as <-.
    { assert (a ∈ b :: l2) as Hin by (rewrite <- Hp; left).
      assert (b ∈ a :: l1) as Hin' by (rewrite Hp; left).
      apply elem_of_cons in Hin as [?|Hin]; [done|].
      apply elem_of_cons in Hin' as [?|Hin']; [done|].
      rewrite Forall_forall in Ha, Hb.
      pose proof (Ha _ Hin'). pose proof (Hb _ Hin).
      destruct Hna. assert (key a = key b) as -> by lia.
      by apply list_elem_of_fmap_2. }
    f_equal. apply IH; [done| |done].
    by apply Permutation_cons_inv in Hp.
Qed.

Section order.
Context `{SliceSort}.
Variable MarshalIndent_FileKeys : FileKeys → result string.
Variable MarshalIndent_FileStructure : FileStructure → result string.

#[local] Abbreviation SignedKeys :=
  (SignedKeys MarshalIndent_FileKeys MarshalIndent_FileStructure).

(** X1.  The signed manifest does not depend on the order in which the
    records come (the order of a loop over a Go map): two lists that hold
    the same records, no two with the same expiry, are sorted to the same
    list, and [SignedKeys] returns the same result for both. *)
Theorem SignedKeys_order_independent (file : string) (keys1 keys2 : list DomainKey)
    (signer : string → result string) :
  keys1 ≡ₚ keys2 → NoDup (Expire <$> keys1) →
  sort_Slice less_Expire keys1 = sort_Slice less_Expire keys2 ∧
  SignedKeys file keys1 signer = SignedKeys file keys2 signer.
Proof.
  intros Hp Hnd.
  assert (sort_Slice less_Expire keys1 = sort_Slice less_Expire keys2) as Hs.
  { apply (sorted_by_key_unique Expire).
    - apply (sort_Slice_sorted _ Expire).
    - apply (sort_Slice_sorted _ Expire).
    - by rewrite !sort_Slice_perm.
    - by rewrite sort_Slice_perm. }
  split; [done|]. unfold types.SignedKeys.
  rewrite Hs, (Permutation_length Hp). done.
Qed.
End order.

Lemma SignedKeys_order_independent_witness :
  types.SignedKeys demo_marshal_keys demo_marshal_file "f.json" demo_records Ok
  = types.SignedKeys demo_marshal_keys demo_marshal_file "f.json" (reverse demo_records) Ok.
Proof.
  apply (SignedKeys_order_independent demo_marshal_keys demo_marshal_file "f.json"
           demo_records (reverse demo_records) Ok).
  - symmetry. apply reverse_Permutation.
  - apply (bool_decide_unpack _). vm_compute. exact I.
Defined.

End manifest_facts.

Module config_facts.
Import types config.

Lemma append_nonempty_r (a b : string) : b ≠ "" → a ++ b ≠ "".
Proof. intros Hb. induction a; [done|]. discriminate. Qed.

Lemma defaults_fields k :
  File (defaults k) = (if decide (File k = "") then Fqdn k ++ ".json" else File k) ∧
  DomainName (defaults k)
    = (if decide (DomainName k = "") then "*." ++ Fqdn k else DomainName k) ∧
  AppID (defaults k) = AppID k ∧ Date (defaults k) = Date k ∧
  Expire (defaults k) = Expire k ∧ Fqdn (defaults k) = Fqdn k ∧
  Key (defaults k) = Key k ∧ LastError (defaults k) = LastError k.
Proof.
  unfold defaults.
  destruct (decide (File k = "")) as [Hf|Hf]; cbn [with_File DomainName];
    destruct (decide (DomainName k = "")) as [Hd|Hd]; cbn.
  all: repeat split.
Qed.

Lemma defaults_set k : File (defaults k) ≠ "" ∧ DomainName (defaults k) ≠ "".
Proof.
  destruct (defaults_fields k) as (-> & -> & _). split; case_decide; try done.
  by apply append_nonempty_r.
Qed.

Lemma defaults_fixed k : File k ≠ "" → DomainName k ≠ "" → defaults k = k.
Proof.
  intros Hf Hd. unfold defaults.
  destruct (decide (File k = "")); [done|].
  destruct (decide (DomainName k = "")); done.
Qed.

(** X2.  [config.New] leaves no key without a file or a domain name: the
    keys keep their number, order and every other field; an empty file
    becomes [fqdn.json] and an empty domain name [*.fqdn]; a value that
    was set is kept; and the keys it returns are left as they are when
    they pass through it again. *)
Theorem New_fills_file_and_domain (keys : list DomainKey) :
  ∃ out, New (Ok keys) = Ok out ∧
    length out = length keys ∧
    (∀ i k, keys !! i = Some k →
       ∃ k', out !! i = Some k' ∧
         File k' ≠ "" ∧ DomainName k' ≠ "" ∧
         File k' = (if decide (File k = "") then Fqdn k ++ ".json" else File k) ∧
         DomainName k'
           = (if decide (DomainName k = "") then "*." ++ Fqdn k else DomainName k) ∧
         Fqdn k' = Fqdn k ∧ Key k' = Key k ∧ Expire k' = Expire k ∧
         Date k' = Date k ∧ LastError k' = LastError k ∧ AppID k' = AppID k) ∧
    New (Ok out) = Ok out.
Proof.
  exists (defaults <$> keys). split; [done|]. split; [by rewrite length_fmap|]. split.
  - intros i k Hk. exists (defaults k). rewrite list_lookup_fmap, Hk.
    split; [done|].
    destruct (defaults_set k) as [? ?], (defaults_fields k) as (?&?&?&?&?&?&?&?).
    repeat split; done.
  - simpl. f_equal. rewrite <- list_fmap_compose. 
    apply list_eq. intros i. rewrite !list_lookup_fmap.
    destruct (keys !! i) as [k|]; [|done]. simpl. f_equal.
    destruct (defaults_set k). by apply defaults_fixed.
Qed.

End config_facts.

Module registry_facts.
Import types keys scenarios.

Lemma AddKey_store st fqdn key :
  store (AddKey st fqdn key).1 = <[fqdn := key]> (store st.1).
Proof. unfold AddKey. by case_decide. Qed.

Lemma AddKey_collector st fqdn key :
  collector (AddKey st fqdn key).1 = collector st.1.
Proof. unfold AddKey. by case_decide. Qed.

Lemma AddKey_workers st fqdn key : (AddKey st fqdn key).2 = {[fqdn]} ∪ st.2.
Proof. unfold AddKey. destruct (decide _); simpl; set_solver. Qed.

Lemma NewKeys_foldl keys st f :
  store (foldl (λ st key, AddKey st (Fqdn key) key) st keys).1 !! f
  = match last (filter (λ r, Fqdn r = f) keys) with
    | Some r => Some r
    | None => store st.1 !! f
    end.
Proof.
  revert st. induction keys as [|key keys IH]; intros st; simpl; [done|].
  rewrite IH, AddKey_store, filter_cons.
  destruct (decide (Fqdn key = f)) as [<-|Hne].
  - rewrite lookup_insert_eq, last_cons. by destruct (last _).
  - by rewrite lookup_insert_ne.
Qed.

Lemma NewKeys_foldl_workers keys st :
  (foldl (λ st key, AddKey st (Fqdn key) key) st keys).2
  = list_to_set (Fqdn <$> keys) ∪ st.2.
Proof.
  revert st. induction keys as [|key keys IH]; intros st; simpl.
  - set_solver.
  - rewrite IH, AddKey_workers. set_solver.
Qed.

(** X3.  [NewKeys] keeps one record for each name of the configuration, the
    last one listed with that name, under that name; the names that have
    a worker are the names of the store. *)
Theorem NewKeys_last_of_each_name (keys : list DomainKey) (c : metrics.Collector) :
  let registry := (NewKeys keys c).1 in
  let workers := (NewKeys keys c).2 in
  (∀ f, store registry !! f = last (filter (λ r, Fqdn r = f) keys)) ∧
  own_fqdn (store registry) ∧
  dom (store registry) = workers ∧
  workers = list_to_set (Fqdn <$> keys).
Proof.
  intros registry workers. subst registry workers. unfold NewKeys.
  assert (∀ f, store (foldl (λ st key, AddKey st (Fqdn key) key)
                        (mkKeys ∅ c, ∅) keys).1 !! f
               = last (filter (λ r, Fqdn r = f) keys)) as Hl.
  { intros f. rewrite NewKeys_foldl. simpl. by destruct (last _). }
  assert ((foldl (λ st key, AddKey st (Fqdn key) key) (mkKeys ∅ c, ∅) keys).2
          = list_to_set (Fqdn <$> keys)) as Hw.
  { rewrite NewKeys_foldl_workers. set_solver. }
  split; [done|]. split; [|split; [|done]].
  - intros f r. rewrite Hl. intros Hr. apply last_Some_elem_of in Hr.
    by apply list_elem_of_filter in Hr as [? _].
  - rewrite Hw. apply set_eq. intros f.
    rewrite elem_of_dom, Hl, elem_of_list_to_set, list_elem_of_fmap. split.
    + intros [r Hr]. apply last_Some_elem_of in Hr.
      apply list_elem_of_filter in Hr as [? ?]. eauto.
    + intros (r & -> & Hin).
      assert (r ∈ filter (λ r0, Fqdn r0 = Fqdn r) keys) as Hin'
        by (by apply list_elem_of_filter).
      destruct (filter _ keys) as [|x l] using rev_ind; [by apply elem_of_nil in Hin'|].
      rewrite last_snoc. by eexists.
Qed.

Lemma worker_tick_store k key cur fetch r :
  store k !! Fqdn key = Some r →
  ∃ r', store (worker_tick k key cur fetch) = <[Fqdn key := r']> (store k) ∧
        same_identity r r'.
Proof.
  intros Hr. unfold worker_tick, Get. rewrite Hr.
  destruct fetch; simpl; eexists; (split; [reflexivity|done]).
Qed.

Lemma worker_tick_own_fqdn k key cur fetch r :
  own_fqdn (store k) → store k !! Fqdn key = Some r →
  own_fqdn (store (worker_tick k key cur fetch)).
Proof.
  intros Hown Hr.
  destruct (worker_tick_store k key cur fetch r Hr) as (r' & -> & Hid).
  intros f x Hl. destruct (decide (Fqdn key = f)) as [<-|Hne].
  - rewrite lookup_insert_eq in Hl. injection Hl as <-.
    destruct Hid as (_ & _ & _ & ->). by apply Hown.
  - rewrite lookup_insert_ne in Hl by done. by apply Hown.
Qed.

(** X4.  The ticks of the workers of registered names keep the registry in
    shape, whatever the probes return: no name is added or removed, every
    record stays under its own name, and the file, the domain name, the
    name and the application id of a record never change. *)
Theorem run_keeps_names_and_files (k : Keys) (ticks : list Tick) :
  own_fqdn (store k) →
  Forall (λ t, Fqdn (tick_key t) ∈ dom (store k)) ticks →
  own_fqdn (Snapshot (run k ticks)) ∧
  dom (Snapshot (run k ticks)) = dom (store k) ∧
  (∀ f r, store k !! f = Some r →
     ∃ r', Snapshot (run k ticks) !! f = Some r' ∧
       AppID r' = AppID r ∧ DomainName r' = DomainName r ∧ File r' = File r ∧
       Fqdn r' = Fqdn r).
Proof.
  unfold Snapshot. revert k. induction ticks as [|t ticks IH]; intros k Hown Hall.
  - split; [done|]. split; [done|]. intros f r Hr. by exists r.
  - apply Forall_cons_1 in Hall as [Ht Hall].
    apply elem_of_dom in Ht as [r0 Hr0].
    destruct (worker_tick_store k (tick_key t) (tick_cur t) (tick_fetch t) r0 Hr0)
      as (r1 & Hstore & Hid).
    pose proof (worker_tick_own_fqdn k (tick_key t) (tick_cur t) (tick_fetch t) r0
                  Hown Hr0) as Hown1.
    change (run k (t :: ticks))
      with (run (worker_tick k (tick_key t) (tick_cur t) (tick_fetch t)) ticks).
    set (k1 := worker_tick k (tick_key t) (tick_cur t) (tick_fetch t)) in *.
    assert (dom (store k1) = dom (store k)) as Hdom.
    { rewrite Hstore, dom_insert_L. apply elem_of_dom_2 in Hr0. set_solver. }
    destruct (IH k1 Hown1) as (Hown' & Hdom' & Hsame); [by rewrite Hdom|].
    split; [done|]. split; [by rewrite Hdom', Hdom|].
    intros f r Hr.
    destruct (decide (Fqdn (tick_key t) = f)) as [<-|Hne].
    + destruct (Hsame (Fqdn (tick_key t)) r1) as (r' & Hr' & Hid').
      { by rewrite Hstore, lookup_insert_eq. }
      exists r'. split; [done|]. rewrite Hr0 in Hr. injection Hr as <-.
      destruct Hid as (?&?&?&?), Hid' as (?&?&?&?). repeat split; congruence.
    + apply Hsame. by rewrite Hstore, lookup_insert_ne.
Qed.

Lemma run_keeps_names_and_files_witness :
  dom (Snapshot (run registry [mkTick target 7 (Err "i/o timeout");
                               mkTick target 8 (Ok (mkDomainKey "" None "" 500 "" "" "K2" ""))]))
  = dom (store registry).
Proof.
  apply (run_keeps_names_and_files registry).
  - intros f r Hr. cbn [registry store] in Hr.
    apply lookup_singleton_Some in Hr as [<- <-]. reflexivity.
  - repeat constructor; apply elem_of_dom; eexists; reflexivity.
Defined.

End registry_facts.

Module probe_loop.

(** The loops of the probes: every element either counts or adds one
    line to the diagnostics. *)
Lemma probe_loop {A} (step : list string * nat → A → list string * nat)
    (ok : A → Prop) `{∀ e, Decision (ok e)} :
  (∀ st e, ok e → step st e = (st.1, S st.2)) →
  (∀ st e, ¬ ok e → ∃ msg, msg ≠ "" ∧ step st e = (append st.1 msg, st.2)) →
  ∀ es st, ∃ more,
    foldl step st es = ((st.1 ++ more)%list, (st.2 + length (filter ok es))%nat) ∧
    length more = length (filter (λ e, ¬ ok e) es) ∧
    Forall (λ msg, msg ≠ "") more.
Proof.
  intros Hok Hbad es. induction es as [|e es IH]; intros st; simpl.
  - exists []. rewrite app_nil_r, Nat.add_0_r. by destruct st.
  - rewrite !filter_cons. destruct (decide (ok e)) as [He|He].
    + rewrite (Hok _ _ He). destruct (IH (st.1, S st.2)) as (more & -> & Hlen & Hall).
      exists more. simpl. rewrite decide_False by tauto.
      split; [f_equal; lia|done].
    + destruct (Hbad st e He) as (msg & Hmsg & ->).
      destruct (IH (append st.1 msg, st.2)) as (more & -> & Hlen & Hall).
      exists (msg :: more). simpl. rewrite decide_True by done. unfold append.
      rewrite <- app_assoc. simpl. split; [done|]. split; [by rewrite Hlen|].
      by constructor.
Qed.

Lemma filter_all_length {A} (P : A → Prop) `{∀ x, Decision (P x)} (l : list A) :
  Forall P l → length (filter P l) = length l ∧ filter (λ x, ¬ P x) l = [].
Proof.
  induction 1 as [|x l Hx _ [IH1 IH2]]; [done|].
  rewrite !filter_cons, decide_True, decide_False by tauto. simpl. by rewrite IH1.
Qed.

Lemma filter_not_all {A} (P : A → Prop) `{∀ x, Decision (P x)} (l : list A) :
  ¬ Forall P l → filter (λ x, ¬ P x) l ≠ [].
Proof.
  intros Hn Hnil. apply Hn. apply Forall_forall. intros x Hx.
  destruct (decide (P x)) as [|Hp]; [done|].
  assert (x ∈ filter (λ x, ¬ P x) l) as Hin by (by apply list_elem_of_filter).
  rewrite Hnil in Hin. by apply elem_of_nil in Hin.
Qed.

(** What the deferred function of a probe writes for the diagnostics
    [errs]: 200 with no body when there is none, 503 and a body that is
    not empty otherwise. *)
Lemma probeResponse_ok errs :
  http.StatusCode (http.probeResponse errs) = http.StatusOK ↔ errs = [].
Proof.
  unfold http.probeResponse. destruct errs; simpl; split; done.
Qed.

Lemma probeResponse_unavailable errs :
  errs ≠ [] → Forall (λ msg, msg ≠ "") errs →
  http.StatusCode (http.probeResponse errs) = http.StatusServiceUnavailable ∧
  http.Body (http.probeResponse errs) = http.Join errs http.newline ∧
  http.Body (http.probeResponse errs) ≠ "".
Proof.
  intros Hne Hall. rewrite filesystem_facts.probeResponse_errs by done. simpl.
  split; [done|]. split; [done|].
  destruct errs as [|x l]; [done|]. apply Forall_cons_1 in Hall as [Hx _].
  by apply filesystem_facts.Join_cons_nonempty.
Qed.

(** The end of a probe that counts: the diagnostics of the loop, and
    one more line when nothing was counted. *)
Lemma probe_verdict {A} (step : list string * nat → A → list string * nat)
    (ok : A → Prop) `{∀ e, Decision (ok e)} (es : list A) (none : string) :
  (∀ st e, ok e → step st e = (st.1, S st.2)) →
  (∀ st e, ¬ ok e → ∃ msg, msg ≠ "" ∧ step st e = (append st.1 msg, st.2)) →
  none ≠ "" →
  let errs := (let '(errs, n) := foldl step ([], 0%nat) es in
               if decide (n = 0)%nat then append errs none else errs) in
  (es ≠ [] ∧ Forall ok es → errs = []) ∧
  (¬ (es ≠ [] ∧ Forall ok es) → errs ≠ [] ∧ Forall (λ msg, msg ≠ "") errs).
Proof.
  intros Hok Hbad Hnone errs. subst errs.
  destruct (probe_loop step ok Hok Hbad es ([], 0%nat)) as (more & -> & Hlen & Hall).
  simpl. split.
  - intros [Hne Hes]. destruct (filter_all_length ok es Hes) as [-> Hnil].
    rewrite Hnil in Hlen. destruct more; [|done].
    rewrite decide_False; [done|]. destruct es; [done|simpl; lia].
  - intros Hn. destruct (decide (length (filter ok es) = 0)%nat) as [Hz|Hz].
    + unfold append. split; [by destruct more|].
      apply Forall_app. split; [done|]. by repeat constructor.
    + split; [|done]. intros ->. apply Hn. split.
      * intros ->. done.
      * destruct (decide (Forall ok es)) as [|Hf]; [done|].
        apply (filter_not_all ok) in Hf. destruct (filter _ es); done.
Qed.

End probe_loop.

Module memory_probe_facts.
Import types memory probe_loop scenarios.

Section probes.
Variable Quote : string → string.
Variable Duration_String : Z → string.

Lemma ProbeLiveness_step_ok now st e :
  alive now e.2 → ProbeLiveness_step Quote Duration_String now st e = (st.1, S st.2).
Proof.
  intros [Hk Hd]. unfold ProbeLiveness_step. rewrite decide_False by done.
  destruct (Date e.2) as [date|]; [|done].
  rewrite decide_False; [done|].
  unfold time_Sub, maxAge, maxDuration, minDuration, Second in *. lia.
Qed.

Lemma ProbeLiveness_step_bad now st e :
  ¬ alive now e.2 →
  ∃ msg, msg ≠ "" ∧
    ProbeLiveness_step Quote Duration_String now st e = (append st.1 msg, st.2).
Proof.
  intros Hn. unfold ProbeLiveness_step.
  destruct (decide (Key e.2 = "")) as [Hk|Hk].
  { eexists. split; [|done]. done. }
  destruct (Date e.2) as [date|] eqn:Hd.
  - destruct (decide (maxAge ≤ time_Sub now date)) as [Ha|Ha].
    + eexists. split; [|done]. done.
    + destruct Hn. split; [done|]. rewrite Hd.
      unfold time_Sub, maxAge, maxDuration, minDuration, Second in *. lia.
  - eexists. split; [|done]. done.
Qed.

Lemma ProbeReadiness_step_ok st e :
  valid e.2 → ProbeReadiness_step Quote st e = (st.1, S st.2).
Proof.
  intros [Hk Hd]. unfold ProbeReadiness_step. rewrite decide_False by done.
  by destruct (Date e.2).
Qed.

Lemma ProbeReadiness_step_bad st e :
  ¬ valid e.2 →
  ∃ msg, msg ≠ "" ∧ ProbeReadiness_step Quote st e = (append st.1 msg, st.2).
Proof.
  intros Hn. unfold ProbeReadiness_step.
  destruct (decide (Key e.2 = "")) as [Hk|Hk].
  { eexists. split; [|done]. done. }
  destruct (Date e.2) as [date|] eqn:Hd.
  - destruct Hn. split; [done|]. by rewrite Hd.
  - eexists. split; [|done]. done.
Qed.

Lemma ProbeLiveness_verdict entries now :
  let errs := (if decide (length entries = 0)%nat then ["no keys in memory"]
               else
                 let '(errs, freshKeys) :=
                   foldl (ProbeLiveness_step Quote Duration_String now) ([], 0%nat) entries in
                 if decide (freshKeys = 0)%nat
                 then append errs "no fresh keys found in memory"
                 else errs) in
  (entries ≠ [] ∧ Forall (λ e, alive now e.2) entries → errs = []) ∧
  (¬ (entries ≠ [] ∧ Forall (λ e, alive now e.2) entries) →
   errs ≠ [] ∧ Forall (λ msg, msg ≠ "") errs).
Proof.
  intros errs. subst errs.
  destruct (decide (length entries = 0)%nat) as [Hlen|Hlen].
  { destruct entries; [|done]. split; [by intros [? _]|].
    intros _. split; [done|]. by repeat constructor. }
  apply (probe_verdict _ (λ e, alive now e.2)); [| |done].
  - intros st e. apply ProbeLiveness_step_ok.
  - intros st e. apply ProbeLiveness_step_bad.
Qed.

Lemma ProbeReadiness_verdict entries :
  let errs := (if decide (length entries = 0)%nat then ["no keys in memory"]
               else
                 let '(errs, validKeys) :=
                   foldl (ProbeReadiness_step Quote) ([], 0%nat) entries in
                 if decide (validKeys = 0)%nat
                 then append errs "no valid keys in memory"
                 else errs) in
  (entries ≠ [] ∧ Forall (λ e, valid e.2) entries → errs = []) ∧
  (¬ (entries ≠ [] ∧ Forall (λ e, valid e.2) entries) →
   errs ≠ [] ∧ Forall (λ msg, msg ≠ "") errs).
Proof.
  intros errs. subst errs.
  destruct (decide (length entries = 0)%nat) as [Hlen|Hlen].
  { destruct entries; [|done]. split; [by intros [? _]|].
    intros _. split; [done|]. by repeat constructor. }
  apply (probe_verdict _ (λ e, valid e.2)); [| |done].
  - intros st e. apply ProbeReadiness_step_ok.
  - intros st e. apply ProbeReadiness_step_bad.
Qed.

(** X5.  The liveness probe of the memory backend answers 200, with no body,
    exactly when the store holds at least one record and every record has
    a key and a date less than ten seconds old; otherwise it answers 503
    with a body that is not empty.  One stale record is enough for 503,
    however many fresh ones there are. *)
Theorem memory_ProbeLiveness_all_fresh (entries : list (string * DomainKey)) (now : Z) :
  let resp := ProbeLiveness Quote Duration_String entries now in
  (http.StatusCode resp = http.StatusOK ↔
     entries ≠ [] ∧ Forall (λ e, alive now e.2) entries) ∧
  (http.StatusCode resp = http.StatusOK → resp = http.mkResponse http.StatusOK "" "") ∧
  (http.StatusCode resp ≠ http.StatusOK →
     http.StatusCode resp = http.StatusServiceUnavailable ∧ http.Body resp ≠ "").
Proof.
  intros resp. subst resp. unfold ProbeLiveness.
  destruct (ProbeLiveness_verdict entries now) as [Hgood Hbad].
  set (errs := if decide (length entries = 0)%nat then _ else _) in *.
  destruct (decide (entries ≠ [] ∧ Forall (λ e, alive now e.2) entries)) as [Hc|Hc].
  - rewrite (Hgood Hc). split; [done|]. split; done.
  - destruct (Hbad Hc) as [Hne Hall].
    destruct (probeResponse_unavailable errs Hne Hall) as (Hcode & _ & Hbody).
    rewrite Hcode. split; [split; [done|tauto]|]. split; done.
Qed.

(** X6.  The readiness probe of the memory backend answers 200, with no body,
    exactly when the store holds at least one record and every record has
    a key and a date; otherwise it answers 503 with a body that is not
    empty. *)
Theorem memory_ProbeReadiness_all_valid (entries : list (string * DomainKey)) :
  let resp := ProbeReadiness Quote entries in
  (http.StatusCode resp = http.StatusOK ↔
     entries ≠ [] ∧ Forall (λ e, valid e.2) entries) ∧
  (http.StatusCode resp = http.StatusOK → resp = http.mkResponse http.StatusOK "" "") ∧
  (http.StatusCode resp ≠ http.StatusOK →
     http.StatusCode resp = http.StatusServiceUnavailable ∧ http.Body resp ≠ "").
Proof.
  intros resp. subst resp. unfold ProbeReadiness.
  destruct (ProbeReadiness_verdict entries) as [Hgood Hbad].
  set (errs := if decide (length entries = 0)%nat then _ else _) in *.
  destruct (decide (entries ≠ [] ∧ Forall (λ e, valid e.2) entries)) as [Hc|Hc].
  - rewrite (Hgood Hc). split; [done|]. split; done.
  - destruct (Hbad Hc) as [Hne Hall].
    destruct (probeResponse_unavailable errs Hne Hall) as (Hcode & _ & Hbody).
    rewrite Hcode. split; [split; [done|tauto]|]. split; done.
Qed.

(** X7.  A memory backend that is alive is ready: on one store, 200 from the
    liveness probe comes with 200 from the readiness probe. *)
Theorem memory_alive_is_ready (entries : list (string * DomainKey)) (now : Z) :
  http.StatusCode (ProbeLiveness Quote Duration_String entries now) = http.StatusOK →
  ProbeReadiness Quote entries = http.mkResponse http.StatusOK "" "".
Proof.
  unfold ProbeLiveness, ProbeReadiness. intros Hlive.
  destruct (ProbeLiveness_verdict entries now) as [_ Hbad].
  destruct (ProbeReadiness_verdict entries) as [Hgood _].
  set (errs := if decide (length entries = 0)%nat then _ else _) in Hlive, Hbad.
  set (errs' := if decide (length entries = 0)%nat then _ else _) in *.
  destruct (decide (entries ≠ [] ∧ Forall (λ e, alive now e.2) entries)) as [[Hne Hc]|Hc].
  - rewrite Hgood; [done|]. split; [done|].
    eapply Forall_impl; [exact Hc|]. intros e [Hk Hd]. split; [done|].
    by destruct (Date e.2).
  - destruct (Hbad Hc) as [Hn Hall].
    destruct (probeResponse_unavailable errs Hn Hall) as (Hcode & _). 
    rewrite Hcode in Hlive. done.
Qed.
End probes.

Lemma memory_alive_is_ready_witness :
  ProbeReadiness demo_Quote [("a.test", one_record)] = http.mkResponse http.StatusOK "" "".
Proof.
  apply (memory_alive_is_ready demo_Quote (λ _, "10s") [("a.test", one_record)]
           (3 * Second)).
  vm_compute. reflexivity.
Defined.

End memory_probe_facts.

Module flush_facts.
Import types keys memory scenarios.

Section flush.
Variable Quote : string → string.

Lemma SaveKeys_own_fqdn (s : Storage) (snapshot : gmap string DomainKey)
    (entries : list (string * DomainKey)) :
  own_fqdn snapshot → entries ≡ₚ map_to_list snapshot →
  keys (SaveKeys Quote s entries).1 = filter (λ kv, Key kv.2 ≠ "") snapshot.
Proof.
  intros Hown Hperm.
  assert (∀ k r, (k, r) ∈ entries ↔ snapshot !! k = Some r) as Hin.
  { intros k r. rewrite Hperm. apply elem_of_map_to_list. }
  rewrite memory_facts.SaveKeys_keys. apply map_eq. intros f.
  destruct (filter (λ kv, Key kv.2 ≠ "") snapshot !! f) as [r|] eqn:Hf.
  - apply map_lookup_filter_Some in Hf as [Hs Hk]. simpl in Hk.
    pose proof (Hown _ _ Hs) as <-.
    apply (memory_facts.SaveKeys_foldl_stores Quote _ _ (Fqdn r)); [by apply Hin|done|].
    intros k' r' Hin' _ Hfq. apply Hin in Hin'.
    pose proof (Hown _ _ Hin') as Hk'. rewrite Hfq in Hk'. subst k'. congruence.
  - match goal with |- ?x = None => destruct x as [r|] eqn:Hl; [|done] end.
    apply memory_facts.SaveKeys_foldl_lookup in Hl as [Hl|(Hfq & Hk & k & Hk')];
      [done|].
    apply Hin in Hk'. pose proof (Hown _ _ Hk') as Hfk. subst.
    assert (filter (λ kv, Key kv.2 ≠ "") snapshot !! Fqdn r = Some r) as Hs
      by (by apply map_lookup_filter_Some).
    congruence.
Qed.

(** X8.  What the periodic flush leaves in the memory backend.  The snapshot
    of a registry holds every record under its own name, and then
    [SaveKeys] stores exactly the records of the snapshot that have a
    key: nothing is lost to a clash of names.  The flush function
    reports no error even when [SaveKeys] returned one for the records
    without a key. *)
Theorem flush_memory_stores_keyed (s : Storage) (snapshot : gmap string DomainKey)
    (entries : list (string * DomainKey)) :
  own_fqdn snapshot → entries ≡ₚ map_to_list snapshot →
  let flushed := application.flushFunc (SaveKeys Quote) s entries in
  keys flushed.1 = filter (λ kv, Key kv.2 ≠ "") snapshot ∧
  stores_exactly_valid snapshot (keys flushed.1) ∧
  flushed.2 = None ∧
  ((SaveKeys Quote s entries).2 ≠ None ↔ ∃ f r, snapshot !! f = Some r ∧ Key r = "").
Proof.
  intros Hown Hperm flushed. subst flushed. unfold application.flushFunc. simpl.
  rewrite (SaveKeys_own_fqdn s snapshot entries Hown Hperm).
  split; [done|]. split; [|split; [done|]].
  - intros r. split.
    + intros [f Hf]. apply map_lookup_filter_Some in Hf as [Hs Hk]. eauto.
    + intros (k & Hk & Hkey). exists k. by apply map_lookup_filter_Some.
  - rewrite memory_facts.SaveKeys_err. split.
    + intros ([f r] & Hin & Hk). exists f, r. split; [|done].
      rewrite Hperm in Hin. by apply elem_of_map_to_list in Hin.
    + intros (f & r & Hs & Hk). exists (f, r). split; [|done].
      rewrite Hperm. by apply elem_of_map_to_list.
Qed.

Lemma GetByFile_served (saved : gmap string DomainKey) visit f r :
  visit ≡ₚ map_to_list saved → saved !! f = Some r → Key r ≠ "" →
  ∃ out, GetByFile visit (File r) = Ok (out, None) ∧ with_File "" r ∈ out.
Proof.
  intros Hv Hs Hk. eexists. split; [reflexivity|].
  rewrite memory_facts.GetByFile_foldl. simpl.
  apply list_elem_of_fmap_2, list_elem_of_filter. split; [done|].
  apply list_elem_of_fmap. exists (f, r). split; [done|].
  rewrite Hv. by apply elem_of_map_to_list.
Qed.

Lemma GetByFile_not_served (saved : gmap string DomainKey) visit file g :
  visit ≡ₚ map_to_list saved → own_fqdn saved → saved !! g = None →
  ∃ out, GetByFile visit file = Ok (out, None) ∧ ∀ x, x ∈ out → Fqdn x ≠ g.
Proof.
  intros Hv Hown Hs. eexists. split; [reflexivity|]. intros x.
  rewrite memory_facts.GetByFile_foldl. simpl.
  intros Hx. apply list_elem_of_fmap in Hx as (r & -> & Hr).
  apply list_elem_of_filter in Hr as [_ Hr].
  apply list_elem_of_fmap in Hr as ([f r'] & -> & Hr). simpl.
  rewrite Hv in Hr. apply elem_of_map_to_list in Hr.
  pose proof (Hown _ _ Hr). simpl. congruence.
Qed.

(** X9.  From a probe to the manifest, through the memory backend.  After a
    tick of the worker of a registered name and a flush of the snapshot,
    [GetByFile] of the file of that name returns: the pin and expiry of
    the probe when it succeeded with a key; the pin and expiry the
    registry had, with the message of the error, when the probe failed
    and a pin was known; and no record of that name when the probe failed
    and no pin was known. *)
Theorem probe_flush_GetByFile (k : Keys) (key r : DomainKey) (cur : Z)
    (fetch : result DomainKey) (s : Storage)
    (entries visit : list (string * DomainKey)) :
  own_fqdn (store k) → store k !! Fqdn key = Some r →
  entries ≡ₚ map_to_list (Snapshot (worker_tick k key cur fetch)) →
  visit ≡ₚ map_to_list (keys (application.flushFunc (SaveKeys Quote) s entries).1) →
  (∀ res, fetch = Ok res → Key res ≠ "" →
     ∃ out, GetByFile visit (File r) = Ok (out, None) ∧
       mkDomainKey (AppID r) (Some cur) (DomainName r) (Expire res) "" (Fqdn r)
         (Key res) "" ∈ out) ∧
  (∀ err, fetch = Err err → Key r ≠ "" →
     ∃ out, GetByFile visit (File r) = Ok (out, None) ∧
       mkDomainKey (AppID r) (Some cur) (DomainName r) (Expire r) "" (Fqdn r)
         (Key r) err ∈ out) ∧
  (∀ err, fetch = Err err → Key r = "" →
     ∃ out, GetByFile visit (File r) = Ok (out, None) ∧
       ∀ x, x ∈ out → Fqdn x ≠ Fqdn key).
Proof.
  intros Hown Hr Hentries Hvisit.
  destruct (registry_facts.worker_tick_store k key cur fetch r Hr)
    as (r' & Hstore & Hid).
  assert (own_fqdn (Snapshot (worker_tick k key cur fetch))) as Hown'
    by (by apply (registry_facts.worker_tick_own_fqdn k key cur fetch r)).
  unfold application.flushFunc in Hvisit. simpl in Hvisit.
  rewrite (SaveKeys_own_fqdn s _ entries Hown' Hentries) in Hvisit.
  assert (Snapshot (worker_tick k key cur fetch) !! Fqdn key
          = Some match fetch with
                 | Ok res => mkDomainKey (AppID r) (Some cur) (DomainName r) (Expire res)
                               (File r) (Fqdn r) (Key res) ""
                 | Err err => mkDomainKey (AppID r) (Some cur) (DomainName r) (Expire r)
                               (File r) (Fqdn r) (Key r) err
                 end) as Hnew.
  { unfold Snapshot, worker_tick, Get. rewrite Hr.
    destruct fetch; simpl; by rewrite lookup_insert_eq. }
  split; [|split].
  - intros res -> Hk.
    apply (GetByFile_served _ visit (Fqdn key)
             (mkDomainKey (AppID r) (Some cur) (DomainName r) (Expire res)
                (File r) (Fqdn r) (Key res) "") Hvisit); [|exact Hk].
    by apply map_lookup_filter_Some.
  - intros err -> Hk.
    apply (GetByFile_served _ visit (Fqdn key)
             (mkDomainKey (AppID r) (Some cur) (DomainName r) (Expire r)
                (File r) (Fqdn r) (Key r) err) Hvisit); [|exact Hk].
    by apply map_lookup_filter_Some.
  - intros err -> Hk. apply (GetByFile_not_served _ visit _ _ Hvisit).
    + intros f x Hx. apply map_lookup_filter_Some in Hx as [Hx _]. by apply Hown'.
    + apply map_lookup_filter_None. right. intros x Hx. rewrite Hnew in Hx.
      injection Hx as <-. simpl. tauto.
Qed.
End flush.

Lemma registry_own_fqdn : own_fqdn (store registry).
Proof.
  intros f r Hr. cbn [registry store] in Hr.
  apply lookup_singleton_Some in Hr as [<- <-]. reflexivity.
Qed.

Lemma flush_memory_stores_keyed_witness :
  keys (application.flushFunc (SaveKeys demo_Quote) (mkStorage "" ∅)
          (map_to_list (store registry))).1
  = filter (λ kv, Key kv.2 ≠ "") (store registry).
Proof.
  apply (flush_memory_stores_keyed demo_Quote (mkStorage "" ∅) (store registry)
           (map_to_list (store registry))).
  - exact registry_own_fqdn.
  - reflexivity.
Defined.

Lemma probe_flush_GetByFile_witness :
  ∃ out,
    GetByFile
      (map_to_list
         (keys (application.flushFunc (SaveKeys demo_Quote) (mkStorage "" ∅)
                  (map_to_list
                     (Snapshot (worker_tick registry target 7 (Err "i/o timeout"))))).1))
      "f.json" = Ok (out, None) ∧
    mkDomainKey "" (Some 7) "*.a.test" 1000 "" "a.test" "K1" "i/o timeout" ∈ out.
Proof.
  destruct (probe_flush_GetByFile demo_Quote registry target
              (mkDomainKey "" (Some 5) "*.a.test" 1000 "f.json" "a.test" "K1" "")
              7 (Err "i/o timeout") (mkStorage "" ∅)
              (map_to_list (Snapshot (worker_tick registry target 7 (Err "i/o timeout"))))
              (map_to_list
                 (keys (application.flushFunc (SaveKeys demo_Quote) (mkStorage "" ∅)
                          (map_to_list
                             (Snapshot (worker_tick registry target 7
                                          (Err "i/o timeout"))))).1)))
    as (_ & Hfail & _).
  - exact registry_own_fqdn.
  - reflexivity.
  - reflexivity.
  - reflexivity.
  - apply (Hfail "i/o timeout"); [reflexivity|discriminate].
Defined.

End flush_facts.

Module dump_facts.
Import types types_facts filesystem scenarios.

(** The temporary file never has the name of the file it is made for. *)
Lemma tempName_ne file rnd : tempName file rnd ≠ file.
Proof.
  intros Heq. apply (f_equal String.length) in Heq. unfold tempName in Heq.
  rewrite !signer_facts.string_app_length in Heq. simpl in Heq. lia.
Qed.

(** X10.  [saveFile] writes a file whole or not at all.  When it returns no
    error the directory is the one before with [data] under the name of
    the file, and nothing else changed; when it returns an error the
    file is as it was, and so is the whole directory unless the removal
    of the temporary file failed too.  It returns no error exactly when
    none of its five steps failed. *)
Theorem saveFile_whole_or_nothing (faults : Faults) (rnd dumpDir : string)
    (dir : gmap string string) (file data : string) :
  dir !! tempName file rnd = None →
  let after := saveFile faults rnd dumpDir dir file data in
  (after.2 = None → after.1 = <[file := data]> dir) ∧
  (after.2 ≠ None →
     after.1 !! file = dir !! file ∧ (remove_err faults = false → after.1 = dir)) ∧
  (after.2 = None ↔
     create_err faults = None ∧ write_err faults = None ∧ sync_err faults = None ∧
     close_err faults = None ∧ rename_err faults = None).
Proof.
  intros Hfresh after. subst after. unfold saveFile.
  pose proof (tempName_ne file rnd) as Hne.
  set (tmp := tempName file rnd) in *.
  assert (∀ x y, delete tmp (<[tmp := x]> (<[tmp := y]> dir)) = dir) as Hdel.
  { intros x y. rewrite insert_insert_eq, delete_insert_eq. by apply delete_id. }
  assert (∀ y, delete tmp (<[tmp := y]> dir) = dir) as Hdel1.
  { intros y. rewrite delete_insert_eq. by apply delete_id. }
  assert (∀ x y, <[tmp := x]> (<[tmp := y]> dir) !! file = dir !! file) as Hlook.
  { intros x y. by rewrite !lookup_insert_ne. }
  unfold Remove.
  destruct (create_err faults) as [e|]; simpl.
  { split; [done|]. split; [done|]. split; [done|]. by intros (? & _). }
  destruct (write_err faults) as [[written e]|]; simpl.
  { split; [done|]. split; [|split; [done|by intros (_ & ? & _)]].
    intros _. destruct (remove_err faults); [by rewrite Hlook|]. by rewrite Hdel. }
  destruct (sync_err faults) as [e|]; simpl.
  { split; [done|]. split; [|split; [done|by intros (_ & _ & ? & _)]].
    intros _. destruct (remove_err faults); [by rewrite Hlook|]. by rewrite Hdel. }
  destruct (close_err faults) as [e|]; simpl.
  { split; [done|]. split; [|split; [done|by intros (_ & _ & _ & ? & _)]].
    intros _. destruct (remove_err faults); [by rewrite Hlook|]. by rewrite Hdel. }
  destruct (rename_err faults) as [e|]; simpl.
  { split; [done|]. split; [|split; [done|by intros (_ & _ & _ & _ & ?)]].
    intros _. destruct (remove_err faults); [by rewrite Hlook|]. by rewrite Hdel. }
  split; [|done]. intros _. rewrite Hdel.
  destruct (remove_err faults); [done|].
  apply delete_id. by rewrite lookup_insert_ne.
Qed.

Lemma saveFile_whole_or_nothing_witness :
  (saveFile (mkFaults None (Some ("{", "no space left on device")) None None None false)
     "1" "/dump" {[ "f.json" := "old" ]} "f.json" "new").1 = {[ "f.json" := "old" ]}.
Proof.
  destruct (saveFile_whole_or_nothing
              (mkFaults None (Some ("{", "no space left on device")) None None None false)
              "1" "/dump" {[ "f.json" := "old" ]} "f.json" "new") as (_ & Hfail & _).
  - reflexivity.
  - apply Hfail; [discriminate|reflexivity].
Defined.

Section save_facts.
Context `{SliceSort}.
Variable Quote : string → string.
Variable MarshalIndent_FileKeys : FileKeys → result string.
Variable MarshalIndent_FileStructure : FileStructure → result string.
Variable Sign : string → result string.

#[local] Abbreviation SignedKeys :=
  (SignedKeys MarshalIndent_FileKeys MarshalIndent_FileStructure).
#[local] Abbreviation group_step := (group_step Quote).
#[local] Abbreviation save_step :=
  (save_step MarshalIndent_FileKeys MarshalIndent_FileStructure Sign).
#[local] Abbreviation SaveKeys :=
  (SaveKeys Quote MarshalIndent_FileKeys MarshalIndent_FileStructure Sign).

Lemma group_of_cons f k r entries :
  group_of f ((k, r) :: entries)
  = if decide (File r = f ∧ Key r ≠ "") then with_File "" r :: group_of f entries
    else group_of f entries.
Proof.
  unfold group_of. simpl. rewrite filter_cons. by destruct (decide _).
Qed.

(** The first loop: the groups by file, and one error for each record
    without a key. *)
Lemma group_foldl entries st f :
  (foldl group_step st entries).2 !! f
  = if decide (group_of f entries = []) then st.2 !! f
    else Some (default [] (st.2 !! f) ++ group_of f entries)%list.
Proof.
  revert st. induction entries as [|[k r] entries IH]; intros st; simpl; [done|].
  rewrite IH, group_of_cons. unfold filesystem.group_step. simpl.
  destruct (decide (File r = f ∧ Key r ≠ "")) as [[<- Hk]|Hn].
  - destruct (decide (Key r = "")) as [|_]; [done|]. simpl.
    rewrite lookup_insert_eq. simpl.
    unfold append. rewrite <- app_assoc. simpl.
    destruct (decide (group_of (File r) entries = [])) as [->|Hg].
    + done.
    + done.
  - destruct (decide (Key r = "")) as [Hk|Hk]; simpl; [done|].
    rewrite lookup_insert_ne; [done|]. intros Hf. by apply Hn.
Qed.

Lemma group_foldl_errs entries st :
  (foldl group_step st entries).1
  = (st.1 ++ (memory.errEmptyKey Quote <$> filter (λ r, Key r = "") entries.*2))%list.
Proof.
  revert st. induction entries as [|[k r] entries IH]; intros st; simpl.
  - by rewrite app_nil_r.
  - rewrite IH, filter_cons. unfold filesystem.group_step. simpl.
    destruct (decide (Key r = "")); simpl; [|done].
    unfold append. by rewrite <- app_assoc.
Qed.

Lemma SignedKeys_some file keys data :
  keys ≠ [] → SignedKeys file keys Sign = Ok data → ∃ out, data = Some out.
Proof.
  intros Hne. unfold types.SignedKeys.
  destruct (decide (length keys < 1)%nat) as [Hlen|_].
  { destruct keys; [done|simpl in Hlen; lia]. }
  destruct (MarshalIndent_FileKeys _); [|done].
  destruct (Sign _); [|done].
  destruct (MarshalIndent_FileStructure _); [|done].
  intros [= <-]. eauto.
Qed.

Section no_faults.
Variable rnd : string → string.
Variable dumpDir : string.

#[local] Abbreviation step := (save_step (λ _, no_faults) rnd dumpDir).

Lemma saveFile_no_faults dir file data :
  saveFile no_faults (rnd file) dumpDir dir file data
  = (<[file := data]> (delete (tempName file (rnd file)) dir), None).
Proof.
  unfold saveFile, Remove. simpl. f_equal.
  pose proof (tempName_ne file (rnd file)) as Hne.
  rewrite insert_insert_eq, delete_insert_eq.
  rewrite delete_insert_ne by done. by rewrite delete_delete_eq.
Qed.

Lemma save_step_lookup st file g f :
  (∀ x, f ≠ tempName x (rnd x)) →
  (step st (file, g)).2 !! f
  = match SignedKeys file g Sign with
    | Ok data => if decide (file = f) then Some (default "" data) else st.2 !! f
    | Err _ => st.2 !! f
    end.
Proof.
  intros Hf. unfold filesystem.save_step. cbn [fst snd].
  destruct (SignedKeys file g Sign) as [data|e]; [|done].
  rewrite saveFile_no_faults. simpl.
  destruct (decide (file = f)) as [->|Hne].
  - by rewrite lookup_insert_eq.
  - rewrite lookup_insert_ne by done. rewrite lookup_delete_ne; [done|].
    intros Heq. by apply (Hf file).
Qed.

Lemma save_step_errs st file g :
  (step st (file, g)).1
  = match SignedKeys file g Sign with
    | Ok _ => st.1
    | Err err => append st.1 ("failed signing keys for file " ++ file ++ ": " ++ err)
    end.
Proof.
  unfold filesystem.save_step. cbn [fst snd].
  destruct (SignedKeys file g Sign) as [data|e]; [|done].
  by rewrite saveFile_no_faults.
Qed.

Lemma save_foldl_absent gs st f :
  (∀ x, f ≠ tempName x (rnd x)) → f ∉ gs.*1 →
  (foldl step st gs).2 !! f = st.2 !! f.
Proof.
  intros Hf. revert st. induction gs as [|[file g] gs IH]; intros st Hn; simpl; [done|].
  simpl in Hn. apply not_elem_of_cons in Hn as [Hne Hn].
  rewrite IH, save_step_lookup by done.
  destruct (SignedKeys file g Sign); [|done]. by rewrite decide_False.
Qed.

Lemma save_foldl_present gs st f g :
  (∀ x, f ≠ tempName x (rnd x)) → NoDup gs.*1 → (f, g) ∈ gs →
  (foldl step st gs).2 !! f
  = match SignedKeys f g Sign with
    | Ok data => Some (default "" data)
    | Err _ => st.2 !! f
    end.
Proof.
  intros Hf. revert st. induction gs as [|[file g'] gs IH]; intros st Hnd Hin; simpl.
  - by apply elem_of_nil in Hin.
  - simpl in Hnd. apply NoDup_cons in Hnd as [Hfile Hnd].
    apply elem_of_cons in Hin as [[= <- <-]|Hin].
    + rewrite save_foldl_absent, save_step_lookup by done.
      destruct (SignedKeys f g Sign); [|done]. by rewrite decide_True.
    + rewrite IH by done. destruct (SignedKeys f g Sign) as [data|e]; [done|].
      rewrite save_step_lookup by done.
      destruct (SignedKeys file g' Sign); [|done]. rewrite decide_False; [done|].
      intros ->. apply Hfile. apply list_elem_of_fmap. by exists (f, g).
Qed.

Lemma save_foldl_prefix gs st :
  ∃ more, (foldl step st gs).1 = (st.1 ++ more)%list.
Proof.
  revert st. induction gs as [|[file g] gs IH]; intros st; simpl.
  - exists []. by rewrite app_nil_r.
  - destruct (IH (step st (file, g))) as [more ->]. rewrite save_step_errs.
    destruct (SignedKeys file g Sign); [by eexists|].
    unfold append. rewrite <- app_assoc. by eexists.
Qed.

Lemma save_foldl_errs gs st :
  (foldl step st gs).1 = st.1 ↔
  ∀ file g, (file, g) ∈ gs → ∀ err, SignedKeys file g Sign ≠ Err err.
Proof.
  pose proof save_foldl_prefix as Hprefix.
  revert st. induction gs as [|[file g] gs IH]; intros st; simpl.
  - split; [|done]. intros _ file g Hin. by apply elem_of_nil in Hin.
  - destruct (SignedKeys file g Sign) as [data|e] eqn:Hs.
    + assert ((step st (file, g)).1 = st.1) as Hst by (by rewrite save_step_errs, Hs).
      rewrite <- Hst, IH. split.
      * intros Hall file' g' Hin. apply elem_of_cons in Hin as [[= -> ->]|Hin].
        -- by rewrite Hs.
        -- by apply Hall.
      * intros Hall file' g' Hin. apply Hall. by right.
    + split.
      * intros Heq. destruct (Hprefix gs (step st (file, g))) as [more Hm].
        rewrite Hm, save_step_errs, Hs in Heq. unfold append in Heq.
        rewrite <- app_assoc in Heq. apply (f_equal length) in Heq.
        rewrite length_app in Heq. simpl in Heq. lia.
      * intros Hall. destruct (Hall file g ltac:(by left) e Hs).
Qed.

Lemma SaveKeys_lookup dir entries visit f :
  (∀ files, visit files ≡ₚ map_to_list files) →
  (∀ x, f ≠ tempName x (rnd x)) →
  (SaveKeys (λ _, no_faults) rnd dumpDir dir entries visit).1 !! f
  = if decide (group_of f entries = []) then dir !! f
    else match SignedKeys f (group_of f entries) Sign with
         | Ok data => data
         | Err _ => dir !! f
         end.
Proof.
  intros Hvisit Hf. unfold filesystem.SaveKeys. simpl.
  set (files := (foldl group_step ([], ∅) entries).2).
  assert (files !! f = if decide (group_of f entries = []) then None
                       else Some (group_of f entries)) as Hfiles.
  { subst files. rewrite group_foldl. simpl. by destruct (decide _). }
  assert (NoDup (visit files).*1) as Hnd.
  { rewrite Hvisit. apply NoDup_fst_map_to_list. }
  destruct (decide (group_of f entries = [])) as [Hg|Hg].
  - rewrite save_foldl_absent; [done..|].
    intros Hin. apply list_elem_of_fmap in Hin as ([f' g] & -> & Hin).
    rewrite Hvisit in Hin. apply elem_of_map_to_list in Hin. simpl in *. congruence.
  - rewrite (save_foldl_present _ _ f (group_of f entries)); [|done..|].
    + destruct (SignedKeys f (group_of f entries) Sign) as [data|] eqn:Hs; [|done].
      destruct (SignedKeys_some _ _ _ Hg Hs) as [out ->]. done.
    + rewrite Hvisit. by apply elem_of_map_to_list.
Qed.

(** X11.  What [SaveKeys] of the filesystem backend leaves in the dump
    directory when the disk plays no trick.  For a name [f] that is not
    the name of a temporary file: if no record with a key belongs to
    [f], the file is left as it was (an old manifest is never removed or
    emptied); otherwise the file holds exactly the signed manifest of the
    records of [f] that have a key, their [file] cleared, when signing
    succeeds, and is left as it was when signing fails.  An error is
    returned exactly when some record has no key or the manifest of some
    file cannot be signed. *)
Theorem filesystem_SaveKeys_writes_manifests (dir : gmap string string)
    (entries : list (string * DomainKey))
    (visit : gmap string (list DomainKey) → list (string * list DomainKey)) :
  (∀ files, visit files ≡ₚ map_to_list files) →
  let after := SaveKeys (λ _, no_faults) rnd dumpDir dir entries visit in
  (∀ f, (∀ x, f ≠ tempName x (rnd x)) →
     (group_of f entries = [] → after.1 !! f = dir !! f) ∧
     (group_of f entries ≠ [] →
        match SignedKeys f (group_of f entries) Sign with
        | Ok data => after.1 !! f = data ∧ data ≠ None
        | Err _ => after.1 !! f = dir !! f
        end)) ∧
  (after.2 = None ↔
     Forall (λ r, Key r ≠ "") entries.*2 ∧
     ∀ f, group_of f entries ≠ [] →
          ∀ err, SignedKeys f (group_of f entries) Sign ≠ Err err).
Proof.
  intros Hvisit after. subst after. split.
  - intros f Hf. rewrite (SaveKeys_lookup dir entries visit f Hvisit Hf). split.
    + intros Hg. by rewrite decide_True.
    + intros Hg. rewrite decide_False by done.
      destruct (SignedKeys f (group_of f entries) Sign) as [data|] eqn:Hs; [|done].
      split; [done|]. destruct (SignedKeys_some _ _ _ Hg Hs) as [out ->]. done.
  - unfold filesystem.SaveKeys. simpl.
    set (grouped := foldl group_step ([], ∅) entries).
    assert (∀ f, grouped.2 !! f = if decide (group_of f entries = []) then None
                                  else Some (group_of f entries)) as Hfiles.
    { intros f. subst grouped. rewrite group_foldl. simpl. by destruct (decide _). }
    assert (grouped.1 = memory.errEmptyKey Quote <$> filter (λ r, Key r = "") entries.*2)
      as Herrs.
    { subst grouped. by rewrite group_foldl_errs. }
    set (saved := foldl step (grouped.1, dir) (visit grouped.2)).
    assert (∃ more, saved.1 = (grouped.1 ++ more)%list ∧
              (more = [] ↔ ∀ file g, (file, g) ∈ visit grouped.2 →
                             ∀ err, SignedKeys file g Sign ≠ Err err))
      as (more & Hsaved & Hmore).
    { pose proof (save_foldl_errs (visit grouped.2) (grouped.1, dir)) as Hiff.
      fold saved in Hiff. simpl in Hiff.
      destruct (save_foldl_prefix (visit grouped.2) (grouped.1, dir)) as [more Hm].
      fold saved in Hm. simpl in Hm.
      exists more. split; [done|]. rewrite <- Hiff, Hm. split.
      - intros ->. by rewrite app_nil_r.
      - intros Heq. apply (f_equal length) in Heq. rewrite length_app in Heq.
        destruct more; [done|simpl in Heq; lia]. }
    destruct (decide (0 < length saved.1)%nat) as [Hpos|Hzero].
    + split; [done|]. intros [Hkeys Hsign]. exfalso.
      rewrite Hsaved, Herrs, length_app, length_fmap in Hpos.
      assert (filter (λ r, Key r = "") entries.*2 = []) as Hnone.
      { apply redis_facts.filter_none. rewrite Forall_forall in Hkeys.
        intros r Hr. by apply Hkeys. }
      assert (more = []) as ->.
      { apply Hmore. intros file g Hin. rewrite Hvisit in Hin.
        apply elem_of_map_to_list in Hin. rewrite Hfiles in Hin.
        destruct (decide (group_of file entries = [])); [done|].
        injection Hin as <-. by apply Hsign. }
      rewrite Hnone in Hpos. simpl in Hpos. lia.
    + split; [|done]. intros _.
      rewrite Hsaved, Herrs, length_app, length_fmap in Hzero.
      split.
      * apply Forall_forall. intros r Hr Hk.
        assert (r ∈ filter (λ r, Key r = "") entries.*2) as Hin
          by (by apply list_elem_of_filter).
        destruct (filter _ entries.*2); [by apply elem_of_nil in Hin|].
        simpl in Hzero. lia.
      * assert (more = []) as -> by (destruct more; [done|simpl in Hzero; lia]).
        intros f Hg. apply (proj1 Hmore eq_refl f).
        rewrite Hvisit. apply elem_of_map_to_list. rewrite Hfiles.
        by rewrite decide_False.
Qed.

(** X12.  The filesystem backend serves what it signed when it saved.  After
    [SaveKeys], a request for a file that has records with a key is
    answered 200 with the manifest signed at save time, be there one
    record or many: the handler gets no record from this backend and
    signs nothing itself. *)
Theorem filesystem_saved_manifest_is_served (dir : gmap string string)
    (entries : list (string * DomainKey))
    (visit : gmap string (list DomainKey) → list (string * list DomainKey))
    (f manifest : string) (handler_Sign : string → result string) :
  (∀ files, visit files ≡ₚ map_to_list files) →
  (∀ x, f ≠ tempName x (rnd x)) →
  f ≠ "" →
  group_of f entries ≠ [] →
  SignedKeys f (group_of f entries) Sign = Ok (Some manifest) →
  let after := SaveKeys (λ _, no_faults) rnd dumpDir dir entries visit in
  GetByFile (ReadFile dumpDir after.1 f) f = Ok ([], Some manifest) ∧
  application.handleFileJSON MarshalIndent_FileKeys MarshalIndent_FileStructure
    (application.mkApp (λ file, GetByFile (ReadFile dumpDir after.1 file) file)
       handler_Sign) f
  = http.mkResponse http.StatusOK "application/json" manifest.
Proof.
  intros Hvisit Hf Hne Hg Hs after. subst after.
  assert (ReadFile dumpDir (SaveKeys (λ _, no_faults) rnd dumpDir dir entries visit).1 f
          = Ok manifest) as Hread.
  { unfold ReadFile. rewrite (SaveKeys_lookup dir entries visit f Hvisit Hf).
    rewrite decide_False by done. by rewrite Hs. }
  split.
  - by rewrite Hread.
  - unfold application.handleFileJSON. rewrite decide_False by done.
    cbn [application.storage_GetByFile]. rewrite Hread. simpl. done.
Qed.
End no_faults.
End save_facts.

Lemma f_json_not_temp (rnd : string → string) x : "f.json" ≠ tempName x (rnd x).
Proof. unfold tempName. discriminate. Qed.

Lemma filesystem_SaveKeys_writes_manifests_witness :
  (SaveKeys demo_Quote demo_marshal_keys demo_marshal_file Ok (λ _, no_faults)
     (λ _, "1") "/dump" ∅ [("a.test", one_record)] map_to_list).1 !! "f.json"
  = Some "a.test|a.test".
Proof.
  destruct (filesystem_SaveKeys_writes_manifests demo_Quote demo_marshal_keys
              demo_marshal_file Ok (λ _, "1") "/dump" ∅ [("a.test", one_record)]
              map_to_list) as [Hfiles _].
  - reflexivity.
  - destruct (Hfiles "f.json" (f_json_not_temp _)) as [_ Hsome].
    apply Hsome. discriminate.
Defined.

Lemma filesystem_saved_manifest_is_served_witness :
  application.handleFileJSON demo_marshal_keys demo_marshal_file
    (application.mkApp
       (λ file,
          GetByFile
            (ReadFile "/dump"
               (SaveKeys demo_Quote demo_marshal_keys demo_marshal_file Ok
                  (λ _, no_faults) (λ _, "1") "/dump" ∅ [("a.test", one_record)]
                  map_to_list).1 file) file)
       Ok) "f.json"
  = http.mkResponse http.StatusOK "application/json" "a.test|a.test".
Proof.
  apply (filesystem_saved_manifest_is_served demo_Quote demo_marshal_keys
           demo_marshal_file Ok (λ _, "1") "/dump" ∅ [("a.test", one_record)]
           map_to_list "f.json" "a.test|a.test" Ok).
  - reflexivity.
  - apply f_json_not_temp.
  - discriminate.
  - discriminate.
  - reflexivity.
Defined.

End dump_facts.

Module dump_probe_facts.
Import types filesystem probe_loop scenarios.

Section readiness.
Variable Quote : string → string.

Lemma ProbeReadiness_step_cases now errs e :
  (fresh now e ∧ ProbeReadiness_step Quote now errs e = errs) ∨
  (¬ fresh now e ∧
   ∃ msg, msg ≠ "" ∧ ProbeReadiness_step Quote now errs e = (errs ++ [msg])%list).
Proof.
  unfold ProbeReadiness_step, append, fresh.
  destruct (Info e) as [modTime|err] eqn:Hinfo.
  - destruct (decide (maxAge ≤ time_Sub now modTime)) as [Hold|Hyoung].
    + right. split.
      * intros (m & [= <-] & Hage). apply filesystem_facts.time_Sub_maxAge in Hold. lia.
      * eexists. split; [|done]. done.
    + left. split; [|done]. exists modTime. split; [done|].
      rewrite filesystem_facts.time_Sub_maxAge in Hyoung. lia.
  - right. split; [by intros (m & ? & _)|]. eexists. split; [|done]. done.
Qed.

Lemma ProbeReadiness_foldl now entries errs :
  ∃ more,
    foldl (ProbeReadiness_step Quote now) errs entries = (errs ++ more)%list ∧
    Forall (λ msg, msg ≠ "") more ∧
    (more = [] ↔ Forall (fresh now) entries).
Proof.
  revert errs. induction entries as [|e entries IH]; intros errs; simpl.
  - exists []. rewrite app_nil_r. done.
  - destruct (ProbeReadiness_step_cases now errs e) as [[He ->]|(He & msg & Hmsg & ->)].
    + destruct (IH errs) as (more & -> & Hall & Hiff). exists more.
      split; [done|]. split; [done|]. rewrite Hiff. split.
      * by constructor.
      * by intros [_ ?]%Forall_cons_1.
    + destruct (IH (errs ++ [msg])%list) as (more & -> & Hall & Hiff).
      exists (msg :: more). rewrite <- app_assoc. split; [done|].
      split; [by constructor|]. split; [done|]. by intros [? _]%Forall_cons_1.
Qed.

(** X13.  The readiness probe of the filesystem backend answers 200, with no
    body, exactly when the dump directory can be read, has at least one
    entry, and every entry has its file information and was modified less
    than ten seconds ago; otherwise it answers 503 with a body that is
    not empty.  One old entry among fresh ones is enough for 503. *)
Theorem filesystem_ProbeReadiness_every_entry_fresh (dumpDir : string)
    (readDir : result (list DirEntry)) (now : Z) :
  let resp := ProbeReadiness Quote dumpDir readDir now in
  (http.StatusCode resp = http.StatusOK ↔
     ∃ entries, readDir = Ok entries ∧ entries ≠ [] ∧ Forall (fresh now) entries) ∧
  (http.StatusCode resp = http.StatusOK → resp = http.mkResponse http.StatusOK "" "") ∧
  (http.StatusCode resp ≠ http.StatusOK →
     http.StatusCode resp = http.StatusServiceUnavailable ∧ http.Body resp ≠ "").
Proof.
  intros resp. subst resp. unfold ProbeReadiness.
  set (errs := ProbeReadiness_errs Quote dumpDir readDir now).
  assert ((errs = [] ↔
             ∃ entries, readDir = Ok entries ∧ entries ≠ [] ∧ Forall (fresh now) entries)
          ∧ Forall (λ msg, msg ≠ "") errs) as [Hiff Hall].
  { subst errs. unfold ProbeReadiness_errs. destruct readDir as [entries|err].
    - destruct (decide (length entries = 0)%nat) as [Hlen|Hlen].
      + destruct entries; [|done]. split; [|by repeat constructor].
        split; [done|]. by intros (? & [= <-] & ? & _).
      + destruct (ProbeReadiness_foldl now entries []) as (more & -> & Hall & Hiff).
        simpl. split; [|done]. rewrite Hiff. split.
        * intros Hf. exists entries. split; [done|]. split; [|done]. by intros ->.
        * by intros (? & [= <-] & _ & ?).
    - split; [|by repeat constructor]. split; [done|]. by intros (? & ? & _). }
  destruct (decide (errs = [])) as [He|He].
  - rewrite He. split; [by rewrite <- Hiff|]. split; done.
  - destruct (probeResponse_unavailable errs He Hall) as (Hcode & _ & Hbody).
    rewrite Hcode. split; [|split; done]. split; [done|].
    intros Hex. by apply Hiff in Hex.
Qed.
End readiness.

Section liveness.
Variable Quote : string → string.
Variable Duration_String : Z → string.
Variable IsDir : DirEntry → bool.
Variable filepath_Join : string → string → string.
Variable os_ReadFile : string → result string.
Variable Unmarshal : string → result FileStructure.

#[local] Abbreviation key_step := (ProbeLiveness_key Duration_String).
#[local] Abbreviation entry_step :=
  (ProbeLiveness_entry Quote Duration_String IsDir filepath_Join os_ReadFile Unmarshal).
#[local] Abbreviation sound := (sound_file filepath_Join os_ReadFile Unmarshal).

Lemma ProbeLiveness_key_ok now st k :
  fresh_key now k → key_step now st k = (st.1, S st.2).
Proof.
  intros [He Hd]. unfold ProbeLiveness_key. rewrite decide_False by (by intros ?).
  destruct (Date k) as [date|]; [|done]. rewrite decide_False; [done|].
  unfold time_Sub, maxAge, maxDuration, minDuration, Second in *. lia.
Qed.

Lemma ProbeLiveness_key_bad now st k :
  ¬ fresh_key now k →
  ∃ msg, msg ≠ "" ∧ key_step now st k = (append st.1 msg, st.2).
Proof.
  intros Hn. unfold ProbeLiveness_key.
  destruct (decide (LastError k ≠ "")) as [He|He].
  { eexists. split; [|done]. done. }
  destruct (Date k) as [date|] eqn:Hd.
  - destruct (decide (maxAge ≤ time_Sub now date)) as [Ha|Ha].
    + eexists. split; [|done]. done.
    + destruct Hn. split; [by destruct (decide (LastError k = ""))|]. rewrite Hd.
      unfold time_Sub, maxAge, maxDuration, minDuration, Second in *. lia.
  - eexists. split; [|done]. done.
Qed.

(** One entry of the directory: skipped, counted whole, or at least one
    more line of diagnostics. *)
Lemma ProbeLiveness_entry_cases dumpDir now st e :
  (IsDir e = true ∧ entry_step dumpDir now st e = st) ∨
  (IsDir e = false ∧ sound dumpDir now e ∧
   ∃ n, (0 < n)%nat ∧ entry_step dumpDir now st e = (st.1, (st.2 + n)%nat)) ∨
  (IsDir e = false ∧ ¬ sound dumpDir now e ∧
   ∃ more n, more ≠ [] ∧ Forall (λ msg, msg ≠ "") more ∧
     entry_step dumpDir now st e = ((st.1 ++ more)%list, (st.2 + n)%nat)).
Proof.
  unfold ProbeLiveness_entry, sound_file.
  destruct (IsDir e); [by left|]. right.
  assert (∀ msg, msg ≠ "" →
            ∃ more n, more ≠ [] ∧ Forall (λ msg, msg ≠ "") more ∧
              (append st.1 msg, st.2) = ((st.1 ++ more)%list, (st.2 + n)%nat))
    as Hone.
  { intros msg Hmsg. exists [msg], 0%nat. rewrite Nat.add_0_r.
    split; [done|]. split; [by repeat constructor|done]. }
  destruct (os_ReadFile _) as [raw|err].
  2: { right. split; [done|]. split; [tauto|]. by apply Hone. }
  destruct (Unmarshal raw) as [data|err].
  2: { right. split; [done|]. split; [tauto|]. by apply Hone. }
  set (keys := Keys (Payload data)).
  destruct (decide (length keys = 0)%nat) as [Hlen|Hlen].
  { right. split; [done|]. split; [|by apply Hone]. intros [Hne _].
    by destruct keys. }
  destruct (probe_loop (key_step now) (fresh_key now)
              (ProbeLiveness_key_ok now) (ProbeLiveness_key_bad now) keys st)
    as (more & -> & Hmore & Hall).
  destruct (decide (Forall (fresh_key now) keys)) as [Hf|Hf].
  - left. split; [done|]. split; [split; [by destruct keys|done]|].
    destruct (filter_all_length _ _ Hf) as [-> Hnone]. rewrite Hnone in Hmore.
    destruct more; [|done]. rewrite app_nil_r. exists (length keys).
    split; [destruct keys; [done|simpl; lia]|done].
  - right. split; [done|]. split; [tauto|]. exists more, (length (filter (fresh_key now) keys)).
    split; [|done]. apply (filter_not_all (fresh_key now)) in Hf.
    intros ->. by destruct (filter _ keys).
Qed.

Lemma ProbeLiveness_foldl dumpDir now entries st :
  ∃ more n,
    foldl (entry_step dumpDir now) st entries = ((st.1 ++ more)%list, (st.2 + n)%nat) ∧
    Forall (λ msg, msg ≠ "") more ∧
    (more = [] ↔ Forall (λ e, IsDir e = true ∨ sound dumpDir now e) entries) ∧
    (more = [] → (n = 0%nat ↔ Forall (λ e, IsDir e = true) entries)).
Proof.
  revert st. induction entries as [|e entries IH]; intros st; simpl.
  - exists [], 0%nat. rewrite app_nil_r, Nat.add_0_r. destruct st. done.
  - destruct (ProbeLiveness_entry_cases dumpDir now st e)
      as [[Hd ->]|[(Hd & Hs & n0 & Hn0 & ->)|(Hd & Hs & m0 & n0 & Hm0 & Hall0 & ->)]].
    + destruct (IH st) as (more & n & -> & Hall & Hiff & Hn). exists more, n.
      split; [done|]. split; [done|]. split.
      * rewrite Hiff. split; [by constructor; [left|]|by intros [_ ?]%Forall_cons_1].
      * intros Hm. rewrite (Hn Hm). split; [by constructor|by intros [_ ?]%Forall_cons_1].
    + destruct (IH (st.1, (st.2 + n0)%nat)) as (more & n & -> & Hall & Hiff & Hn).
      exists more, (n0 + n)%nat. simpl. split; [f_equal; lia|]. split; [done|]. split.
      * rewrite Hiff. split; [by constructor; [right|]|by intros [_ ?]%Forall_cons_1].
      * intros _. split; [lia|]. intros [He _]%Forall_cons_1. congruence.
    + destruct (IH ((st.1 ++ m0)%list, (st.2 + n0)%nat)) as (more & n & -> & Hall & _).
      exists (m0 ++ more)%list, (n0 + n)%nat. simpl. rewrite <- app_assoc.
      split; [f_equal; lia|]. split; [by apply Forall_app|].
      assert (m0 ++ more ≠ [])%list as Hne by (by destruct m0).
      split; [|done]. split; [done|]. intros [[?|?] _]%Forall_cons_1; [congruence|done].
Qed.

(** X14.  The liveness probe of the filesystem backend answers 200, with no
    body, exactly when the dump directory can be read, holds at least one
    entry that is not a directory, and every such entry can be read and
    parsed and holds at least one key, all its keys without
    [last_error] and dated less than ten seconds ago; otherwise it
    answers 503 with a body that is not empty. *)
Theorem filesystem_ProbeLiveness_every_key_fresh (dumpDir : string)
    (readDir : result (list DirEntry)) (now : Z) :
  let resp := ProbeLiveness Quote Duration_String IsDir filepath_Join os_ReadFile
                Unmarshal dumpDir readDir now in
  (http.StatusCode resp = http.StatusOK ↔
     ∃ entries, readDir = Ok entries ∧
       Exists (λ e, IsDir e = false) entries ∧
       Forall (λ e, IsDir e = true ∨ sound dumpDir now e) entries) ∧
  (http.StatusCode resp = http.StatusOK → resp = http.mkResponse http.StatusOK "" "") ∧
  (http.StatusCode resp ≠ http.StatusOK →
     http.StatusCode resp = http.StatusServiceUnavailable ∧ http.Body resp ≠ "").
Proof.
  intros resp. subst resp. unfold ProbeLiveness.
  set (errs := match readDir with Ok _ => _ | Err _ => _ end).
  assert ((errs = [] ↔
             ∃ entries, readDir = Ok entries ∧
               Exists (λ e, IsDir e = false) entries ∧
               Forall (λ e, IsDir e = true ∨ sound dumpDir now e) entries)
          ∧ Forall (λ msg, msg ≠ "") errs) as [Hiff Hall].
  { subst errs. destruct readDir as [entries|err].
    2: { split; [|by repeat constructor]. split; [done|]. by intros (? & ? & _). }
    destruct (decide (length entries = 0)%nat) as [Hlen|Hlen].
    { destruct entries; [|done]. split; [|by repeat constructor].
      split; [done|]. intros (? & [= <-] & Hex & _). by apply Exists_nil in Hex. }
    destruct (ProbeLiveness_foldl dumpDir now entries ([], 0%nat))
      as (more & n & -> & Hall & Hiff & Hn).
    simpl. destruct (decide (n = 0)%nat) as [->|Hpos].
    - split.
      + split; [by destruct more|]. intros (? & [= <-] & Hex & Hf).
        apply Hiff in Hf. pose proof (proj1 (Hn Hf) eq_refl) as Hd.
        apply Exists_exists in Hex as (e & Hin & He).
        rewrite Forall_forall in Hd. specialize (Hd e Hin). congruence.
      + unfold append. apply Forall_app. split; [done|]. by repeat constructor.
    - split; [|done]. split.
      + intros Hm. exists entries. split; [done|]. split; [|by apply Hiff].
        destruct (decide (Exists (λ e, IsDir e = false) entries)) as [|Hne]; [done|].
        exfalso. apply Hpos, (Hn Hm). apply Forall_forall. intros e Hin.
        destruct (IsDir e) eqn:Hd; [done|]. destruct Hne. apply Exists_exists. eauto.
      + intros (? & [= <-] & _ & ?). by apply Hiff. }
  destruct (decide (errs = [])) as [He|He].
  - rewrite He. split; [by rewrite <- Hiff|]. split; done.
  - destruct (probeResponse_unavailable errs He Hall) as (Hcode & _ & Hbody).
    rewrite Hcode. split; [|split; done]. split; [done|].
    intros Hex. by apply Hiff in Hex.
Qed.
End liveness.

End dump_probe_facts.

Module missing_file_facts.
Import types types_facts application scenarios.

Section missing.
Context `{SliceSort}.
Variable MarshalIndent_FileKeys : FileKeys → result string.
Variable MarshalIndent_FileStructure : FileStructure → result string.
Variable Sign : string → result string.

#[local] Abbreviation handleFileJSON :=
  (handleFileJSON MarshalIndent_FileKeys MarshalIndent_FileStructure).

Lemma handleFileJSON_nothing (GetByFile : string → result (list DomainKey * option string))
    (file : string) :
  file ≠ "" → GetByFile file = Ok ([], None) →
  handleFileJSON (mkApp GetByFile Sign) file
  = http.Error ("file " ++ file ++ " not found") http.StatusNotFound.
Proof.
  intros Hne Hget. unfold application.handleFileJSON.
  rewrite decide_False by done. cbn [storage_GetByFile]. rewrite Hget. done.
Qed.

(** X15.  A request for a file the backend knows nothing of.  The body is the
    same for every backend, [file ... not found]; the status is not: the
    memory, Redis and PostgreSQL backends return no record and no error,
    and the answer is 404; the filesystem backend turns the failed read
    into an error, and the answer is 500. *)
Theorem handleFileJSON_missing_file (file : string) :
  file ≠ "" →
  (∀ dumpDir (dir : gmap string string), dir !! file = None →
     handleFileJSON
       (mkApp (λ f, filesystem.GetByFile (filesystem.ReadFile dumpDir dir f) f) Sign) file
     = http.Error ("file " ++ file ++ " not found") http.StatusInternalServerError) ∧
  (∀ entries : list (string * DomainKey),
     (∀ e, e ∈ entries → File e.2 = file → Key e.2 = "") →
     handleFileJSON (mkApp (memory.GetByFile entries) Sign) file
     = http.Error ("file " ++ file ++ " not found") http.StatusNotFound) ∧
  (∀ time_Parse db visit,
     handleFileJSON
       (mkApp (redis.GetByFile time_Parse redis.healthy db [] visit) Sign) file
     = http.Error ("file " ++ file ++ " not found") http.StatusNotFound) ∧
  (∀ table : list postgres.Row,
     (∀ row, row ∈ table → postgres.file row = file → postgres.key row = "") →
     handleFileJSON (mkApp (postgres.GetByFile postgres.healthy table) Sign) file
     = http.Error ("file " ++ file ++ " not found") http.StatusNotFound).
Proof.
  intros Hne. split; [|split; [|split]].
  - intros dumpDir dir Hdir. unfold application.handleFileJSON.
    rewrite decide_False by done. cbn [storage_GetByFile].
    unfold filesystem.ReadFile. rewrite Hdir. done.
  - intros entries Hnone. apply handleFileJSON_nothing; [done|].
    unfold memory.GetByFile. rewrite memory_facts.GetByFile_foldl. simpl.
    rewrite redis_facts.filter_none; [done|].
    intros r Hr [Hf Hk]. apply list_elem_of_fmap in Hr as (e & -> & He).
    by apply Hk, (Hnone e).
  - intros time_Parse db visit. by apply handleFileJSON_nothing.
  - intros table Hnone. apply handleFileJSON_nothing; [done|].
    unfold postgres.GetByFile, postgres.query. simpl.
    rewrite redis_facts.filter_none; [done|].
    intros row Hrow [Hf Hk]. by apply Hk, Hnone.
Qed.
End missing.

Lemma handleFileJSON_missing_file_witness :
  application.handleFileJSON demo_marshal_keys demo_marshal_file
    (mkApp (λ f, filesystem.GetByFile (filesystem.ReadFile "/dump" ∅ f) f) Ok) "f.json"
  = http.Error "file f.json not found" http.StatusInternalServerError.
Proof.
  destruct (handleFileJSON_missing_file demo_marshal_keys demo_marshal_file Ok "f.json")
    as (Hfs & _).
  - discriminate.
  - by apply Hfs.
Defined.

End missing_file_facts.

Module redis_codec_facts.
Import types redis scenarios.

(** [digitsVal] reads the digits of a decimal numeral. *)
Lemma digitsVal_uint (d : Decimal.uint) (acc : Z) :
  digitsVal acc (NilEmpty.string_of_uint d) = Some (uint_val acc d).
Proof.
  revert acc. induction d; intros acc; [done|..].
  all: cbn [NilEmpty.string_of_uint digitsVal uint_val].
  all: match goal with |- context [signer.isDigit ?c] =>
         change (signer.isDigit c) with true;
         let v := eval vm_compute in (Z.of_nat (nat_of_ascii c) - 48) in
         change (Z.of_nat (nat_of_ascii c) - 48) with v
       end.
  all: cbn iota; rewrite IHd; do 2 f_equal; lia.
Qed.

Lemma uint_val_acc (d : Decimal.uint) (acc : positive) :
  uint_val (Z.pos acc) d = Z.pos (Pos.of_uint_acc d acc).
Proof.
  revert acc. induction d; intros acc; simpl; try done.
  all: try (rewrite <- IHd; f_equal; lia).
Qed.

Lemma uint_val_0 (d : Decimal.uint) : uint_val 0 d = Z.of_N (Pos.of_uint d).
Proof.
  induction d; simpl; try done.
  all: try (change 1 with (Z.pos 1); apply uint_val_acc).
  all: apply (uint_val_acc d).
Qed.

Lemma digitsVal_pos (p : positive) :
  digitsVal 0 (NilEmpty.string_of_uint (Pos.to_uint p)) = Some (Z.pos p).
Proof. by rewrite digitsVal_uint, uint_val_0, Unsigned.of_to. Qed.

Lemma string_of_pos p :
  ∃ c r, NilEmpty.string_of_uint (Pos.to_uint p) = String c r ∧
         NilZero.string_of_uint (Pos.to_uint p) = String c r ∧
         c ≠ "+"%char ∧ c ≠ "-"%char.
Proof.
  pose proof (Unsigned.to_uint_nonnil p) as Hne.
  destruct (Pos.to_uint p); [done|..]; simpl; eexists _, _; repeat split; done.
Qed.

Lemma ParseInt_FormatInt_clamp (n : Z) :
  ParseInt (FormatInt n) = Z.max (- 2 ^ 63) (Z.min (2 ^ 63 - 1) n).
Proof.
  unfold FormatInt. destruct n as [|p|p]; [done|..].
  - simpl. destruct (string_of_pos p) as (c & r & Hs & -> & Hplus & Hminus).
    unfold ParseInt.
    assert (match String c r with
            | String "+" r0 => (false, r0)
            | String "-" r0 => (true, r0)
            | _ => (false, String c r)
            end = (false, String c r)) as ->.
    { destruct c as [[] [] [] [] [] [] [] []]; done. }
    rewrite decide_False by done. rewrite <- Hs, digitsVal_pos. lia.
  - simpl. unfold ParseInt.
    destruct (string_of_pos p) as (c & r & Hs & Hs' & _). rewrite Hs'.
    rewrite decide_False by done. rewrite <- Hs, digitsVal_pos. lia.
Qed.

(** X16.  An [int64] written by the client as an argument of [HSET] and read
    back with [strconv.ParseInt] is the number that was written; a
    numeral beyond the range of [int64] is read as the nearest bound. *)
Theorem ParseInt_FormatInt (n : Z) :
  (- 2 ^ 63 ≤ n < 2 ^ 63 → ParseInt (FormatInt n) = n) ∧
  (2 ^ 63 ≤ n → ParseInt (FormatInt n) = 2 ^ 63 - 1) ∧
  (n < - 2 ^ 63 → ParseInt (FormatInt n) = - 2 ^ 63).
Proof.
  rewrite ParseInt_FormatInt_clamp.
  split; [|split]; intros Hn; lia.
Qed.

Example ParseInt_FormatInt_day : ParseInt (FormatInt (- 86400)) = - 86400.
Proof. vm_compute. reflexivity. Qed.

End redis_codec_facts.

Module redis_roundtrip_facts.
Import types redis scenarios.

Section roundtrip.
Variable formatDate : option Z → string.
Variable time_Parse : string → Z.
Variable stringmatch : string → string → bool.

#[local] Abbreviation SaveKeys := (SaveKeys formatDate FormatInt).
#[local] Abbreviation step := (SaveKeys_step formatDate FormatInt).
#[local] Abbreviation hashFields := (hashFields formatDate FormatInt).
#[local] Abbreviation written := (written formatDate FormatInt).
#[local] Abbreviation parseHash := (parseHash time_Parse).
#[local] Abbreviation GetByFile := (GetByFile time_Parse).

(** [HSET] with the seven fields of a record overwrites all of them. *)
Lemma HSet_written db k r : written r (HGetAll (HSet db k (hashFields r)) k).
Proof.
  intros name value Hin. unfold HSet, HGetAll, field.
  rewrite lookup_insert_eq. simpl.
  assert ((list_to_map (hashFields r) : gmap string string) !! name = Some value)
    as Hl.
  { apply elem_of_list_to_map_1; [|done].
    unfold redis.hashFields. simpl. apply (bool_decide_unpack _). vm_compute. done. }
  by rewrite (lookup_union_Some_l _ _ _ _ Hl).
Qed.

Lemma step_written appID conn st e r :
  written r (HGetAll st.2 (hashKey appID r)) →
  (Key e.2 ≠ "" → hashKey appID e.2 = hashKey appID r → e.2 = r) →
  written r (HGetAll (step appID conn st e).2 (hashKey appID r)).
Proof.
  intros Hw Huniq. unfold SaveKeys_step.
  destruct (decide (Key e.2 = "")) as [|Hk]; [done|].
  destruct (hset_err conn (hashKey appID e.2)) as [err|]; [done|]. simpl.
  destruct (decide (hashKey appID e.2 = hashKey appID r)) as [Hh|Hh].
  - rewrite (Huniq Hk Hh). apply HSet_written.
  - unfold HSet, HGetAll. by rewrite lookup_insert_ne.
Qed.

Lemma foldl_written appID conn entries st r :
  written r (HGetAll st.2 (hashKey appID r)) →
  (∀ e, e ∈ entries → Key e.2 ≠ "" → hashKey appID e.2 = hashKey appID r → e.2 = r) →
  written r (HGetAll (foldl (step appID conn) st entries).2 (hashKey appID r)).
Proof.
  revert st. induction entries as [|e entries IH]; intros st Hw Huniq; simpl; [done|].
  apply IH.
  - apply step_written; [done|]. apply Huniq. by left.
  - intros e' He'. apply Huniq. by right.
Qed.

Lemma foldl_writes appID conn entries st r :
  (∃ k, (k, r) ∈ entries) → Key r ≠ "" → hset_err conn (hashKey appID r) = None →
  (∀ e, e ∈ entries → Key e.2 ≠ "" → hashKey appID e.2 = hashKey appID r → e.2 = r) →
  written r (HGetAll (foldl (step appID conn) st entries).2 (hashKey appID r)).
Proof.
  revert st. induction entries as [|e entries IH];
    intros st [k Hin] Hk Hok Huniq; simpl.
  - by apply elem_of_nil in Hin.
  - apply elem_of_cons in Hin as [<-|Hin].
    + apply foldl_written; [|intros e' He'; apply Huniq; by right].
      unfold SaveKeys_step. simpl. rewrite decide_False by done. rewrite Hok. simpl.
      apply HSet_written.
    + apply IH; [by exists k|done..|]. intros e' He'. apply Huniq. by right.
Qed.

Lemma written_parseHash r data :
  written r data → - 2 ^ 63 ≤ Expire r < 2 ^ 63 →
  parseHash data
  = mkDomainKey "" (Some (time_Parse (formatDate (Date r)))) (DomainName r)
      (Expire r) "" (Fqdn r) (Key r) (LastError r).
Proof.
  intros Hw Hr. unfold redis.parseHash.
  rewrite (Hw "date" (formatDate (Date r))), (Hw "domainName" (DomainName r)),
    (Hw "expire" (FormatInt (Expire r))), (Hw "fqdn" (Fqdn r)), (Hw "key" (Key r)),
    (Hw "last_error" (LastError r)); unfold redis.hashFields; [|by repeat constructor..].
  rewrite redis_codec_facts.ParseInt_FormatInt_clamp. do 2 f_equal. lia.
Qed.

(** X17.  What is saved in Redis can be read back.  After [SaveKeys], the
    hash of a record that has a key and whose [HSET] succeeded, when no
    other record of the call shares its hash key, reads back as the
    record: the same name, domain name, pin, error and expiry (an
    [int64]), the date as the client wrote it and [time.Parse] reads it,
    the file and the application id left out; the [file] field of the
    hash is the file of the record. *)
Theorem redis_SaveKeys_read_back (appID : string) (conn : Conn)
    (db : gmap string (gmap string string)) (entries : list (string * DomainKey))
    (r : DomainKey) :
  (∃ k, (k, r) ∈ entries) → Key r ≠ "" →
  hset_err conn (hashKey appID r) = None →
  (∀ e, e ∈ entries → Key e.2 ≠ "" → hashKey appID e.2 = hashKey appID r → e.2 = r) →
  - 2 ^ 63 ≤ Expire r < 2 ^ 63 →
  let data := HGetAll (SaveKeys appID conn db entries).1 (hashKey appID r) in
  parseHash data
  = mkDomainKey "" (Some (time_Parse (formatDate (Date r)))) (DomainName r)
      (Expire r) "" (Fqdn r) (Key r) (LastError r) ∧
  field data "file" = File r.
Proof.
  intros Hin Hk Hok Huniq Hr data. subst data.
  assert (written r (HGetAll (SaveKeys appID conn db entries).1 (hashKey appID r)))
    as Hw.
  { unfold redis.SaveKeys.
    pose proof (foldl_writes appID conn entries ([], db) r Hin Hk Hok Huniq) as Hw.
    by destruct (foldl _ _ entries). }
  split; [by apply written_parseHash|].
  apply Hw. unfold redis.hashFields. by repeat constructor.
Qed.

(** X18.  What is saved in Redis is found again.  Take a record of the
    call that has a key, whose [HSET] succeeded, and whose hash key
    [file:fqdn:appID] no other record of the call that has a key shares
    (of several such records the hash keeps the one written last).
    After [SaveKeys], on a server whose [KEYS file:*] returns the keys
    that match and matches that hash key, and with reads that do not
    fail, [GetByFile] of the file of the record returns exactly one
    record of its name; that record has a key and expires no later than
    the record saved (it is another writer's record of the name when
    that one expires sooner). *)
Theorem redis_saved_record_is_found (appID : string) (conn : Conn)
    (db : gmap string (gmap string string)) (entries : list (string * DomainKey))
    (r : DomainKey) (reply : list string)
    (visit : gmap string DomainKey → list (string * DomainKey)) :
  (∃ k, (k, r) ∈ entries) → Key r ≠ "" →
  hset_err conn (hashKey appID r) = None →
  (∀ e, e ∈ entries → Key e.2 ≠ "" → hashKey appID e.2 = hashKey appID r → e.2 = r) →
  - 2 ^ 63 ≤ Expire r < 2 ^ 63 →
  let db' := (SaveKeys appID conn db entries).1 in
  stringmatch (File r ++ ":*") (hashKey appID r) = true →
  keys_reply stringmatch db' (File r ++ ":*") reply →
  (∀ m, visit m ≡ₚ map_to_list m) →
  ∃ recs found,
    GetByFile healthy db' reply visit (File r) = Ok (recs, None) ∧
    filter (λ x, Fqdn x = Fqdn r) recs = [found] ∧
    Key found ≠ "" ∧ Expire found ≤ Expire r.
Proof.
  intros Hin Hk Hok Huniq Hr db' Hglob Hreply Hvisit.
  assert (written r (HGetAll db' (hashKey appID r))) as Hw.
  { subst db'. unfold redis.SaveKeys.
    pose proof (foldl_writes appID conn entries ([], db) r Hin Hk Hok Huniq) as Hw.
    by destruct (foldl _ _ entries). }
  assert (field (HGetAll db' (hashKey appID r)) "key" = Key r) as Hkey
    by (apply Hw; unfold redis.hashFields; by repeat constructor).
  assert (field (HGetAll db' (hashKey appID r)) "fqdn" = Fqdn r) as Hfqdn
    by (apply Hw; unfold redis.hashFields; by repeat constructor).
  assert (field (HGetAll db' (hashKey appID r)) "expire" = FormatInt (Expire r))
    as Hexp by (apply Hw; unfold redis.hashFields; by repeat constructor).
  assert (stored stringmatch db' (File r) (Fqdn r) (HGetAll db' (hashKey appID r)))
    as Hstored.
  { exists (hashKey appID r). split; [|split; [done|]].
    - unfold HGetAll in *. destruct (db' !! hashKey appID r); [done|].
      simpl in Hkey. unfold field in Hkey. rewrite lookup_empty in Hkey. simpl in Hkey.
      congruence.
    - split; [congruence|done]. }
  destruct (redis_facts.redis_GetByFile_min_expire time_Parse stringmatch db' reply
              visit (File r) Hreply Hvisit) as (recs & Hget & Hkeys & Hbest).
  destruct (Hbest (Fqdn r)) as (found & Hfilter & _ & Hmin); [by eexists|].
  exists recs, found. split; [done|]. split; [done|]. split.
  - apply Hkeys.
    assert (found ∈ filter (λ x, Fqdn x = Fqdn r) recs) as Hf
      by (rewrite Hfilter; by left).
    by apply list_elem_of_filter in Hf as [_ ?].
  - pose proof (Hmin _ Hstored) as Hle.
    rewrite Hexp, redis_codec_facts.ParseInt_FormatInt_clamp in Hle. lia.
Qed.
End roundtrip.

Lemma singleton_unique (appID : string) (e : string * DomainKey) :
  e ∈ [("a.test", one_record)] → Key e.2 ≠ "" →
  hashKey appID e.2 = hashKey appID one_record → e.2 = one_record.
Proof. intros ->%list_elem_of_singleton _ _. reflexivity. Qed.

Lemma redis_SaveKeys_read_back_witness :
  parseHash (λ _, 0)
    (HGetAll (SaveKeys (λ _, "1970-01-01T00:00:00Z") FormatInt "app-1" healthy ∅
                [("a.test", one_record)]).1 (hashKey "app-1" one_record))
  = mkDomainKey "" (Some 0) "*.a.test" 1000 "" "a.test" "K1" "".
Proof.
  apply (redis_SaveKeys_read_back (λ _, "1970-01-01T00:00:00Z") (λ _, 0) "app-1" healthy
           ∅ [("a.test", one_record)] one_record).
  - exists "a.test". by left.
  - discriminate.
  - reflexivity.
  - apply singleton_unique.
  - change (Expire one_record) with 1000. lia.
Defined.

Lemma redis_saved_record_is_found_witness :
  ∃ recs found,
    GetByFile (λ _, 0) healthy
      (SaveKeys (λ _, "1970-01-01T00:00:00Z") FormatInt "app-1" healthy ∅
         [("a.test", one_record)]).1
      ["f.json:a.test:app-1"] map_to_list "f.json" = Ok (recs, None) ∧
    filter (λ x, Fqdn x = "a.test") recs = [found] ∧
    Key found ≠ "" ∧ Expire found ≤ 1000.
Proof.
  apply (redis_saved_record_is_found (λ _, "1970-01-01T00:00:00Z") (λ _, 0)
           (λ _ _, true) "app-1" healthy ∅ [("a.test", one_record)] one_record
           ["f.json:a.test:app-1"] map_to_list).
  - exists "a.test". by left.
  - discriminate.
  - reflexivity.
  - apply singleton_unique.
  - change (Expire one_record) with 1000. lia.
  - reflexivity.
  - vm_compute. reflexivity.
  - reflexivity.
Defined.

End redis_roundtrip_facts.

Module redis_probe_facts.
Import types redis probe_loop scenarios.

Section probes.
Variable Quote : string → string.
Variable Duration_String : Z → string.
Variable time_Parse : string → result Z.
Variable hgetall : string → result (gmap string string).

#[local] Abbreviation fresh_hash := (fresh_hash time_Parse).

Lemma size_0_field (data : gmap string string) name :
  size data = 0%nat → field data name = "".
Proof. intros ->%map_size_empty_inv. done. Qed.

Lemma hash_ProbeReadiness_step_ok st cmd :
  valid_hash cmd → ProbeReadiness_step st cmd = (st.1, S st.2).
Proof.
  destruct cmd as [data|]; [|done]. intros (Hk & Hf & Hd). simpl.
  destruct (decide (size data = 0)%nat) as [Hz|_].
  { by rewrite (size_0_field _ _ Hz) in Hk. }
  by rewrite !decide_False by done.
Qed.

Lemma hash_ProbeReadiness_step_bad st cmd :
  ¬ valid_hash cmd →
  ∃ msg, msg ≠ "" ∧ ProbeReadiness_step st cmd = (append st.1 msg, st.2).
Proof.
  destruct cmd as [data|err]; simpl.
  2: { intros _. eexists. split; [|done]. done. }
  intros Hn. repeat (destruct (decide _); [eexists; split; [|done]; done|]).
  destruct Hn. done.
Qed.

Lemma hash_ProbeLiveness_step_ok now st cmd :
  fresh_hash now cmd →
  ProbeLiveness_step Quote Duration_String time_Parse now st cmd = (st.1, S st.2).
Proof.
  destruct cmd as [data|]; [|done]. intros (Hk & He & Hd & Ht). simpl.
  destruct (decide (size data = 0)%nat) as [Hz|_].
  { by rewrite (size_0_field _ _ Hz) in Hk. }
  rewrite (decide_False (P := field data "key" = "")) by done.
  rewrite (decide_False (P := field data "last_error" ≠ "")) by (by intros ?).
  rewrite (decide_False (P := field data "date" = "")) by done.
  destruct (time_Parse (field data "date")) as [t|]; [|done].
  rewrite decide_False; [done|].
  unfold time_Sub, maxAge, maxDuration, minDuration, Second in *. lia.
Qed.

Lemma hash_ProbeLiveness_step_bad now st cmd :
  ¬ fresh_hash now cmd →
  ∃ msg, msg ≠ "" ∧
    ProbeLiveness_step Quote Duration_String time_Parse now st cmd
    = (append st.1 msg, st.2).
Proof.
  destruct cmd as [data|err]; simpl.
  2: { intros _. eexists. split; [|done]. done. }
  intros Hn.
  destruct (decide (size data = 0)%nat); [eexists; split; [|done]; done|].
  destruct (decide (field data "key" = "")); [eexists; split; [|done]; done|].
  destruct (decide (field data "last_error" ≠ "")) as [|He];
    [eexists; split; [|done]; done|].
  destruct (decide (field data "date" = "")); [eexists; split; [|done]; done|].
  destruct (time_Parse (field data "date")) as [t|err] eqn:Ht;
    [|eexists; split; [|done]; done].
  destruct (decide (maxAge ≤ time_Sub now t)) as [|Ha];
    [eexists; split; [|done]; done|].
  destruct Hn. split; [done|]. split.
  { by destruct (decide (field data "last_error" = "")). }
  split; [done|]. 
  unfold time_Sub, maxAge, maxDuration, minDuration, Second in *. lia.
Qed.

(** X19.  The readiness probe of the Redis backend answers 200, with no
    body, exactly when [KEYS *:*:appID] succeeds and returns at least one
    key, the pipeline runs, and every [HGETALL] returns a hash whose
    [key], [fqdn] and [date] fields are not empty; otherwise it answers
    503 with a body that is not empty. *)
Theorem redis_ProbeReadiness_all_valid (keys : result (list string))
    (exec : option string) :
  let resp := ProbeReadiness hgetall keys exec in
  (http.StatusCode resp = http.StatusOK ↔
     ∃ reply, keys = Ok reply ∧ reply ≠ [] ∧ exec = None ∧
       Forall (λ k, valid_hash (hgetall k)) reply) ∧
  (http.StatusCode resp = http.StatusOK → resp = http.mkResponse http.StatusOK "" "") ∧
  (http.StatusCode resp ≠ http.StatusOK →
     http.StatusCode resp = http.StatusServiceUnavailable ∧ http.Body resp ≠ "").
Proof.
  intros resp. subst resp. unfold ProbeReadiness.
  set (errs := match keys with Ok _ => _ | Err _ => _ end).
  assert ((errs = [] ↔
             ∃ reply, keys = Ok reply ∧ reply ≠ [] ∧ exec = None ∧
               Forall (λ k, valid_hash (hgetall k)) reply)
          ∧ Forall (λ msg, msg ≠ "") errs) as [Hiff Hall].
  { subst errs. destruct keys as [reply|err].
    2: { split; [|by repeat constructor]. split; [done|]. by intros (? & ? & _). }
    destruct (decide (length reply = 0)%nat) as [Hlen|Hlen].
    { destruct reply; [|done]. split; [|by repeat constructor].
      split; [done|]. by intros (? & [= <-] & ? & _). }
    destruct exec as [err|].
    { split; [|by repeat constructor]. split; [done|]. by intros (? & _ & _ & ? & _). }
    destruct (probe_verdict ProbeReadiness_step valid_hash (hgetall <$> reply)
                "no valid keys in redis" hash_ProbeReadiness_step_ok hash_ProbeReadiness_step_bad
                ltac:(done)) as [Hgood Hbad].
    set (errs := let '(errs, n) := foldl _ _ _ in _) in *.
    assert (hgetall <$> reply ≠ [] ∧ Forall valid_hash (hgetall <$> reply)
            ↔ Forall (λ k, valid_hash (hgetall k)) reply) as Hfmap.
    { rewrite Forall_fmap. split; [by intros [_ ?]|]. intros Hf. split; [|done].
      by destruct reply. }
    destruct (decide (Forall (λ k, valid_hash (hgetall k)) reply)) as [Hf|Hf].
    - rewrite Hgood by (by apply Hfmap). split; [|done]. split; [|done].
      intros _. exists reply. split; [done|]. split; [by destruct reply|done].
    - destruct Hbad as [Hne Hall]; [by rewrite Hfmap|]. split; [|done].
      split; [done|]. by intros (? & [= <-] & _ & _ & ?). }
  destruct (decide (errs = [])) as [He|He].
  - rewrite He. split; [by rewrite <- Hiff|]. split; done.
  - destruct (probeResponse_unavailable errs He Hall) as (Hcode & _ & Hbody).
    rewrite Hcode. split; [|split; done]. split; [done|].
    intros Hex. by apply Hiff in Hex.
Qed.

(** X20.  The liveness probe of the Redis backend answers 200, with no body,
    exactly when [KEYS *:*:appID] succeeds and returns at least one key,
    the pipeline runs, and every [HGETALL] returns a hash with a [key],
    no [last_error], and a [date] that parses and is less than ten
    seconds old; otherwise it answers 503 with a body that is not
    empty. *)
Theorem redis_ProbeLiveness_all_fresh (keys : result (list string))
    (exec : option string) (now : Z) :
  let resp := ProbeLiveness Quote Duration_String time_Parse hgetall keys exec now in
  (http.StatusCode resp = http.StatusOK ↔
     ∃ reply, keys = Ok reply ∧ reply ≠ [] ∧ exec = None ∧
       Forall (λ k, fresh_hash now (hgetall k)) reply) ∧
  (http.StatusCode resp = http.StatusOK → resp = http.mkResponse http.StatusOK "" "") ∧
  (http.StatusCode resp ≠ http.StatusOK →
     http.StatusCode resp = http.StatusServiceUnavailable ∧ http.Body resp ≠ "").
Proof.
  intros resp. subst resp. unfold ProbeLiveness.
  set (errs := match keys with Ok _ => _ | Err _ => _ end).
  assert ((errs = [] ↔
             ∃ reply, keys = Ok reply ∧ reply ≠ [] ∧ exec = None ∧
               Forall (λ k, fresh_hash now (hgetall k)) reply)
          ∧ Forall (λ msg, msg ≠ "") errs) as [Hiff Hall].
  { subst errs. destruct keys as [reply|err].
    2: { split; [|by repeat constructor]. split; [done|]. by intros (? & ? & _). }
    destruct (decide (length reply = 0)%nat) as [Hlen|Hlen].
    { destruct reply; [|done]. split; [|by repeat constructor].
      split; [done|]. by intros (? & [= <-] & ? & _). }
    destruct exec as [err|].
    { split; [|by repeat constructor]. split; [done|]. by intros (? & _ & _ & ? & _). }
    destruct (probe_verdict (ProbeLiveness_step Quote Duration_String time_Parse now)
                (fresh_hash now) (hgetall <$> reply) "no fresh keys in redis"
                (hash_ProbeLiveness_step_ok now) (hash_ProbeLiveness_step_bad now)
                ltac:(done)) as [Hgood Hbad].
    set (errs := let '(errs, n) := foldl _ _ _ in _) in *.
    assert (hgetall <$> reply ≠ [] ∧ Forall (fresh_hash now) (hgetall <$> reply)
            ↔ Forall (λ k, fresh_hash now (hgetall k)) reply) as Hfmap.
    { rewrite Forall_fmap. split; [by intros [_ ?]|]. intros Hf. split; [|done].
      by destruct reply. }
    destruct (decide (Forall (λ k, fresh_hash now (hgetall k)) reply)) as [Hf|Hf].
    - rewrite Hgood by (by apply Hfmap). split; [|done]. split; [|done].
      intros _. exists reply. split; [done|]. split; [by destruct reply|done].
    - destruct Hbad as [Hne Hall]; [by rewrite Hfmap|]. split; [|done].
      split; [done|]. by intros (? & [= <-] & _ & _ & ?). }
  destruct (decide (errs = [])) as [He|He].
  - rewrite He. split; [by rewrite <- Hiff|]. split; done.
  - destruct (probeResponse_unavailable errs He Hall) as (Hcode & _ & Hbody).
    rewrite Hcode. split; [|split; done]. split; [done|].
    intros Hex. by apply Hiff in Hex.
Qed.
End probes.

End redis_probe_facts.

Module postgres_save_facts.
Import types postgres scenarios.

Lemma upsert_elem new table row :
  row ∈ upsert new table → row = new ∨ row ∈ table.
Proof.
  induction table as [|r table IH]; simpl.
  - intros ->%list_elem_of_singleton. by left.
  - destruct (decide (index r = index new)).
    + intros [->|?]%elem_of_cons; [by left|right; by right].
    + intros [->|Hin]%elem_of_cons; [right; by left|].
      destruct (IH Hin); [by left|right; by right].
Qed.

Lemma upsert_new new table : new ∈ upsert new table.
Proof.
  induction table as [|r table IH]; simpl; [by left|].
  destruct (decide _); [by left|by right].
Qed.

Lemma upsert_other new table row :
  row ∈ table → index row ≠ index new → row ∈ upsert new table.
Proof.
  induction table as [|r table IH]; simpl; [by intros ?%elem_of_nil|].
  intros [->|Hin]%elem_of_cons Hne.
  - rewrite decide_False by done. by left.
  - destruct (decide _); right; [done|by apply IH].
Qed.

Lemma upsert_index new table :
  ∀ i, i ∈ index <$> upsert new table ↔ i = index new ∨ i ∈ index <$> table.
Proof.
  intros i. induction table as [|r table IH]; simpl.
  - rewrite list_elem_of_singleton. set_solver.
  - destruct (decide (index r = index new)) as [He|Hne]; simpl.
    + rewrite !elem_of_cons, He. tauto.
    + rewrite !elem_of_cons, IH. tauto.
Qed.

Lemma upsert_NoDup new table :
  NoDup (index <$> table) → NoDup (index <$> upsert new table).
Proof.
  induction table as [|r table IH]; simpl; intros Hnd.
  - apply NoDup_singleton.
  - apply NoDup_cons in Hnd as [Hr Hnd].
    destruct (decide (index r = index new)) as [He|Hne]; simpl.
    + apply NoDup_cons. by rewrite <- He.
    + apply NoDup_cons. split; [|by apply IH].
      rewrite upsert_index. intros [?|?]; done.
Qed.

(** With the unique index in place, the row of an index is the new row
    after an upsert at that index. *)
Lemma upsert_unique new table row :
  NoDup (index <$> table) → row ∈ upsert new table → index row = index new →
  row = new.
Proof.
  induction table as [|r table IH]; simpl; intros Hnd.
  - by intros ->%list_elem_of_singleton.
  - apply NoDup_cons in Hnd as [Hr Hnd].
    destruct (decide (index r = index new)) as [He|Hne].
    + intros [->|Hin]%elem_of_cons Hi; [done|]. destruct Hr. rewrite He, <- Hi.
      by apply list_elem_of_fmap_2.
    + intros [->|Hin]%elem_of_cons Hi; [done|by apply IH].
Qed.

Section save.
Variable timestamptz : Z → Z.

#[local] Abbreviation toRow := (toRow timestamptz).
#[local] Abbreviation exec_all := (exec_all timestamptz).
#[local] Abbreviation SaveKeys := (SaveKeys timestamptz).

Lemma exec_all_ok appID conn entries tx :
  (∃ tx', exec_all appID conn entries tx = Ok tx') ↔
  ∀ e, e ∈ entries → exec_err conn e.2 = None.
Proof.
  revert tx. induction entries as [|e entries IH]; intros tx; simpl.
  - split; [|by eexists]. intros _ e He. by apply elem_of_nil in He.
  - destruct (exec_err conn e.2) as [err|] eqn:He.
    + split; [by intros [? ?]|]. intros Hall. specialize (Hall e ltac:(by left)).
      congruence.
    + rewrite IH. split.
      * intros Hall e' [->|?]%elem_of_cons; [done|by apply Hall].
      * intros Hall e' He'. apply Hall. by right.
Qed.

Lemma exec_all_rows appID conn entries tx tx' :
  exec_all appID conn entries tx = Ok tx' →
  (∀ row, row ∈ tx' → row ∈ tx ∨ ∃ e, e ∈ entries ∧ row = toRow appID e.2) ∧
  (∀ e, e ∈ entries → index (toRow appID e.2) ∈ index <$> tx') ∧
  (∀ row, row ∈ tx → (∀ e, e ∈ entries → index row ≠ index (toRow appID e.2)) →
     row ∈ tx') ∧
  (NoDup (index <$> tx) → NoDup (index <$> tx')) ∧
  (∀ i, i ∈ index <$> tx → i ∈ index <$> tx').
Proof.
  revert tx. induction entries as [|e entries IH]; intros tx; simpl.
  - intros [= <-]. split; [by left|]. split; [by intros e He; apply elem_of_nil in He|].
    done.
  - destruct (exec_err conn e.2); [done|]. intros Hex.
    destruct (IH _ Hex) as (Hfrom & Hhas & Hkeep & Hnd & Hmono).
    split; [|split; [|split; [|split]]].
    + intros row Hrow. destruct (Hfrom row Hrow) as [Hin|(e' & He' & ->)].
      * apply upsert_elem in Hin as [->|?]; [|by left].
        right. exists e. split; [by left|done].
      * right. exists e'. split; [by right|done].
    + intros e' [->|He']%elem_of_cons; [|by apply Hhas].
      apply Hmono, upsert_index. by left.
    + intros row Hrow Hother. apply Hkeep.
      * apply upsert_other; [done|]. apply Hother. by left.
      * intros e' He'. apply Hother. by right.
    + intros Hn. by apply Hnd, upsert_NoDup.
    + intros i Hi. apply Hmono, upsert_index. by right.
Qed.

(** With the unique index in place, the last record saved at an index
    is the row of that index. *)
Lemma exec_all_last appID conn entries tx tx' e :
  exec_all appID conn entries tx = Ok tx' → NoDup (index <$> tx) →
  e ∈ entries →
  (∀ e', e' ∈ entries → index (toRow appID e'.2) = index (toRow appID e.2) →
         e'.2 = e.2) →
  ∀ row, row ∈ tx' → index row = index (toRow appID e.2) → row = toRow appID e.2.
Proof.
  revert tx. induction entries as [|e0 entries IH]; intros tx; simpl.
  - intros _ _ He. by apply elem_of_nil in He.
  - destruct (exec_err conn e0.2); [done|]. intros Hex Hnd Hin Huniq row Hrow Hi.
    destruct (decide (e ∈ entries)) as [He|He].
    + apply (IH _ Hex); [by apply upsert_NoDup|done| |done..].
      intros e' He'. apply Huniq. by right.
    + apply elem_of_cons in Hin as [->|?]; [|done].
      destruct (exec_all_rows _ _ _ _ _ Hex) as (Hfrom & _).
      destruct (Hfrom row Hrow) as [Hup|(e' & He' & ->)].
      * by apply (upsert_unique _ tx).
      * f_equal. apply Huniq; [by right|done].
Qed.

(** X21.  [SaveKeys] of the PostgreSQL backend is all or nothing, and an
    upsert.  When it returns an error (the transaction cannot begin, the
    statement cannot be prepared, an insert fails, or the commit fails)
    the table is as it was.  It returns no error exactly when none of
    these fails, and then: every row of the table was there before or is
    the row of an input record; every input record, with a key or
    without, has a row at its index [(app_id, file, fqdn)], which is the
    row of the record when no other input record shares the index; rows
    at other indexes are untouched; and the index stays unique. *)
Theorem postgres_SaveKeys_upserts_or_rolls_back (appID : string) (conn : SaveConn)
    (table : list Row) (entries : list (string * DomainKey)) :
  NoDup (index <$> table) →
  let after := SaveKeys appID conn table entries in
  (after.2 ≠ None → after.1 = table) ∧
  (after.2 = None ↔
     begin_err conn = None ∧ prepare_err conn = None ∧ commit_err conn = None ∧
     ∀ e, e ∈ entries → exec_err conn e.2 = None) ∧
  (after.2 = None →
     NoDup (index <$> after.1) ∧
     (∀ row, row ∈ after.1 → row ∈ table ∨ ∃ e, e ∈ entries ∧ row = toRow appID e.2) ∧
     (∀ e, e ∈ entries →
        (∃ row, row ∈ after.1 ∧ index row = (appID, File e.2, Fqdn e.2)) ∧
        ((∀ e', e' ∈ entries → File e'.2 = File e.2 → Fqdn e'.2 = Fqdn e.2 →
                e'.2 = e.2) →
         toRow appID e.2 ∈ after.1)) ∧
     (∀ row, row ∈ table →
        (∀ e, e ∈ entries → index row ≠ (appID, File e.2, Fqdn e.2)) →
        row ∈ after.1)).
Proof.
  intros Hnd after. subst after. unfold postgres.SaveKeys.
  destruct (begin_err conn) as [err|] eqn:Hb.
  { simpl. split; [done|]. split; [|done]. split; [done|]. by intros (? & _). }
  destruct (prepare_err conn) as [err|] eqn:Hp.
  { simpl. split; [done|]. split; [|done]. split; [done|]. by intros (_ & ? & _). }
  destruct (exec_all appID conn entries table) as [tx|err] eqn:Hex.
  2: { simpl. split; [done|]. split; [|done]. split; [done|].
       intros (_ & _ & _ & Hall).
       destruct (proj2 (exec_all_ok appID conn entries table) Hall) as [tx Htx].
       congruence. }
  destruct (commit_err conn) as [err|] eqn:Hc.
  { simpl. split; [done|]. split; [|done]. split; [done|]. by intros (_ & _ & ? & _). }
  simpl. split; [done|].
  destruct (exec_all_rows _ _ _ _ _ Hex) as (Hfrom & Hhas & Hkeep & Hkeepnd & _).
  split.
  { split; [|done]. intros _. repeat split; try done.
    apply (exec_all_ok appID conn entries table). by exists tx. }
  intros _. split; [by apply Hkeepnd|]. split; [done|]. split; [|done].
  intros e He.
  assert (∃ row, row ∈ tx ∧ index row = (appID, File e.2, Fqdn e.2))
    as (row & Hrow & Hi).
  { specialize (Hhas e He). apply list_elem_of_fmap in Hhas as (row & Hi & Hrow).
    exists row. split; [done|]. by rewrite <- Hi. }
  split; [by exists row|]. intros Huniq.
  assert (row = toRow appID e.2) as <-; [|done].
  apply (exec_all_last appID conn entries table tx e Hex Hnd He); [|done..].
  intros e' He' [= Hf Hq]. by apply Huniq.
Qed.

Lemma NoDup_index_inj (l : list Row) a b :
  NoDup (index <$> l) → a ∈ l → b ∈ l → index a = index b → a = b.
Proof.
  induction l as [|r l IH]; simpl; intros Hnd Ha Hb Hi.
  - by apply elem_of_nil in Ha.
  - apply NoDup_cons in Hnd as [Hr Hnd].
    apply elem_of_cons in Ha as [->|Ha]; apply elem_of_cons in Hb as [->|Hb].
    + done.
    + destruct Hr. rewrite Hi. by apply list_elem_of_fmap_2.
    + destruct Hr. rewrite <- Hi. by apply list_elem_of_fmap_2.
    + by apply IH.
Qed.

(** X22.  What is saved in PostgreSQL is found again.  Take a table that
    meets its unique index, and a record of the call that has a key and
    whose file and name no other record of the call shares, with a key
    or without (of several such records the row keeps the one written
    last).  After a [SaveKeys] on which nothing fails, and with reads
    that do not fail, [GetByFile] of the file of the record returns
    exactly one record of its name; that record has a key and expires
    no later than the record saved, and it is the record saved (its date
    at the resolution of the column, its file and application id left
    out) when no other application has a row with a key for that file
    and name. *)
Theorem postgres_saved_record_is_found (appID : string) (table : list Row)
    (entries : list (string * DomainKey)) (e : string * DomainKey) :
  NoDup (index <$> table) → e ∈ entries → Key e.2 ≠ "" →
  (∀ e', e' ∈ entries → File e'.2 = File e.2 → Fqdn e'.2 = Fqdn e.2 → e'.2 = e.2) →
  let table' := (SaveKeys appID working table entries).1 in
  ∃ recs found,
    GetByFile healthy table' (File e.2) = Ok (recs, None) ∧
    filter (λ x, Fqdn x = Fqdn e.2) recs = [found] ∧
    Key found ≠ "" ∧ Expire found ≤ Expire e.2 ∧
    ((∀ row, row ∈ table' → file row = File e.2 → fqdn row = Fqdn e.2 →
             key row ≠ "" → app_id row = appID) →
     found = mkDomainKey "" (timestamptz <$> Date e.2) (DomainName e.2) (Expire e.2) ""
               (Fqdn e.2) (Key e.2) (LastError e.2)).
Proof.
  intros Hnd He Hk Huniq table'.
  assert (∃ tx, exec_all appID working entries table = Ok tx ∧ table' = tx)
    as (tx & Hex & Htx).
  { destruct (proj2 (exec_all_ok appID working entries table)) as [tx Htx]; [done|].
    exists tx. split; [done|]. subst table'. unfold postgres.SaveKeys. simpl.
    by rewrite Htx. }
  destruct (exec_all_rows _ _ _ _ _ Hex) as (_ & Hhas & _ & Hkeepnd & _).
  assert (toRow appID e.2 ∈ tx) as Hrow.
  { specialize (Hhas e He). apply list_elem_of_fmap in Hhas as (row & Hi & Hin).
    assert (row = toRow appID e.2) as <-; [|done].
    apply (exec_all_last appID working entries table tx e Hex Hnd He); [|done..].
    intros e' He' [= Hf Hq]. by apply Huniq. }
  rewrite Htx. clear Htx table'.
  destruct (postgres_facts.postgres_GetByFile_min_expire tx (File e.2))
    as (recs & Hget & Hkeys & Hbest).
  destruct (Hbest (Fqdn e.2)) as (found & Hfilter & (row & Hstored & ->) & Hmin).
  { exists (toRow appID e.2). done. }
  exists recs, (scanRow row). split; [done|]. split; [done|]. split; [|split].
  - destruct Hstored as (_ & _ & ? & _). done.
  - apply (Hmin (toRow appID e.2)). done.
  - intros Hown. destruct Hstored as (Hin & Hf & Hkey & Hq).
    assert (row = toRow appID e.2) as ->; [|done].
    apply (NoDup_index_inj tx); [by apply Hkeepnd|done..|].
    unfold index. simpl. by rewrite (Hown row Hin Hf Hq Hkey), Hf, Hq.
Qed.
End save.

Lemma postgres_SaveKeys_upserts_or_rolls_back_witness :
  (SaveKeys (λ t, t) "app-1"
     (mkSaveConn None None (λ _, Some "pq: deadlock detected") None)
     rotation_table [("a.test", one_record)]).1 = rotation_table.
Proof.
  destruct (postgres_SaveKeys_upserts_or_rolls_back (λ t, t) "app-1"
              (mkSaveConn None None (λ _, Some "pq: deadlock detected") None)
              rotation_table [("a.test", one_record)]) as (Hfail & _).
  - apply (bool_decide_unpack _). vm_compute. exact I.
  - apply Hfail. discriminate.
Defined.

Lemma postgres_saved_record_is_found_witness :
  ∃ recs found,
    GetByFile healthy (SaveKeys (λ t, t) "app-3" working [] [("a.test", one_record)]).1
      "f.json" = Ok (recs, None) ∧
    filter (λ x, Fqdn x = "a.test") recs = [found] ∧
    Key found ≠ "" ∧ Expire found ≤ 1000.
Proof.
  destruct (postgres_saved_record_is_found (λ t, t) "app-3" []
              [("a.test", one_record)] ("a.test", one_record))
    as (recs & found & Hget & Hfilter & Hkey & Hexp & _).
  - constructor.
  - by left.
  - discriminate.
  - intros e' ->%list_elem_of_singleton _ _. reflexivity.
  - exists recs, found. split; [exact Hget|]. split; [exact Hfilter|].
    split; [exact Hkey|exact Hexp].
Defined.

End postgres_save_facts.

Module postgres_probe_facts.
Import types postgres probe_loop scenarios.

Section probes.
Variable Quote : string → string.
Variable Duration_String : Z → string.
Variable scan : Row → option string.

#[local] Abbreviation valid_row := (valid_row scan).
#[local] Abbreviation fresh_row := (fresh_row scan).

Lemma row_ProbeReadiness_step_ok st r :
  valid_row r → ProbeReadiness_step Quote scan st r = (st.1, S st.2).
Proof.
  intros (Hs & Hk & Hd). unfold ProbeReadiness_step. rewrite Hs.
  rewrite decide_False by done. by destruct (date r).
Qed.

Lemma row_ProbeReadiness_step_bad st r :
  ¬ valid_row r →
  ∃ msg, msg ≠ "" ∧ ProbeReadiness_step Quote scan st r = (append st.1 msg, st.2).
Proof.
  intros Hn. unfold ProbeReadiness_step.
  destruct (scan r) as [err|] eqn:Hs; [eexists; split; [|done]; done|].
  destruct (decide (key r = "")); [eexists; split; [|done]; done|].
  destruct (date r) eqn:Hd; [|eexists; split; [|done]; done].
  destruct Hn. split; [done|]. split; [done|]. by rewrite Hd.
Qed.

Lemma row_ProbeLiveness_step_ok now st r :
  fresh_row now r →
  ProbeLiveness_step Quote Duration_String scan now st r = (st.1, S st.2).
Proof.
  intros (Hs & Hk & He & Hd). unfold ProbeLiveness_step. rewrite Hs.
  rewrite (decide_False (P := key r = "")) by done.
  rewrite (decide_False (P := default "" (last_error r) ≠ "")) by (by intros ?).
  destruct (date r) as [d|]; [|done]. rewrite decide_False; [done|].
  unfold time_Sub, maxAge, maxDuration, minDuration, Second in *. lia.
Qed.

Lemma row_ProbeLiveness_step_bad now st r :
  ¬ fresh_row now r →
  ∃ msg, msg ≠ "" ∧
    ProbeLiveness_step Quote Duration_String scan now st r = (append st.1 msg, st.2).
Proof.
  intros Hn. unfold ProbeLiveness_step.
  destruct (scan r) as [err|] eqn:Hs; [eexists; split; [|done]; done|].
  destruct (decide (key r = "")); [eexists; split; [|done]; done|].
  destruct (decide (default "" (last_error r) ≠ "")) as [|He];
    [eexists; split; [|done]; done|].
  destruct (date r) as [d|] eqn:Hd; [|eexists; split; [|done]; done].
  destruct (decide (maxAge ≤ time_Sub now d)) as [|Ha];
    [eexists; split; [|done]; done|].
  destruct Hn. split; [done|]. split; [done|]. split.
  { by destruct (decide (default "" (last_error r) = "")). }
  rewrite Hd. unfold time_Sub, maxAge, maxDuration, minDuration, Second in *. lia.
Qed.

(** The diagnostics of a probe of the PostgreSQL backend, for a loop
    that counts the rows that are [ok]. *)
Lemma probe_rows_verdict (step : list string * nat → Row → list string * nat)
    (ok : Row → Prop) `{∀ r, Decision (ok r)} (rows : result (list Row))
    (rows_err : option string) (none : string) :
  (∀ st r, ok r → step st r = (st.1, S st.2)) →
  (∀ st r, ¬ ok r → ∃ msg, msg ≠ "" ∧ step st r = (append st.1 msg, st.2)) →
  none ≠ "" →
  let errs :=
    match rows with
    | Err err => ["failed to query postgres: " ++ err]
    | Ok rs =>
        let '(errs, n) := foldl step ([], 0%nat) rs in
        match rows_err with
        | Some err => append errs ("rows error: " ++ err)
        | None => if decide (n = 0)%nat then append errs none else errs
        end
    end in
  (errs = [] ↔ ∃ rs, rows = Ok rs ∧ rows_err = None ∧ rs ≠ [] ∧ Forall ok rs) ∧
  Forall (λ msg, msg ≠ "") errs.
Proof.
  intros Hok Hbad Hnone errs. subst errs.
  destruct rows as [rs|err].
  2: { split; [|by repeat constructor]. split; [done|]. by intros (? & ? & _). }
  destruct rows_err as [err|].
  { destruct (probe_loop step ok Hok Hbad rs ([], 0%nat)) as (more & -> & _ & Hall).
    simpl. unfold append. split.
    - split; [by destruct more|]. by intros (? & _ & ? & _).
    - apply Forall_app. split; [done|]. by repeat constructor. }
  destruct (probe_verdict step ok rs none Hok Hbad Hnone) as [Hgood Hbad'].
  set (errs := let '(errs, n) := foldl _ _ _ in _) in *.
  destruct (decide (rs ≠ [] ∧ Forall ok rs)) as [Hc|Hc].
  - rewrite (Hgood Hc). split; [|done]. split; [|done]. intros _.
    exists rs. destruct Hc. done.
  - destruct (Hbad' Hc) as [Hne Hall]. split; [|done]. split; [done|].
    intros (? & [= <-] & _ & ? & ?). by destruct Hc.
Qed.

Lemma probe_rows_Forall (ok : Row → Prop) table appID rs :
  rs ≡ₚ probe_rows table appID →
  (rs ≠ [] ∧ Forall ok rs ↔
     (∃ row, row ∈ table ∧ app_id row = appID ∧ key row ≠ "") ∧
     (∀ row, row ∈ table → app_id row = appID → key row ≠ "" → ok row)).
Proof.
  intros Hperm.
  assert (∀ row, row ∈ rs ↔ row ∈ table ∧ app_id row = appID ∧ key row ≠ "") as Hin.
  { intros row. rewrite Hperm. unfold probe_rows. rewrite list_elem_of_filter. tauto. }
  rewrite Forall_forall. split.
  - intros [Hne Hall]. split.
    + destruct rs as [|row rs']; [done|]. exists row. apply Hin. by left.
    + intros row ? ? ?. apply Hall, Hin. done.
  - intros [(row & Hrow) Hall]. split.
    + intros ->. apply Hin in Hrow. by apply elem_of_nil in Hrow.
    + intros row' Hr. apply Hin in Hr as (? & ? & ?). by apply Hall.
Qed.

(** X23.  The readiness probe of the PostgreSQL backend answers 200, with no
    body, exactly when the query and the iteration succeed and return at
    least one row, and every row scans and has a key and a date;
    otherwise it answers 503 with a body that is not empty.  The rows
    are those of the application itself that have a key: the rows of
    other applications and the rows without a key play no part. *)
Theorem postgres_ProbeReadiness_all_valid (rows : result (list Row))
    (rows_err : option string) :
  let resp := ProbeReadiness Quote scan rows rows_err in
  (http.StatusCode resp = http.StatusOK ↔
     ∃ rs, rows = Ok rs ∧ rows_err = None ∧ rs ≠ [] ∧ Forall valid_row rs) ∧
  (∀ table appID rs, rows = Ok rs → rs ≡ₚ probe_rows table appID → rows_err = None →
     (http.StatusCode resp = http.StatusOK ↔
        (∃ row, row ∈ table ∧ app_id row = appID ∧ key row ≠ "") ∧
        (∀ row, row ∈ table → app_id row = appID → key row ≠ "" →
                scan row = None ∧ date row ≠ None))) ∧
  (http.StatusCode resp = http.StatusOK → resp = http.mkResponse http.StatusOK "" "") ∧
  (http.StatusCode resp ≠ http.StatusOK →
     http.StatusCode resp = http.StatusServiceUnavailable ∧ http.Body resp ≠ "").
Proof.
  intros resp. subst resp. unfold ProbeReadiness.
  destruct (probe_rows_verdict (ProbeReadiness_step Quote scan) valid_row rows rows_err
              "no valid keys found in postgres" row_ProbeReadiness_step_ok
              row_ProbeReadiness_step_bad ltac:(done)) as [Hiff Hall].
  set (errs := match rows with Ok _ => _ | Err _ => _ end) in *.
  assert (http.StatusCode (http.probeResponse errs) = http.StatusOK ↔ errs = [])
    as Hcode by apply probeResponse_ok.
  split; [by rewrite Hcode|]. split.
  - intros table appID rs Hrows Hperm Herr. rewrite Hcode, Hiff. split.
    + intros (rs' & Heq & _ & Hne & Hf). rewrite Hrows in Heq. injection Heq as <-.
      destruct (proj1 (probe_rows_Forall valid_row table appID rs Hperm) (conj Hne Hf))
        as [Hex Hrow].
      split; [done|]. intros row Hin Happ Hkey.
      destruct (Hrow row Hin Happ Hkey) as (? & _ & ?). done.
    + intros [Hex Hrow].
      destruct (proj2 (probe_rows_Forall valid_row table appID rs Hperm)) as [Hne Hf].
      { split; [done|]. intros row Hin Happ Hkey.
        destruct (Hrow row Hin Happ Hkey). split; [done|]. split; done. }
      exists rs. done.
  - destruct (decide (errs = [])) as [He|He].
    + rewrite He. split; done.
    + destruct (probeResponse_unavailable errs He Hall) as (Hc & _ & Hbody).
      rewrite Hc. split; done.
Qed.

(** X24.  The liveness probe of the PostgreSQL backend answers 200, with no
    body, exactly when the query and the iteration succeed and return at
    least one row, and every row scans, has a key, no [last_error] and a
    date less than ten seconds old; otherwise it answers 503 with a body
    that is not empty.  Whenever it answers 200, so does the readiness
    probe on the same rows. *)
Theorem postgres_ProbeLiveness_all_fresh (rows : result (list Row))
    (rows_err : option string) (now : Z) :
  let resp := ProbeLiveness Quote Duration_String scan rows rows_err now in
  (http.StatusCode resp = http.StatusOK ↔
     ∃ rs, rows = Ok rs ∧ rows_err = None ∧ rs ≠ [] ∧ Forall (fresh_row now) rs) ∧
  (http.StatusCode resp = http.StatusOK →
     resp = http.mkResponse http.StatusOK "" "" ∧
     ProbeReadiness Quote scan rows rows_err = http.mkResponse http.StatusOK "" "") ∧
  (http.StatusCode resp ≠ http.StatusOK →
     http.StatusCode resp = http.StatusServiceUnavailable ∧ http.Body resp ≠ "").
Proof.
  intros resp. subst resp. unfold ProbeLiveness, ProbeReadiness.
  destruct (probe_rows_verdict (ProbeLiveness_step Quote Duration_String scan now)
              (fresh_row now) rows rows_err "no fresh keys found in postgres"
              (row_ProbeLiveness_step_ok now) (row_ProbeLiveness_step_bad now) ltac:(done))
    as [Hiff Hall].
  destruct (probe_rows_verdict (ProbeReadiness_step Quote scan) valid_row rows rows_err
              "no valid keys found in postgres" row_ProbeReadiness_step_ok
              row_ProbeReadiness_step_bad ltac:(done)) as [Hready _].
  set (errs := match rows with Ok _ => _ | Err _ => _ end) in Hiff, Hall |- *.
  set (errs' := match rows with Ok _ => _ | Err _ => _ end) in Hready |- *.
  assert (http.StatusCode (http.probeResponse errs) = http.StatusOK ↔ errs = [])
    as Hcode by apply probeResponse_ok.
  split; [by rewrite Hcode|]. split.
  - rewrite Hcode. intros He. rewrite He. split; [done|].
    apply Hiff in He as (rs & Hrows & Herr & Hne & Hf).
    assert (errs' = []) as ->; [|done].
    apply Hready. exists rs. split; [done|]. split; [done|]. split; [done|].
    eapply Forall_impl; [exact Hf|]. intros r (? & ? & _ & Hd).
    split; [done|]. split; [done|]. by destruct (date r).
  - destruct (decide (errs = [])) as [He|He].
    + rewrite He. done.
    + destruct (probeResponse_unavailable errs He Hall) as (Hc & _ & Hbody).
      rewrite Hc. split; done.
Qed.
End probes.

Lemma postgres_readiness_scoped_example :
  ProbeReadiness demo_Quote (λ _, None)
    (Ok (probe_rows rotation_table "app-2")) None = http.mkResponse http.StatusOK "" ""
  ∧ http.StatusCode
      (ProbeReadiness demo_Quote (λ _, None) (Ok (probe_rows rotation_table "app-3")) None)
    = http.StatusServiceUnavailable.
Proof. split; vm_compute; reflexivity. Qed.

End postgres_probe_facts.

Module gauge_facts.
Import types metrics keys scenarios.

Lemma Collect_expires_unchanged c errs exps :
  expires (Collect c errs exps).2 = expires c.
Proof.
  unfold Collect. rewrite metrics_facts.Collect_errors_foldl. done.
Qed.

Lemma Collect_sent_expire c errs exps key fqdn v :
  exps ≡ₚ map_to_list (expires c) →
  ssl_pinning_expire key fqdn v ∈ (Collect c errs exps).1 ↔
  expires c !! (key, fqdn) = Some v.
Proof.
  intros Hperm. rewrite metrics_facts.Collect_sent, elem_of_app. split.
  - intros [Hin|Hin].
    + by apply list_elem_of_fmap in Hin as (? & ? & _).
    + apply list_elem_of_fmap in Hin as ([[k f] w] & [= -> -> ->] & Hin).
      rewrite Hperm in Hin. by apply elem_of_map_to_list in Hin.
  - intros Hl. right. apply list_elem_of_fmap. exists ((key, fqdn), v).
    split; [done|]. rewrite Hperm. by apply elem_of_map_to_list.
Qed.

Lemma step_gauge c call c' item :
  step c call c' →
  expires c' !! item
  = gauge_after item [call] (expires c !! item).
Proof.
  intros Hstep. destruct Hstep; simpl; try done.
  - destruct (decide ((key, fqdn) = item)) as [<-|Hne].
    + by rewrite lookup_insert_eq.
    + by rewrite lookup_insert_ne.
  - destruct (decide ((key, fqdn) = item)) as [<-|Hne].
    + by rewrite lookup_delete_eq.
    + by rewrite lookup_delete_ne.
  - by rewrite Collect_expires_unchanged.
Qed.

(** X25.  The expiry gauge of a series follows the last call made for it.
    After any calls on the collector, a collection sends a sample for the
    series of a pin and a name exactly when the last of [SetExpire] and
    [ClearExpire] for that series was a [SetExpire] (or there was none
    and the series was there before), with the value of that
    [SetExpire]; a collection leaves every gauge as it is, so the same
    sample is sent again at the next one. *)
Theorem expire_sample_follows_last_call (key fqdn : string) (c : Collector)
    (calls : list Call) (c1 : Collector) (sent : list Metric) (c2 : Collector) :
  steps c calls c1 → step c1 (CallCollect sent) c2 →
  (∀ v, ssl_pinning_expire key fqdn v ∈ sent ↔
        gauge_after (key, fqdn) calls (expires c !! (key, fqdn)) = Some v) ∧
  expires c2 = expires c1 ∧
  (∀ sent' c3, step c2 (CallCollect sent') c3 →
     ∀ v, ssl_pinning_expire key fqdn v ∈ sent' ↔ ssl_pinning_expire key fqdn v ∈ sent).
Proof.
  intros Hsteps Hcollect.
  assert (expires c1 !! (key, fqdn)
          = gauge_after (key, fqdn) calls (expires c !! (key, fqdn))) as Hgauge.
  { clear Hcollect. induction Hsteps as [c|c call c' calls c'' Hstep _ IH]; [done|].
    rewrite IH, (step_gauge _ _ _ _ Hstep). done. }
  inversion Hcollect as [| | | |? errs exps Herrs Hexps]; subst.
  split; [|split].
  - intros v. by rewrite Collect_sent_expire, Hgauge.
  - apply Collect_expires_unchanged.
  - intros sent' c3 Hnext v.
    inversion Hnext as [| | | |? errs' exps' Herrs' Hexps']; subst.
    rewrite !Collect_sent_expire by done. by rewrite Collect_expires_unchanged.
Qed.

Lemma expire_sample_follows_last_call_witness :
  ssl_pinning_expire "K1" "a.test" 1000
    ∈ (Collect (ClearExpire (SetExpire NewCollector "K1" "a.test" 1000) "K1" "a.test")
         [] []).1
  ↔ None = Some 1000%Z.
Proof.
  assert (steps NewCollector
            [CallSetExpire "K1" "a.test" 1000; CallClearExpire "K1" "a.test"]
            (ClearExpire (SetExpire NewCollector "K1" "a.test" 1000) "K1" "a.test"))
    as Hsteps.
  { econstructor; [constructor|]. econstructor; [constructor|]. constructor. }
  assert (step (ClearExpire (SetExpire NewCollector "K1" "a.test" 1000) "K1" "a.test")
            (CallCollect
               (Collect (ClearExpire (SetExpire NewCollector "K1" "a.test" 1000)
                           "K1" "a.test") [] []).1)
            (Collect (ClearExpire (SetExpire NewCollector "K1" "a.test" 1000)
                        "K1" "a.test") [] []).2) as Hcollect.
  { apply (step_Collect _ [] []); vm_compute; reflexivity. }
  exact (proj1 (expire_sample_follows_last_call "K1" "a.test" _ _ _ _ _
                  Hsteps Hcollect) 1000).
Defined.

Lemma worker_tick_expires k key cur fetch :
  expires (collector (worker_tick k key cur fetch))
  = match fetch with
    | Ok res => <[(Key res, Fqdn key) := float64_of_int64 (Expire res)]>
                  (expires (collector k))
    | Err _ => expires (collector k)
    end.
Proof. unfold worker_tick. by destruct fetch. Qed.

Lemma worker_tick_expires_dom k key cur fetch :
  dom (expires (collector k)) ⊆ dom (expires (collector (worker_tick k key cur fetch))).
Proof.
  rewrite worker_tick_expires. destruct fetch; [|done].
  rewrite dom_insert. set_solver.
Qed.

Lemma run_expires_dom k ticks :
  dom (expires (collector k)) ⊆ dom (expires (collector (run k ticks))).
Proof.
  revert k. induction ticks as [|t ticks IH]; intros k; [done|].
  change (run k (t :: ticks))
    with (run (worker_tick k (tick_key t) (tick_cur t) (tick_fetch t)) ticks).
  etrans; [apply worker_tick_expires_dom|apply IH].
Qed.

(** X26.  The workers never remove an expiry gauge.  Every series that was
    there before the ticks, and the series of every pin a probe returned
    during the ticks, is there afterwards, and every collection sends a
    sample for it: after a certificate is rotated, the series of the old
    pin goes on being sent beside the series of the new one. *)
Theorem worker_leaves_old_pin_series (k : Keys) (ticks : list Tick) :
  let after := collector (run k ticks) in
  (∀ item, item ∈ dom (expires (collector k)) → item ∈ dom (expires after)) ∧
  (∀ t res, t ∈ ticks → tick_fetch t = Ok res →
     (Key res, Fqdn (tick_key t)) ∈ dom (expires after)) ∧
  (∀ item errs exps, item ∈ dom (expires after) →
     exps ≡ₚ map_to_list (expires after) →
     ∃ v, ssl_pinning_expire item.1 item.2 v ∈ (Collect after errs exps).1).
Proof.
  intros after. subst after. split; [|split].
  - intros item. apply run_expires_dom.
  - revert k. induction ticks as [|t0 ticks IH]; intros k t res Hin Hfetch.
    { by apply elem_of_nil in Hin. }
    change (run k (t0 :: ticks))
      with (run (worker_tick k (tick_key t0) (tick_cur t0) (tick_fetch t0)) ticks).
    apply elem_of_cons in Hin as [->|Hin]; [|by apply IH].
    apply run_expires_dom. rewrite worker_tick_expires, Hfetch, dom_insert.
    set_solver.
  - intros [key fqdn] errs exps [v Hv]%elem_of_dom Hperm. exists v.
    by apply Collect_sent_expire.
Qed.

Example rotation_keeps_both_series :
  let after := collector (run registry
                 [mkTick target 1 (Ok (mkDomainKey "" None "" 500 "" "" "K1" ""));
                  mkTick target 2 (Ok (mkDomainKey "" None "" 900 "" "" "K2" ""))]) in
  (Collect after [] (map_to_list (expires after))).1
  ≡ₚ [ssl_pinning_expire "K1" "a.test" 500; ssl_pinning_expire "K2" "a.test" 900].
Proof. vm_compute. apply (bool_decide_unpack _). vm_compute. exact I. Qed.

End gauge_facts.

Module read_failure_facts.
Import types scenarios.

Section reads.
Variable time_Parse : string → Z.

Lemma replies_pipeline conn db reply data :
  data ∈ redis.replies (redis.pipeline conn db reply) ↔
  ∃ k, k ∈ reply ∧ redis.hgetall_err conn k = false ∧ data = redis.HGetAll db k.
Proof.
  unfold redis.replies, redis.pipeline. rewrite list_elem_of_omap. split.
  - intros (cmd & Hcmd & Hdata). apply list_elem_of_fmap in Hcmd as (k & -> & Hk).
    exists k. destruct (redis.hgetall_err conn k); [done|]. by injection Hdata as <-.
  - intros (k & Hk & Herr & ->). exists (Ok (redis.HGetAll db k)). split; [|done].
    apply list_elem_of_fmap. exists k. by rewrite Herr.
Qed.

Lemma best_names conn db reply g :
  let best := foldl (redis.best_step time_Parse) ∅ (redis.pipeline conn db reply) in
  (∀ r, best !! g = Some r → Fqdn r = g) ∧
  (is_Some (best !! g) ↔
     ∃ k, k ∈ reply ∧ redis.hgetall_err conn k = false ∧
          redis.eligible g (redis.HGetAll db k)).
Proof.
  intros best. subst best. rewrite redis_facts.best_step_lookup, lookup_empty.
  set (cands := filter (redis.eligible g) _).
  pose proof (redis_facts.pick_foldl_min (redis.parseHash time_Parse <$> cands) None)
    as Hmin.
  assert (∀ data, data ∈ cands ↔
            redis.eligible g data ∧
            ∃ k, k ∈ reply ∧ redis.hgetall_err conn k = false ∧
                 data = redis.HGetAll db k) as Hcands.
  { intros data. subst cands. rewrite list_elem_of_filter, replies_pipeline.
    reflexivity. }
  destruct (foldl redis.pick None _) as [r|].
  - destruct Hmin as ([?|Hin] & _); [done|].
    apply list_elem_of_fmap in Hin as (data & -> & Hdata).
    apply Hcands in Hdata as (Hel & k & Hk & Herr & ->). split.
    + intros ? [= <-]. by destruct Hel.
    + split; [|by eexists]. intros _. exists k. done.
  - destruct Hmin as [_ Hnil]. split; [done|]. split; [by intros [? ?]|].
    intros (k & Hk & Herr & Hel). apply fmap_nil_inv in Hnil.
    assert (redis.HGetAll db k ∈ cands) as Hin by (apply Hcands; eauto).
    rewrite Hnil in Hin. by apply elem_of_nil in Hin.
Qed.

(** X27.  A read that fails in part.  The Redis backend skips in silence: when
    [KEYS] and the pipeline report no error, [GetByFile] returns no
    error, and the names it returns are exactly the names of the replies
    that carry no error and a hash with a key; a hash that is gone by the
    time it is read (an empty reply), or that has no key, leaves no trace,
    so a name whose only hash is such is missing from the manifest.  The
    PostgreSQL backend fails as a whole: one row that cannot be scanned
    turns the call into an error, and no record is returned. *)
Theorem GetByFile_partial_read_failure (file : string) :
  (∀ conn db reply visit,
     redis.keys_err conn = false → redis.exec_err conn = false →
     (∀ m, visit m ≡ₚ map_to_list m) →
     ∃ recs, redis.GetByFile time_Parse conn db reply visit file = Ok (recs, None) ∧
       ∀ g, (∃ r, r ∈ recs ∧ Fqdn r = g) ↔
            ∃ k, k ∈ reply ∧ redis.hgetall_err conn k = false ∧
                 redis.eligible g (redis.HGetAll db k)) ∧
  (∀ conn table row,
     postgres.query_err conn = false →
     row ∈ postgres.query table file → postgres.scan_err conn row = true →
     postgres.GetByFile conn table file = Err "failed to scan row").
Proof.
  split.
  - intros conn db reply visit Hkeys Hexec Hvisit. unfold redis.GetByFile.
    rewrite Hkeys, Hexec.
    destruct (decide (length reply = 0)%nat) as [Hlen|Hlen].
    { destruct reply; [|done]. eexists. split; [done|]. intros g. split.
      - by intros (r & Hr%elem_of_nil & _).
      - by intros (k & Hk%elem_of_nil & _). }
    eexists. split; [reflexivity|]. intros g.
    rewrite redis_facts.foldl_append_values. simpl.
    destruct (best_names conn db reply g) as [Hown Hsome]. rewrite <- Hsome. split.
    + intros (r & Hr & Hg). apply list_elem_of_fmap in Hr as ([g' r'] & -> & Hr).
      rewrite Hvisit in Hr. apply elem_of_map_to_list in Hr. simpl in Hg.
      destruct (best_names conn db reply g') as [Hown' _].
      rewrite <- Hg, (Hown' _ Hr). by eexists.
    + intros [r Hr]. exists r. split; [|by apply Hown].
      apply list_elem_of_fmap. exists (g, r). split; [done|].
      rewrite Hvisit. by apply elem_of_map_to_list.
  - intros conn table row Hquery Hin Hscan. unfold postgres.GetByFile.
    rewrite Hquery.
    assert (∀ rows acc, row ∈ rows →
              postgres.scanRows conn rows acc = Err "failed to scan row") as Hrows.
    { clear Hin. intros rows. induction rows as [|r rows IH]; intros acc Hin.
      - by apply elem_of_nil in Hin.
      - simpl. destruct (postgres.scan_err conn r) eqn:Hr; [done|].
        apply elem_of_cons in Hin as [->|Hin]; [congruence|].
        destruct (decide (postgres.key r = "")); by apply IH. }
    by rewrite Hrows.
Qed.
End reads.

Example redis_vanished_hash_is_dropped :
  redis.GetByFile (λ _, 0) redis.healthy rotation_db ["f.json:a.test:app-9"]
    map_to_list "f.json"
  = Ok ([], None).
Proof. vm_compute. reflexivity. Qed.

End read_failure_facts.

Module gauge_value_facts.
Import types metrics keys scenarios.

Lemma float64_of_int64_exact x : - 2 ^ 53 < x < 2 ^ 53 → float64_of_int64 x = x.
Proof.
  intros Hx. unfold float64_of_int64. rewrite decide_True; [done|].
  destruct (decide (x = 0)) as [->|Hne]; [done|].
  assert (Z.log2 (Z.abs x) < 53); [|lia].
  apply Z.log2_lt_pow2; lia.
Qed.

(** X28.  A probe that succeeds publishes the expiry it read.  After the tick
    the gauge of the pin and the name holds the expiry in seconds, exact
    for every value below [2^53] in size, and the next collection sends
    that value and no other for the series; a probe that fails leaves
    every gauge as it was. *)
Theorem successful_probe_sets_gauge (k : Keys) (key : DomainKey) (cur : Z)
    (fetch : result DomainKey) (errs : list (string * Z))
    (exps : list (string * string * Z)) :
  let after := collector (worker_tick k key cur fetch) in
  exps ≡ₚ map_to_list (expires after) →
  (∀ res, fetch = Ok res →
     expires after !! (Key res, Fqdn key) = Some (float64_of_int64 (Expire res)) ∧
     (- 2 ^ 53 < Expire res < 2 ^ 53 →
      ∀ v, ssl_pinning_expire (Key res) (Fqdn key) v ∈ (Collect after errs exps).1
           ↔ v = Expire res)) ∧
  (∀ err, fetch = Err err → expires after = expires (collector k)).
Proof.
  intros after Hperm. subst after. split.
  - intros res ->. rewrite gauge_facts.worker_tick_expires in *.
    rewrite lookup_insert_eq. split; [done|]. intros Hr v.
    rewrite gauge_facts.Collect_sent_expire
      by (by rewrite gauge_facts.worker_tick_expires).
    rewrite gauge_facts.worker_tick_expires, lookup_insert_eq.
    rewrite float64_of_int64_exact by done. split; [by intros [= <-]|by intros ->].
  - intros err ->. by rewrite gauge_facts.worker_tick_expires.
Qed.

Lemma successful_probe_sets_gauge_witness :
  ssl_pinning_expire "K2" "a.test" 86400
    ∈ (Collect
         (collector (worker_tick registry target 7
                       (Ok (mkDomainKey "" None "" 86400 "" "" "K2" ""))))
         [] [("K2", "a.test", 86400)]).1
  ↔ 86400 = 86400.
Proof.
  destruct (successful_probe_sets_gauge registry target 7
              (Ok (mkDomainKey "" None "" 86400 "" "" "K2" "")) []
              [("K2", "a.test", 86400)]) as [Hok _].
  - vm_compute. reflexivity.
  - destruct (Hok _ eq_refl) as [_ Hsent]. apply Hsent. simpl. lia.
Defined.

End gauge_value_facts.
